(** * led_board: the now-playing display (spotify_lyrics_matrix.py)
    and the text scroller (mytext.py)

    A shallow embedding of the pure core of [spotify_lyrics_matrix.py]:
    the LRC parser and the lyric lookup, the tick-based marquee, the
    drain-then-put publishing of the worker threads, the track-change
    step and the progress extrapolation of the render loop, and the
    album-image choice of the fetcher; then the configuration helpers
    and the layout of [main], the lyrics request and the assets of the
    fetcher, the download and the copy of the album image, the title
    and the lyric line of a frame; and, of [mytext.py], the colour
    argument and the pace of the scroller.

    Conventions of the embedding
    - Python [int] is [Z]; Python [float] is an IEEE-754 binary64 value,
      a [spec_float] with [prec = 53] and [emax = 1024], and every float
      operation is the correctly rounded one of [SpecFloat].
    - Python [str] is [list ascii]: the characters are the code points
      below 256.
    - A Python exception is the [Raise] case of [result]; [try/except]
      is a [match] on it.
    - [list.sort] is the interpreter's and [graphics.Color] the matrix
      library's: the parser takes the sort as a [ListSort], any
      rearrangement that is the stable sort when no key is a NaN, and
      the colour is built by [graphics_Color], which raises on a
      component that is not a byte.
    - [time.time()] is an argument of the function that reads it; so
      are the environment and the outcome of a request on the network. *)

From Stdlib Require Import ZArith List Bool Ascii Lia Permutation Sorted.
From Stdlib Require String.
Import String.StringSyntax.
Delimit Scope string_scope with string.
From Stdlib Require Import Floats.SpecFloat.
From Equations Require Import Equations.
From Equations.Prop Require Import Logic.
Import ListNotations.

Local Open Scope Z_scope.

(** ** Exceptions *)

Inductive exn : Type :=
| ValueError
| TypeError
| IndexError
| OverflowError
| ZeroDivisionError
| QueueEmpty
| QueueFull.

Inductive result (A : Type) : Type :=
| Ok (a : A)
| Raise (e : exn).

Arguments Ok {A} a.
Arguments Raise {A} e.

Definition bind {A B : Type} (c : result A) (k : A -> result B) : result B :=
  match c with
  | Ok a => k a
  | Raise e => Raise e
  end.

Notation "x <- c ;; k" := (bind c (fun x => k))
  (at level 61, c at next level, right associativity).

(** ** Python floats *)

Definition float : Type := spec_float.

Module Float.

Definition prec : Z := 53.
Definition emax : Z := 1024.

Definition add : float -> float -> float := SFadd prec emax.
Definition sub : float -> float -> float := SFsub prec emax.
Definition mul : float -> float -> float := SFmul prec emax.

Definition leb : float -> float -> bool := SFleb.
Definition ltb : float -> float -> bool := SFltb.

Definition is_zero (x : float) : bool :=
  match x with S754_zero _ => true | _ => false end.

Definition is_nan (x : float) : bool :=
  match x with S754_nan => true | _ => false end.

Definition is_finite (x : float) : bool :=
  match x with S754_zero _ | S754_finite _ _ _ => true | _ => false end.

(** [x / y]: a zero divisor raises, whatever the dividend. *)
Definition div (x y : float) : result float :=
  if is_zero y then Raise ZeroDivisionError else Ok (SFdiv prec emax x y).

(** The conversion of an [int] operand in mixed arithmetic, and
    [float(n)]: round to nearest even, [OverflowError] past the range. *)
Definition of_int (z : Z) : result float :=
  match binary_normalize prec emax z 0 false with
  | S754_infinity _ => Raise OverflowError
  | f => Ok f
  end.

(** [int(x)]: truncation toward zero. *)
Definition to_int (x : float) : result Z :=
  match x with
  | S754_nan => Raise ValueError
  | S754_infinity _ => Raise OverflowError
  | S754_zero _ => Ok 0
  | S754_finite s m e => Ok (cond_Zopp s (Z.shiftl (Zpos m) e))
  end.

(** The correctly rounded value of [(-1)^s * m * 10^e], for a decimal
    literal with digits [m] and decimal exponent [e]. *)
Definition of_decimal (s : bool) (m : Z) (e : Z) : float :=
  match m with
  | Zpos p =>
      match e with
      | Zneg k => SFdiv prec emax (S754_finite s p 0)
                    (S754_finite false (Pos.pow 10 k) 0)
      | _ => binary_normalize prec emax (cond_Zopp s (Zpos p * 10 ^ e)) 0 s
      end
  | _ => S754_zero s
  end.

End Float.

(** ** Python sequences and strings *)

Definition str : Type := list ascii.

Definition of_string (s : String.string) : str := String.list_ascii_of_string s.

Arguments of_string s%_string.

Section Sequences.
Context {A : Type}.

(** [l[i]] with a possibly negative index. *)
Definition py_index (l : list A) (i : Z) : result A :=
  let n := Z.of_nat (length l) in
  let j := if i <? 0 then i + n else i in
  if (0 <=? j) && (j <? n)
  then match nth_error l (Z.to_nat j) with
       | Some x => Ok x
       | None => Raise IndexError
       end
  else Raise IndexError.

(** The bound of a slice: negative counts from the end, then clamped. *)
Definition slice_bound (n i : Z) : Z :=
  let j := if i <? 0 then i + n else i in
  Z.max 0 (Z.min n j).

(** [l[a:b]]. *)
Definition py_slice (l : list A) (a b : Z) : list A :=
  let n := Z.of_nat (length l) in
  let a' := slice_bound n a in
  let b' := slice_bound n b in
  firstn (Z.to_nat (b' - a')) (skipn (Z.to_nat a') l).

(** [x * n] for a one-element sequence [x]. *)
Definition py_repeat (x : A) (n : Z) : list A := repeat x (Z.to_nat n).

(** Truthiness of a sequence. *)
Definition truthy (l : list A) : bool :=
  match l with [] => false | _ => true end.
End Sequences.

Definition code (c : ascii) : Z := Z.of_N (N_of_ascii c).

(** [str.isspace] on one character. *)
Definition is_space (c : ascii) : bool :=
  let n := code c in
  ((9 <=? n) && (n <=? 13)) || ((28 <=? n) && (n <=? 32))
  || (n =? 133) || (n =? 160).

(** The line boundaries of [str.splitlines]. *)
Definition is_linebreak (c : ascii) : bool :=
  let n := code c in
  ((10 <=? n) && (n <=? 13)) || ((28 <=? n) && (n <=? 30)) || (n =? 133).

Fixpoint lstrip (s : str) : str :=
  match s with
  | c :: s' => if is_space c then lstrip s' else s
  | [] => []
  end.

Definition rstrip (s : str) : str := rev (lstrip (rev s)).

Definition strip (s : str) : str := rstrip (lstrip s).

(** [s.splitlines()]: no line is reported after a final boundary, and
    a carriage return followed by a line feed is one boundary. *)
Fixpoint splitlines (s : str) : list str :=
  match s with
  | [] => []
  | c :: s' =>
      if is_linebreak c then
        match s' with
        | c' :: s'' =>
            if (code c =? 13) && (code c' =? 10)
            then [] :: splitlines s''
            else [] :: splitlines s'
        | [] => [ [] ]
        end
      else
        match splitlines s' with
        | l :: ls => (c :: l) :: ls
        | [] => [ [c] ]
        end
  end.

(** [s.split(sep)] for a one-character separator. *)
Fixpoint split (sep : ascii) (s : str) : list str :=
  match s with
  | [] => [ [] ]
  | c :: s' =>
      if Ascii.eqb c sep then [] :: split sep s'
      else match split sep s' with
           | p :: ps => (c :: p) :: ps
           | [] => [ [c] ]
           end
  end.

(** [s.startswith(c)] for a one-character prefix. *)
Definition startswith (c : ascii) (s : str) : bool :=
  match s with
  | c' :: _ => Ascii.eqb c' c
  | [] => false
  end.

(** ** The builtins [int(s)] and [float(s)] on text *)

Definition is_digit (c : ascii) : bool := (48 <=? code c) && (code c <=? 57).

Definition digit_value (c : ascii) : Z := code c - 48.

Definition decimal_value (ds : list ascii) : Z :=
  fold_left (fun acc c => 10 * acc + digit_value c) ds 0.

(** The whitespace of the C locale, skipped around a numeral. *)
Definition is_c_space (c : ascii) : bool :=
  ((9 <=? code c) && (code c <=? 13)) || (code c =? 32).

(** Both builtins first rewrite the text: a character below 127 is
    kept, any other whitespace becomes a space, and any other character
    (none of them is a decimal digit below 256) becomes a question mark. *)
Definition to_ascii_space (c : ascii) : ascii :=
  if code c <? 127 then c
  else if is_space c then " "%char else "?"%char.

Fixpoint c_lstrip (s : str) : str :=
  match s with
  | c :: s' => if is_c_space c then c_lstrip s' else s
  | [] => []
  end.

Definition c_strip (s : str) : str := rev (c_lstrip (rev (c_lstrip s))).

Definition split_sign (s : str) : bool * str :=
  match s with
  | c :: r =>
      if Ascii.eqb c "-"%char then (true, r)
      else if Ascii.eqb c "+"%char then (false, r)
      else (false, s)
  | [] => (false, [])
  end.

(** Decimal digits with single underscores between them. *)
Fixpoint digits_us (s : str) : option (list ascii) :=
  match s with
  | c :: r =>
      if is_digit c then
        match r with
        | [] => Some [c]
        | c' :: r' =>
            if Ascii.eqb c' "_"%char
            then option_map (cons c) (digits_us r')
            else option_map (cons c) (digits_us r)
        end
      else None
  | [] => None
  end.

(** The default limit on the digits of a decimal numeral given to [int]. *)
Definition int_max_str_digits : Z := 4300.

Definition py_int (s : str) : result Z :=
  let (neg, r) := split_sign (c_strip (map to_ascii_space s)) in
  match digits_us r with
  | Some ds =>
      if int_max_str_digits <? Z.of_nat (length ds) then Raise ValueError
      else Ok (cond_Zopp neg (decimal_value ds))
  | None => Raise ValueError
  end.

(** An underscore of a float literal stands between two digits; the
    underscores are removed before the numeral is read. *)
Fixpoint drop_underscores (prev : ascii) (s : str) : option str :=
  match s with
  | [] => if Ascii.eqb prev "_"%char then None else Some []
  | c :: r =>
      if Ascii.eqb c "_"%char then
        if is_digit prev then drop_underscores c r else None
      else if Ascii.eqb prev "_"%char && negb (is_digit c) then None
      else option_map (cons c) (drop_underscores c r)
  end.

Definition lower (c : ascii) : ascii :=
  if (65 <=? code c) && (code c <=? 90)
  then ascii_of_N (Z.to_N (code c + 32)) else c.

Fixpoint span_digits (s : str) : list ascii * str :=
  match s with
  | c :: r =>
      if is_digit c
      then let (d, r') := span_digits r in (c :: d, r')
      else ([], s)
  | [] => ([], [])
  end.

Definition str_eqb (a b : str) : bool :=
  if list_eq_dec ascii_dec a b then true else false.

(** A decimal numeral: digits, an optional fraction, an optional
    exponent; at least one digit before the exponent. *)
Definition parse_decimal (neg : bool) (s : str) : result float :=
  let (ip, r1) := span_digits s in
  let (fp, r2) :=
    match r1 with
    | c :: r => if Ascii.eqb c "."%char then span_digits r else ([], r1)
    | [] => ([], r1)
    end in
  if negb (truthy (ip ++ fp)) then Raise ValueError
  else
    let m := decimal_value (ip ++ fp) in
    let scale := Z.of_nat (length fp) in
    match r2 with
    | [] => Ok (Float.of_decimal neg m (- scale))
    | c :: r3 =>
        if Ascii.eqb (lower c) "e"%char then
          let (eneg, r4) := split_sign r3 in
          let (ed, r5) := span_digits r4 in
          if truthy ed && negb (truthy r5)
          then Ok (Float.of_decimal neg m
                     (cond_Zopp eneg (decimal_value ed) - scale))
          else Raise ValueError
        else Raise ValueError
    end.

Definition py_float (s : str) : result float :=
  match drop_underscores zero (c_strip (map to_ascii_space s)) with
  | None => Raise ValueError
  | Some t =>
      let (neg, r) := split_sign t in
      let w := map lower r in
      if str_eqb w (of_string "inf") || str_eqb w (of_string "infinity")
      then Ok (S754_infinity neg)
      else if str_eqb w (of_string "nan") then Ok S754_nan
      else parse_decimal neg r
  end.

(** ** Lyrics *)

Record LyricLine : Type := mkLyricLine { t : float; text : str }.

(** The stable sort by [<] on float keys: each element is put after
    those before it whose key is not greater. *)
Section Sort.
Context {A : Type}.
Variable key : A -> float.

Fixpoint insert_sorted (x : A) (l : list A) : list A :=
  match l with
  | [] => [x]
  | y :: l' =>
      if Float.ltb (key x) (key y) then x :: y :: l'
      else y :: insert_sorted x l'
  end.

Definition stable_sort (l : list A) : list A :=
  fold_left (fun acc x => insert_sorted x acc) l [].
End Sort.

(** [out.sort(key=lambda a: a.t)]. The method is the interpreter's: it
    returns the lines rearranged; when no key is a NaN the order [<] is
    total on the keys and the result is the stable sort; with a NaN
    among the keys the order that it leaves depends on how it merges,
    and is left open. *)
Record ListSort : Type := mkListSort {
  list_sort : list LyricLine -> list LyricLine;
  list_sort_perm : forall l, Permutation (list_sort l) l;
  list_sort_stable : forall l,
    (forall e, In e l -> Float.is_nan (t e) = false) ->
    list_sort l = stable_sort t l }.

(** The body of the [try] of [parse_lrc]: one tag, without its
    opening bracket. *)
Definition parse_tag (tag : str) (lyric : str) : result LyricLine :=
  match split ":"%char tag with
  | [m; s] =>
      mi <- py_int m ;;
      sf <- py_float s ;;
      mf <- Float.of_int (mi * 60) ;;
      Ok (mkLyricLine (Float.add mf sf) lyric)
  | _ => Raise ValueError
  end.

(** The inner [for p in parts[:-1]] loop, appending to [out]. *)
Definition scan_parts (lyric : str) (out : list LyricLine) (ps : list str)
  : list LyricLine :=
  fold_left
    (fun out p =>
       if startswith "["%char p then
         match parse_tag (py_slice p 1 (Z.of_nat (length p))) lyric with
         | Ok e => out ++ [e]
         | Raise _ => out
         end
       else out)
    ps out.

(** One iteration of the [for raw in text.splitlines()] loop. *)
Definition parse_line (out : list LyricLine) (raw : str)
  : result (list LyricLine) :=
  if negb (truthy (strip raw)) then Ok out
  else
    let parts := split "]"%char raw in
    last <- py_index parts (-1) ;;
    Ok (scan_parts (strip last) out (py_slice parts 0 (-1))).

Definition parse_lines (out : list LyricLine) (lines : list str)
  : result (list LyricLine) :=
  fold_left (fun acc raw => out <- acc ;; parse_line out raw) lines (Ok out).

Definition parse_lrc (sorter : ListSort) (text : str)
  : result (list LyricLine) :=
  out <- parse_lines [] (splitlines text) ;;
  Ok (list_sort sorter out).

(** The [while lo <= hi] loop of [current_line_index]. *)
Equations? search_loop (lrc : list LyricLine) (q : float) (lo hi ans : Z)
  : result Z by wf (Z.to_nat (hi - lo + 1)) lt :=
  search_loop lrc q lo hi ans with inspect (lo <=? hi) := {
    | exist _ true Hle =>
        let mid := (lo + hi) / 2 in
        match py_index lrc mid with
        | Raise e => Raise e
        | Ok line =>
            if Float.leb (t line) q
            then search_loop lrc q (mid + 1) hi mid
            else search_loop lrc q lo (mid - 1) ans
        end
    | exist _ false Hle => Ok ans }.
Proof.
  all: apply Z.leb_le in Hle;
    assert (lo <= (lo + hi) / 2 <= hi)
      by (split; [apply Z.div_le_lower_bound | apply Z.div_le_upper_bound]; lia);
    lia.
Qed.

Definition current_line_index (lrc : list LyricLine) (q : float) : result Z :=
  if negb (truthy lrc) then Ok (-1)
  else search_loop lrc q 0 (Z.of_nat (length lrc) - 1) (-1).

(** ** The marquee *)

(** [a % b] on integers: the sign of the result follows the divisor. *)
Definition py_mod (a b : Z) : result Z :=
  if b =? 0 then Raise ZeroDivisionError else Ok (a mod b).

(** The float written as the integer literal [z] followed by [.0]. *)
Definition float_lit (z : Z) : float :=
  binary_normalize Float.prec Float.emax z 0 false.

(** [int(tick * step_per_frame)], with [step_per_frame = cps / fps]. *)
Definition scroll_steps (tick : Z) (cps fps : float) : result Z :=
  step_per_frame <- Float.div cps fps ;;
  tickf <- Float.of_int tick ;;
  Float.to_int (Float.mul tickf step_per_frame).

Definition marquee_slice_tick (text : str) (max_chars tick : Z) (cps : float)
  (gap : Z) (fps : float) : result str :=
  if Z.of_nat (length text) <=? max_chars then Ok text
  else
    steps <- scroll_steps tick cps fps ;;
    offset <- py_mod steps (Z.of_nat (length text) + gap) ;;
    let loop := text ++ py_repeat " "%char gap ++ text in
    Ok (py_slice loop offset (offset + max_chars)).

(** ** Queues *)

Section Queues.
Context {A : Type}.

(** [queue.Queue(maxsize)], first in first out; a [maxsize] of zero
    or less is no bound. *)
Record Queue : Type := mkQueue { maxsize : Z; items : list A }.

Definition get_nowait (q : Queue) : result A * Queue :=
  match items q with
  | [] => (Raise QueueEmpty, q)
  | x :: rest => (Ok x, mkQueue (maxsize q) rest)
  end.

Definition put_nowait (x : A) (q : Queue) : result unit * Queue :=
  if (0 <? maxsize q) && (maxsize q <=? Z.of_nat (length (items q)))
  then (Raise QueueFull, q)
  else (Ok tt, mkQueue (maxsize q) (items q ++ [x])).

(** [try: while True: q.get_nowait()  except queue.Empty: pass]. *)
Equations? drain (q : Queue) : result unit * Queue
  by wf (length (items q)) lt :=
  drain q with inspect (get_nowait q) := {
    | exist _ (Ok _, q') Hget => drain q'
    | exist _ (Raise QueueEmpty, q') Hget => (Ok tt, q')
    | exist _ (Raise e, q') Hget => (Raise e, q') }.
Proof.
  unfold get_nowait in Hget. destruct (items q) as [|x rest]; [discriminate|].
  inversion Hget; subst. simpl. lia.
Qed.

(** The publishing of [Poller.run]: the enclosing [except Exception]
    swallows whatever the two steps raise. *)
Definition poller_publish (snap : A) (q : Queue) : Queue :=
  let (r, q1) := drain q in
  match r with
  | Ok _ => snd (put_nowait snap q1)
  | Raise _ => q1
  end.

(** The publishing of [Fetcher.run]: only [queue.Full] is caught
    around the put. *)
Definition fetcher_publish (assets : A) (q : Queue) : result unit * Queue :=
  let (r, q1) := drain q in
  match r with
  | Ok _ =>
      match put_nowait assets q1 with
      | (Raise QueueFull, q2) => (Ok tt, q2)
      | other => other
      end
  | Raise e => (Raise e, q1)
  end.
End Queues.

Arguments Queue A : clear implicits.

(** ** Playback snapshots *)

(** The ["width"] entry of an image dictionary. *)
Inductive jwidth : Type :=
| WAbsent
| WNull
| WInt (w : Z).

Record Image : Type := mkImage { width : jwidth; url : option str }.

(** A track dictionary, as far as the program reads it. *)
Record Item : Type := mkItem {
  id : option str;
  name : str;
  artists : list str;
  images : list Image }.

Record PlaybackSnapshot : Type := mkSnapshot {
  item : option Item;
  is_playing : bool;
  progress_ms : Z;
  ts : float }.

(** The answer of [current_user_playing_track], when there is one. *)
Record Playback : Type := mkPlayback {
  pb_item : option Item;
  pb_is_playing : option bool;
  pb_progress_ms : option Z }.

(** The snapshot that [Poller.run] builds at wall-clock time [now]. *)
Definition poller_snapshot (pb : option Playback) (now : float)
  : PlaybackSnapshot :=
  match pb with
  | Some {| pb_item := Some it; pb_is_playing := p; pb_progress_ms := ms |} =>
      mkSnapshot (Some it)
        (match p with Some b => b | None => false end)
        (match ms with Some z => z | None => 0 end)
        now
  | _ => mkSnapshot None false 0 now
  end.

(** The snapshot the render loop starts with. *)
Definition initial_snapshot (now : float) : PlaybackSnapshot :=
  mkSnapshot None false 0 now.

(** ** The render loop *)

Definition str_truthy (s : option str) : bool :=
  match s with Some s' => truthy s' | None => false end.

Definition tid_eqb (a b : option str) : bool :=
  match a, b with
  | Some x, Some y => str_eqb x y
  | None, None => true
  | _, _ => false
  end.

(** The part of the live state that the track-change step reads and
    writes. *)
Record Coordinator : Type := mkCoordinator {
  last_seen_tid : option str;
  req_q : Queue Item }.

Definition snapshot_tid (snap : PlaybackSnapshot) : option str :=
  match item snap with Some it => id it | None => None end.

(** The test [tid and tid != last_seen_tid]. *)
Definition track_changed (snap : PlaybackSnapshot) (st : Coordinator) : bool :=
  str_truthy (snapshot_tid snap)
  && negb (tid_eqb (snapshot_tid snap) (last_seen_tid st)).

(** "On track change, request new assets": the new state, and whether
    a request was put on the queue. *)
Definition track_change_step (snap : PlaybackSnapshot) (st : Coordinator)
  : result bool * Coordinator :=
  match item snap with
  | Some it =>
      if track_changed snap st then
        let (r, q1) := drain (req_q st) in
        match r with
        | Ok _ =>
            match put_nowait it q1 with
            | (Ok _, q2) => (Ok true, mkCoordinator (id it) q2)
            | (Raise QueueFull, q2) => (Ok false, mkCoordinator (id it) q2)
            | (Raise e, q2) => (Raise e, mkCoordinator (id it) q2)
            end
        | Raise e => (Raise e, mkCoordinator (id it) q1)
        end
      else (Ok false, st)
  | None => (Ok false, st)
  end.

(** The step over the snapshots of successive iterations, with the
    flag of each. *)
Fixpoint run_track_changes (snaps : list PlaybackSnapshot) (st : Coordinator)
  : list (result bool) * Coordinator :=
  match snaps with
  | [] => ([], st)
  | snap :: rest =>
      let (r, st1) := track_change_step snap st in
      let (rs, st2) := run_track_changes rest st1 in
      (r :: rs, st2)
  end.

(** "Compute progression locally", with [now] the reading of the
    clock. *)
Definition displayed_progress (snap : PlaybackSnapshot) (now : float)
  : result Z :=
  match item snap with
  | Some _ =>
      if is_playing snap then
        elapsed_ms <-
          Float.to_int (Float.mul (Float.sub now (ts snap)) (float_lit 1000)) ;;
        Ok (progress_ms snap + elapsed_ms)
      else Ok (progress_ms snap)
  | None => Ok 0
  end.

(** The lyric line of the frame, when the assets have timed lyrics. *)
Definition line_now (lrc : list LyricLine) (artists_joined : str)
  (t_sec : float) : result str :=
  idx <- current_line_index lrc t_sec ;;
  if 0 <=? idx
  then line <- py_index lrc idx ;; Ok (text line)
  else Ok artists_joined.

(** ** The album image of the fetcher *)

(** [int(im.get("width", 64))]. *)
Definition image_width (im : Image) : result Z :=
  match width im with
  | WAbsent => Ok 64
  | WNull => Raise TypeError
  | WInt w => Ok w
  end.

Definition width_distance (target : Z) (im : Image) : result Z :=
  w <- image_width im ;; Ok (Z.abs (w - target)).

(** [min(l, key=key)]: the first element with the least key. *)
Section MinBy.
Context {A : Type}.
Variable key : A -> result Z.

Fixpoint min_from (best : A) (best_key : Z) (l : list A) : result A :=
  match l with
  | [] => Ok best
  | x :: rest =>
      k <- key x ;;
      if k <? best_key then min_from x k rest
      else min_from best best_key rest
  end.

Definition py_min (l : list A) : result A :=
  match l with
  | [] => Raise ValueError
  | x :: rest => k <- key x ;; min_from x k rest
  end.
End MinBy.

(** The [min(imgs, key=...)] of [Fetcher.run]. *)
Definition album_image (album_side : Z) (imgs : list Image) : result Image :=
  let target := Z.max 32 album_side in
  py_min (width_distance target) imgs.

(** The [aurl] of [Fetcher.run]. *)
Definition album_url (album_side : Z) (imgs : list Image)
  : result (option str) :=
  if truthy imgs then
    match album_image album_side imgs with
    | Ok im => Ok (url im)
    | Raise _ => im <- py_index imgs (-1) ;; Ok (url im)
    end
  else Ok None.

(** ** The end-to-end scenario of the specification *)

Definition scenario_timeline : list LyricLine :=
  [ mkLyricLine (float_lit 0) (of_string "la la");
    mkLyricLine (float_lit 4) (of_string "second line") ].

Definition trackA : Item := mkItem (Some (of_string "trackA")) (of_string "A") [] [].
Definition trackB : Item := mkItem (Some (of_string "trackB")) (of_string "B") [] [].

Definition playing (it : Item) (ms : Z) : option Playback :=
  Some (mkPlayback (Some it) (Some true) (Some ms)).

(** (trackA, playing, 0 ms, t = 0), (trackA, playing, 5000 ms, t = 5 s),
    (trackB, playing, 0 ms, t = 5.1 s). *)
Definition scenario_snapshots : list PlaybackSnapshot :=
  [ poller_snapshot (playing trackA 0) (float_lit 0);
    poller_snapshot (playing trackA 5000) (float_lit 5);
    poller_snapshot (playing trackB 0) (Float.of_decimal false 51 (-1)) ].

(** A wall-clock reading [T0], and the reading 2500 ms later. *)
Definition wall_clock_T0 : float := float_lit 1700000000.
Definition wall_clock_T0_2500ms : float := Float.of_decimal false 17000000025 (-1).

(** A render loop that has seen trackA, with the request queue of [main]. *)
Definition seen_trackA : Coordinator :=
  mkCoordinator (Some (of_string "trackA")) (mkQueue 1 []).

(** The render loop as [main] starts it. *)
Definition initial_coordinator : Coordinator :=
  mkCoordinator None (mkQueue 1 []).

(** Two image variants around an album side of 28. *)
Definition image27 : Image := mkImage (WInt 27) (Some (of_string "u27")).
Definition image36 : Image := mkImage (WInt 36) (Some (of_string "u36")).

(** ** Vocabulary of the statements *)

(** A time tag, mm:ss.xx between brackets: three fields of two
    decimal digits. *)
Record TimeTag : Type := mkTimeTag { mm : str; ss : str; xx : str }.

Definition wf_field (f : str) : bool :=
  match f with
  | [a; b] => is_digit a && is_digit b
  | _ => false
  end.

Definition wf_tag (tg : TimeTag) : bool :=
  wf_field (mm tg) && wf_field (ss tg) && wf_field (xx tg).

(** The tag between its brackets, and the tag as it is written. *)
Definition tag_body (tg : TimeTag) : str :=
  mm tg ++ ":"%char :: ss tg ++ "."%char :: xx tg.

Definition tag_text (tg : TimeTag) : str :=
  "["%char :: tag_body tg ++ ["]"%char].

(** The timestamp [60 * mm + ss.xx], in seconds. *)
Definition tag_time (tg : TimeTag) : float :=
  Float.add (float_lit (60 * decimal_value (mm tg)))
    (Float.of_decimal false (decimal_value (ss tg ++ xx tg)) (-2)).

(** A line that carries the tags [tags], then the text [txt]. *)
Definition tagged_line (tags : list TimeTag) (txt : str) : str :=
  concat (map tag_text tags) ++ txt.

(** The entry of one tag of a line whose text is [txt]. *)
Definition tag_entry (txt : str) (tg : TimeTag) : LyricLine :=
  mkLyricLine (tag_time tg) (strip txt).

(** The entries that the line [raw] adds to the parse. *)
Definition line_entries (raw : str) : list LyricLine :=
  match parse_line [] raw with
  | Ok out => out
  | Raise _ => []
  end.







(** Non-decreasing keys. *)
Definition key_le {A : Type} (key : A -> float) (a b : A) : Prop :=
  Float.leb (key a) (key b) = true.

(** [a] is timed at or before [b]. *)
Definition time_le (a b : LyricLine) : Prop := Float.leb (t a) (t b) = true.

(** A lyric timeline: non-decreasing timestamps. *)
Definition timeline (lrc : list LyricLine) : Prop := Sorted time_le lrc.

(** [idx] is the greatest index whose line is timed at or before [q],
    and [-1] when there is none. *)
Definition last_at_or_before (lrc : list LyricLine) (q : float) (idx : Z)
  : Prop :=
  (idx = -1
   /\ forall i line, nth_error lrc i = Some line ->
        Float.leb (t line) q = false)
  \/ (0 <= idx
      /\ (exists line, nth_error lrc (Z.to_nat idx) = Some line
                       /\ Float.leb (t line) q = true)
      /\ forall i line, idx < Z.of_nat i -> nth_error lrc i = Some line ->
           Float.leb (t line) q = false).

(** The window of [n] elements of [l] that starts at [offset]. *)
Definition window {A : Type} (l : list A) (offset n : Z) : list A :=
  firstn (Z.to_nat n) (skipn (Z.to_nat offset) l).

(** The scrolled text as the specification lays it out: the text, the
    gap of spaces, the text again. *)
Definition marquee_loop (text : str) (gap : Z) : str :=
  text ++ repeat " "%char (Z.to_nat gap) ++ text.

(** The offset of the specification,
    [floor(tick * cps / fps) mod (len + gap)], for whole rates. *)
Definition spec_offset (tick cps fps len gap : Z) : Z :=
  (tick * cps / fps) mod (len + gap).

(** A finite float as a fraction with a power of two below: the pair
    of its numerator and denominator. *)
Definition dyadic (x : float) : Z * Z :=
  match x with
  | S754_finite s m e =>
      (cond_Zopp s (Zpos m * 2 ^ Z.max e 0), 2 ^ Z.max (- e) 0)
  | _ => (0, 1)
  end.

(** The value of a finite float with its fraction cut off. *)
Definition truncation (x : float) : Z :=
  Z.quot (fst (dyadic x)) (snd (dyadic x)).

(** [P] holds of the [n] integers from [z] on. *)
Fixpoint all_from (P : Z -> bool) (z : Z) (n : nat) : bool :=
  match n with
  | O => true
  | S n' => P z && all_from P (z + 1) n'
  end.

(** At [tick], the step count of the code is the exact
    [floor(tick * c / f)], for the whole rates [c] and [f]. *)
Definition steps_exact (c f tick : Z) : bool :=
  match scroll_steps tick (float_lit c) (float_lit f) with
  | Ok k => k =? tick * c / f
  | Raise _ => false
  end.

(** The ticks of the first ten minutes at 30 frames per second. *)
Definition ten_minute_ticks : Z := 18000.

(** The rates that [main] uses when the environment sets none: 3
    characters per second for the title and 6 for the lyric line. *)
Definition default_cps (c : Z) : Prop := c = 3 \/ c = 6.

(** The proper use of the marquee: a text longer than the window, a
    window and a gap that are counts. *)
Definition max_chars_ok (max_chars : Z) (text : str) (gap : Z) : Prop :=
  max_chars < Z.of_nat (length text) /\ 0 <= max_chars /\ 0 <= gap.

(** [x], of key [k], comes first among the elements of [l] that have
    the least key. *)
Definition first_least {A : Type} (key : A -> result Z) (l : list A) (x : A)
  (k : Z) : Prop :=
  key x = Ok k
  /\ exists before after, l = before ++ x :: after
       /\ (forall y ky, In y before -> key y = Ok ky -> k < ky)
       /\ (forall y ky, In y after -> key y = Ok ky -> k <= ky).

(** ** Sample lyrics *)

(** The tag written with the fields [m], [s] and [x]. *)
Definition tag (m s x : String.string) : TimeTag :=
  mkTimeTag (of_string m) (of_string s) (of_string x).

Arguments tag (m s x)%_string.

(** Two timed lines around a line whose tag does not read. *)
Definition sample_lrc : str :=
  of_string "[00:12.50]second" ++ ["010"%char]
  ++ of_string "[xx:yy]oops" ++ ["010"%char]
  ++ of_string "[00:01.00]first".


(** ** Helpers of the configuration *)

Definition clamp (v lo hi : Z) : Z :=
  if v <? lo then lo else if hi <? v then hi else v.

(** The character of the decimal digit [d]. *)
Definition digit_char (d : Z) : ascii := ascii_of_N (Z.to_N (48 + d)).

(** The decimal digits of a natural number, most significant first. *)
Equations? digits_of (n : Z) : list ascii by wf (Z.to_nat n) lt :=
  digits_of n with inspect (n <? 10) := {
    | exist _ true _ => [digit_char n]
    | exist _ false Hbig => digits_of (n / 10) ++ [digit_char (n mod 10)] }.
Proof.
  apply Z.ltb_ge in Hbig.
  assert (n / 10 < n) by (apply Z.div_lt; lia).
  assert (0 <= n / 10) by (apply Z.div_pos; lia).
  lia.
Qed.

(** [str(n)] on an integer: the numeral, refused past the digit limit. *)
Definition py_str_int (z : Z) : result str :=
  let ds := digits_of (Z.abs z) in
  if int_max_str_digits <? Z.of_nat (length ds) then Raise ValueError
  else Ok (if z <? 0 then "-"%char :: ds else ds).

(** The environment: the value of each variable that is set. *)
Definition environ : Type := str -> option str.

(** [os.getenv(key, default)]. *)
Definition getenv (env : environ) (key default : str) : str :=
  match env key with
  | Some v => v
  | None => default
  end.

Definition env_int (env : environ) (key : str) (default : Z) : Z :=
  match (s <- py_str_int default ;; py_int (getenv env key s)) with
  | Ok z => z
  | Raise _ => default
  end.

(** ** Fonts and layout *)

(** [str.lower] on one character. *)
Definition py_lower (c : ascii) : ascii :=
  let n := code c in
  if ((65 <=? n) && (n <=? 90))
     || ((192 <=? n) && (n <=? 222) && negb (n =? 215))
  then ascii_of_N (Z.to_N (n + 32)) else c.

(** [os.path.basename]: what follows the last slash. *)
Definition basename (p : str) : str := last (split "/"%char p) [].

Fixpoint is_prefix (p s : str) : bool :=
  match p, s with
  | [], _ => true
  | a :: p', b :: s' => Ascii.eqb a b && is_prefix p' s'
  | _ :: _, [] => false
  end.

(** [needle in hay]. *)
Fixpoint contains (needle hay : str) : bool :=
  is_prefix needle hay
  || match hay with
     | [] => false
     | _ :: hay' => contains needle hay'
     end.

Definition guess_char_px (font_path : str) : Z * Z :=
  let name := map py_lower (basename font_path) in
  if contains (of_string "tom-thumb") name then (3, 6)
  else if contains (of_string "4x6") name then (4, 7)
  else if contains (of_string "5x7") name then (5, 8)
  else if contains (of_string "6x9") name then (6, 10)
  else if contains (of_string "6x10") name then (6, 11)
  else if contains (of_string "7x13") name then (7, 14)
  else (6, 11).

(** [a // b] on integers. *)
Definition py_floordiv (a b : Z) : result Z :=
  if b =? 0 then Raise ZeroDivisionError else Ok (a / b).

(** The integers that [main] computes once, before the loop. *)
Record Layout : Type := mkLayout {
  album : Z;
  right_x : Z;
  right_w : Z;
  title_cps : Z;
  lyric_cps : Z;
  gap_chars : Z;
  poll_ms : Z;
  title_gap : Z;
  title_base : Z;
  lrc_offset : float;
  max_title_chars : Z;
  max_lyric_chars : Z;
  lyric_base : Z }.

(** "Layout + tuning": [width] and [height] are those of the matrix,
    [(tw, th)] and [(lw, lh)] the cells of the title and lyric fonts. *)
Definition layout (env : environ) (width height : Z) (title_cell lyric_cell : Z * Z)
  : result Layout :=
  let '(tw, th) := title_cell in
  let '(lw, lh) := lyric_cell in
  let ALBUM := env_int env (of_string "ALBUM_SIDE") 28 in
  let right_x := ALBUM + 2 in
  let right_w := width - right_x in
  let TITLE_CPS := Z.max 1 (env_int env (of_string "TITLE_SCROLL_SPEED") 3) in
  let LYRIC_CPS := Z.max 1 (env_int env (of_string "LYRIC_SCROLL_SPEED") 6) in
  let GAP := Z.max 1 (env_int env (of_string "GAP_CHARS") 3) in
  offset_ms <- Float.of_int (env_int env (of_string "LRC_OFFSET_MS") 0) ;;
  LRC_OFFSET <- Float.div offset_ms (float_lit 1000) ;;
  let POLL_MS := Z.max 300 (env_int env (of_string "POLL_MS") 900) in
  let TITLE_GAP := Z.max 0 (env_int env (of_string "TITLE_LYRIC_GAP_PX") 3) in
  let TITLE_BASE :=
    clamp (env_int env (of_string "TITLE_BASELINE_PX") 12) th (height - lh - 1) in
  title_columns <- py_floordiv right_w tw ;;
  lyric_columns <- py_floordiv right_w lw ;;
  let lyric_base := Z.max (TITLE_BASE + TITLE_GAP + lh) (ALBUM + 1) in
  Ok (mkLayout ALBUM right_x right_w TITLE_CPS LYRIC_CPS GAP POLL_MS TITLE_GAP
        TITLE_BASE LRC_OFFSET (Z.max 1 title_columns) (Z.max 1 lyric_columns) lyric_base).

(** ** The queues of the render loop *)

Section LatestOfQueue.
Context {A : Type}.

(** "Drain latest playback snapshot":
    [while True: try: last = q.get_nowait()  except queue.Empty: break]. *)
Equations? drain_latest (last : A) (q : Queue A) : result A * Queue A
  by wf (length (items q)) lt :=
  drain_latest last q with inspect (get_nowait q) := {
    | exist _ (Ok x, q') Hget => drain_latest x q'
    | exist _ (Raise QueueEmpty, q') Hget => (Ok last, q')
    | exist _ (Raise e, q') Hget => (Raise e, q') }.
Proof.
  unfold get_nowait in Hget. destruct (items q) as [|y rest]; [discriminate|].
  inversion Hget; subst. simpl. lia.
Qed.

(** "Incorporate newly fetched assets":
    [try: cur = q.get_nowait()  except queue.Empty: pass]. *)
Definition take_if_any (cur : A) (q : Queue A) : result A * Queue A :=
  match get_nowait q with
  | (Ok x, q') => (Ok x, q')
  | (Raise QueueEmpty, q') => (Ok cur, q')
  | (Raise e, q') => (Raise e, q')
  end.
End LatestOfQueue.

(** ** Lyrics from the service *)

(** The reply of the lyrics service, as far as the program reads it: a
    missing or null entry is [None]. *)
Record LyricsJson : Type := mkLyricsJson {
  syncedLyrics : option str;
  plainLyrics : option str }.

(** What [requests.get] gives: an exception, or a status and a body;
    the body is [None] when it does not decode to such a reply. *)
Inductive HttpOutcome : Type :=
| NetError
| Reply (status : Z) (body : option LyricsJson).

(** [v or ""]. *)
Definition or_empty (v : option str) : str :=
  match v with
  | Some s => s
  | None => []
  end.

Definition fetch_lyrics (sorter : ListSort) (outcome : HttpOutcome)
  : list LyricLine * option str :=
  match outcome with
  | NetError => ([], None)
  | Reply status body =>
      if status =? 200 then
        match body with
        | None => ([], None)
        | Some data =>
            let synced := strip (or_empty (syncedLyrics data)) in
            let plain := strip (or_empty (plainLyrics data)) in
            if truthy synced then
              match parse_lrc sorter synced with
              | Ok lrc => (lrc, None)
              | Raise _ => ([], None)
              end
            else if truthy plain then ([], Some plain)
            else ([], None)
        end
      else ([], None)
  end.

(** The [plain_lines] that [Fetcher.run] stores. *)
Definition plain_lines_of (plain : option str) : option (list str) :=
  match plain with
  | Some p =>
      if truthy p
      then Some (map strip
                   (filter (fun ln => truthy (strip ln)) (splitlines p)))
      else None
  | None => None
  end.

(** A text with no whitespace at either end. *)
Definition stripped (s : str) : Prop := strip s = s.

(** A reply with plain lyrics only. *)
Definition plain_reply : HttpOutcome :=
  Reply 200
    (Some (mkLyricsJson None
             (Some (of_string " la la" ++ ["010"; "010"]%char
                    ++ of_string "  second line " ++ ["010"]%char)))).

(** ** The frame *)

(** The frame rate of the render loop. *)
Definition target_fps : float := float_lit 30.

(** [marquee_slice_tick] called with a whole rate, as [main] calls it:
    the rate becomes a float where it is divided. *)
Definition marquee_slice_tick_int (text : str) (max_chars tick cps gap : Z)
  (fps : float) : result str :=
  if Z.of_nat (length text) <=? max_chars then Ok text
  else
    cpsf <- Float.of_int cps ;;
    marquee_slice_tick text max_chars tick cpsf gap fps.

Definition untitled : str := of_string "(untitled)".

(** "BIG TITLE (centered if it fits; scroll if long)": the left edge
    and the text of the title that is drawn; [tw] is the width of a
    character of the title font. *)
Definition title_draw (l : Layout) (tw : Z) (title : str) (tick : Z)
  : result (Z * str) :=
  let ttxt := if truthy title then title else untitled in
  if Z.of_nat (length ttxt) <=? max_title_chars l then
    let px := Z.of_nat (length ttxt) * tw in
    let cx := right_x l + (right_w l - px) / 2 in
    Ok (cx, ttxt)
  else
    tdraw <- marquee_slice_tick_int ttxt (max_title_chars l) tick (title_cps l)
               (gap_chars l) target_fps ;;
    Ok (right_x l, tdraw).

(** [int((tick / target_fps) / 2)]. *)
Definition cycle_steps (tick : Z) (fps : float) : result Z :=
  tickf <- Float.of_int tick ;;
  secs <- Float.div tickf fps ;;
  two <- Float.of_int 2 ;;
  half <- Float.div secs two ;;
  Float.to_int half.

(** The text of the lyric line of a frame, before it is scrolled:
    timed lyrics, else plain lines in turn, else the artists. *)
Definition frame_lyric (lrc : list LyricLine) (plain_lines : option (list str))
  (artists_joined : str) (t_sec : float) (tick : Z) : result str :=
  if truthy lrc then line_now lrc artists_joined t_sec
  else
    match plain_lines with
    | Some pl =>
        if truthy pl then
          k <- cycle_steps tick target_fps ;;
          which <- py_mod k (Z.of_nat (length pl)) ;;
          py_index pl which
        else Ok artists_joined
    | None => Ok artists_joined
    end.

(** The lyric line as it is drawn. *)
Definition lyric_draw (l : Layout) (lrc : list LyricLine)
  (plain_lines : option (list str)) (artists_joined : str) (t_sec : float)
  (tick : Z) : result (Z * str) :=
  cur <- frame_lyric lrc plain_lines artists_joined t_sec tick ;;
  l1 <- marquee_slice_tick_int cur (max_lyric_chars l) tick (lyric_cps l)
          (gap_chars l) target_fps ;;
  Ok (right_x l, l1).

(** At [tick], the plain line in turn is the exact [floor(tick / 60)]. *)
Definition cycle_exact (tick : Z) : bool :=
  match cycle_steps tick target_fps with
  | Ok k => k =? tick / 60
  | Raise _ => false
  end.

(** The environment that sets no variable, and the layout that [main]
    computes in it for a 64x32 matrix with the fonts 6x10 and 4x6. *)
Definition no_env : environ := fun _ => None.

Definition default_layout : Layout :=
  {| album := 28; right_x := 30; right_w := 34; title_cps := 3;
     lyric_cps := 6; gap_chars := 3; poll_ms := 900; title_gap := 3;
     title_base := 12; lrc_offset := S754_zero false;
     max_title_chars := 5; max_lyric_chars := 8; lyric_base := 29 |}.

(** ** The fetcher *)

(** [range(n)]. *)
Definition py_range (n : Z) : list Z := map Z.of_nat (seq 0 (Z.to_nat n)).

Section AlbumArt.
Context {Img : Type}.

(** What [fetch_album_image] does besides returning. *)
Inductive FetchEffect : Type :=
| HttpGet (i : Z)
| PrintFailure
| Sleep.

(** The loop [for i in ...] of [fetch_album_image]: [download i] is
    the image that the [i]-th download and its decoding give, or
    nothing when they raise. *)
Fixpoint fetch_attempts (download : Z -> option Img) (tries : list Z)
  : option Img * list FetchEffect :=
  match tries with
  | [] => (None, [])
  | i :: rest =>
      match download i with
      | Some img => (Some img, [HttpGet i])
      | None =>
          let (r, effects) := fetch_attempts download rest in
          (r, HttpGet i :: (if i =? 1 then [PrintFailure] else [])
                ++ Sleep :: effects)
      end
  end.

Definition fetch_album_image (download : Z -> option Img) (url : str)
  : option Img * list FetchEffect :=
  if negb (truthy url) then (None, [])
  else fetch_attempts download (py_range 2).

(** The number of downloads among the effects. *)
Definition downloads (effects : list FetchEffect) : nat :=
  length (filter (fun e => match e with HttpGet _ => true | _ => false end)
            effects).
End AlbumArt.

(** An image as [blit_pillow] reads it: its size and its pixels. *)
Record Pixels : Type := mkPixels {
  size : Z * Z;
  load : Z -> Z -> Z * Z * Z }.

Inductive CanvasCall : Type :=
| SetPixel (x y r g b : Z).

(** The calls that [blit_pillow] makes on the canvas, in order. *)
Definition blit_pillow (img : Pixels) (x0 y0 : Z) : list CanvasCall :=
  let '(w, h) := size img in
  flat_map
    (fun y =>
       map (fun x =>
              let '(r, g, b) := load img x y in
              SetPixel (x0 + x) (y0 + y) r g b)
         (py_range w))
    (py_range h).

Definition call_xy (c : CanvasCall) : Z * Z :=
  match c with SetPixel x y _ _ _ => (x, y) end.

(** [sep.join(l)]. *)
Fixpoint join (sep : str) (l : list str) : str :=
  match l with
  | [] => []
  | [x] => x
  | x :: rest => x ++ sep ++ join sep rest
  end.

Module TrackAssets.
Record t (Img : Type) : Type := mk {
  album_img : option Img;
  lrc : list LyricLine;
  plain_lines : option (list str);
  title : str;
  artists : str;
  tid : str }.
Arguments mk {Img}.
Arguments album_img {Img}.
Arguments lrc {Img}.
Arguments plain_lines {Img}.
Arguments title {Img}.
Arguments artists {Img}.
Arguments tid {Img}.
End TrackAssets.

(** The assets that one turn of [Fetcher.run] builds for the track
    [it], with the effects of the image download; [reply] is the
    outcome of the lyrics request. *)
Definition fetcher_assets {Img : Type} (sorter : ListSort) (album_side : Z)
  (download : str -> Z -> option Img) (reply : HttpOutcome) (it : Item)
  : result (TrackAssets.t Img * list FetchEffect) :=
  let tid := or_empty (id it) in
  let title := name it in
  let artists_joined := join (of_string ", ") (artists it) in
  aurl <- album_url album_side (images it) ;;
  let (album_img, effects) :=
    match aurl with
    | Some u => if truthy u then fetch_album_image (download u) u else (None, [])
    | None => (None, [])
    end in
  let (lrc, plain) := fetch_lyrics sorter reply in
  Ok (TrackAssets.mk album_img lrc (plain_lines_of plain) title artists_joined
        tid, effects).

(** ** The colour argument of the text scroller (mytext.py) *)

(** [int(s, 16)]: as [int(s)], with the digits of base 16 and an
    optional [0x] before them. *)
Definition is_hex_digit (c : ascii) : bool :=
  is_digit c
  || ((97 <=? code c) && (code c <=? 102))
  || ((65 <=? code c) && (code c <=? 70)).

Definition hex_digit_value (c : ascii) : Z :=
  if is_digit c then code c - 48
  else if 97 <=? code c then code c - 87
  else code c - 55.

Definition hex_value (ds : list ascii) : Z :=
  fold_left (fun acc c => 16 * acc + hex_digit_value c) ds 0.

(** Hexadecimal digits with single underscores between them. *)
Fixpoint hex_digits_us (s : str) : option (list ascii) :=
  match s with
  | c :: r =>
      if is_hex_digit c then
        match r with
        | [] => Some [c]
        | c' :: r' =>
            if Ascii.eqb c' "_"%char
            then option_map (cons c) (hex_digits_us r')
            else option_map (cons c) (hex_digits_us r)
        end
      else None
  | [] => None
  end.

(** The prefix [0x] or [0X], and the one underscore allowed after it. *)
Definition drop_base_prefix (s : str) : str :=
  match s with
  | z :: x :: r =>
      if Ascii.eqb z "0"%char
         && (Ascii.eqb x "x"%char || Ascii.eqb x "X"%char)
      then match r with
           | u :: r' => if Ascii.eqb u "_"%char then r' else r
           | [] => r
           end
      else s
  | _ => s
  end.

Definition py_int16 (s : str) : result Z :=
  let (neg, r) := split_sign (c_strip (map to_ascii_space s)) in
  match hex_digits_us (drop_base_prefix r) with
  | Some ds => Ok (cond_Zopp neg (hex_value ds))
  | None => Raise ValueError
  end.

(** The regular expressions of [parse_color]: character classes,
    [r?], [class{lo,hi}], sequences, and [$]. *)
Inductive regex : Type :=
| Chr (p : ascii -> bool)
| Opt (r : regex)
| Rep (p : ascii -> bool) (lo hi : nat)
| Seq (r1 r2 : regex)
| Eos.

(** The rests of [s] after [lo] to [hi] characters of the class [p]. *)
Fixpoint rep (p : ascii -> bool) (lo hi : nat) (s : str) : list str :=
  (if Nat.eqb lo 0 then [s] else [])
  ++ match hi, s with
     | S hi', c :: s' => if p c then rep p (pred lo) hi' s' else []
     | _, _ => []
     end.

(** The rests of [s] after each way of matching [r] at its start;
    [$] holds at the end of the text and before the newline that
    ends it. *)
Fixpoint matches (r : regex) (s : str) : list str :=
  match r with
  | Chr p =>
      match s with
      | c :: s' => if p c then [s'] else []
      | [] => []
      end
  | Opt r' => matches r' s ++ [s]
  | Rep p lo hi => rep p lo hi s
  | Seq r1 r2 => flat_map (matches r2) (matches r1 s)
  | Eos =>
      match s with
      | [] => [s]
      | [c] => if code c =? 10 then [s] else []
      | _ => []
      end
  end.

(** [re.match(r, s)] as a truth value; the [^] that opens both
    patterns holds where [re.match] starts. *)
Definition re_match (r : regex) (s : str) : bool := truthy (matches r s).

(** [^#?[0-9a-fA-F]{6}$]. *)
Definition hex_color_re : regex :=
  Seq (Opt (Chr (Ascii.eqb "#"%char))) (Seq (Rep is_hex_digit 6 6) Eos).

(** [^\d{1,3},\d{1,3},\d{1,3}$]. *)
Definition rgb_color_re : regex :=
  Seq (Rep is_digit 1 3)
    (Seq (Chr (Ascii.eqb ","%char))
       (Seq (Rep is_digit 1 3)
          (Seq (Chr (Ascii.eqb ","%char))
             (Seq (Rep is_digit 1 3) Eos)))).

(** [s.lstrip(c)] for one character [c]. *)
Fixpoint lstrip_char (c : ascii) (s : str) : str :=
  match s with
  | d :: s' => if Ascii.eqb d c then lstrip_char c s' else s
  | [] => []
  end.

(** A colour of the matrix library: three components of eight bits. *)
Record Color : Type := mkColor { red : Z; green : Z; blue : Z }.

(** [graphics.Color(r, g, b)]: the binding of the matrix library takes
    each component as a [uint8_t], and the call raises [OverflowError]
    on an integer below 0 or above 255. *)
Definition graphics_Color (r g b : Z) : result Color :=
  if (0 <=? r) && (r <=? 255) && (0 <=? g) && (g <=? 255)
     && (0 <=? b) && (b <=? 255)
  then Ok (mkColor r g b)
  else Raise OverflowError.

(** What a conversion function of [argparse] does: it returns, it
    refuses the text with [ArgumentTypeError], or another exception
    escapes. *)
Inductive converted (A : Type) : Type :=
| Accepted (a : A)
| ArgumentTypeError
| Escaped (e : exn).

Arguments Accepted {A} a.
Arguments ArgumentTypeError {A}.
Arguments Escaped {A} e.

Definition of_result {A : Type} (r : result A) : converted A :=
  match r with
  | Ok a => Accepted a
  | Raise e => Escaped e
  end.

Definition parse_color (s : str) : converted Color :=
  if re_match hex_color_re s then
    let s := lstrip_char "#"%char s in
    of_result
      (r <- py_int16 (py_slice s 0 2) ;;
       g <- py_int16 (py_slice s 2 4) ;;
       b <- py_int16 (py_slice s 4 6) ;;
       graphics_Color r g b)
  else if re_match rgb_color_re s then
    of_result
      match split ","%char s with
      | [rs; gs; bs] =>
          r <- py_int rs ;;
          g <- py_int gs ;;
          b <- py_int bs ;;
          graphics_Color r g b
      | _ => Raise ValueError
      end
  else ArgumentTypeError.

(** [max(0, min(100, args.brightness))]. *)
Definition brightness (b : Z) : Z := Z.max 0 (Z.min 100 b).

(** Every character. *)
Definition all_chars : list ascii := map ascii_of_nat (seq 0 256).

(** The two digits of a byte in base 16, in small or capital letters. *)
Definition hex_char (capital : bool) (d : Z) : ascii :=
  if d <? 10 then ascii_of_N (Z.to_N (48 + d))
  else ascii_of_N (Z.to_N ((if capital then 55 else 87) + d)).

Definition hex2 (capital : bool) (n : Z) : str :=
  [hex_char capital (n / 16); hex_char capital (n mod 16)].

(** [int(s, 16)] on two hexadecimal digits is their value, below 256. *)
Definition hex_pair_ok (a b : ascii) : bool :=
  implb (is_hex_digit a && is_hex_digit b)
    match py_int16 [a; b] with
    | Ok v =>
        (v =? 16 * hex_digit_value a + hex_digit_value b)
        && (0 <=? v) && (v <=? 255)
    | Raise _ => false
    end.

(** [hex2] writes a byte as two hexadecimal digits of that value. *)
Definition hex2_ok (n : Z) : bool :=
  forallb
    (fun capital =>
       forallb is_hex_digit (hex2 capital n)
       && match py_int16 (hex2 capital n) with
          | Ok v => v =? n
          | Raise _ => false
          end)
    [false; true].

(** [max(a, b)] on floats: the second argument where it is greater. *)
Definition py_max (a b : float) : float := if Float.ltb a b then b else a.

(** [min_dt = 1.0 / max(1.0, args.fps)]. *)
Definition min_dt (fps : float) : result float :=
  Float.div (float_lit 1) (py_max (float_lit 1) fps).

(** [px_per_frame = max(1.0, args.speed * min_dt)]. *)
Definition px_per_frame (speed fps : float) : result float :=
  dt <- min_dt fps ;;
  Ok (py_max (float_lit 1) (Float.mul speed dt)).

(** * Properties *)

(** *** Order facts on floats *)

Lemma compare_cont_Eq (m n : positive) : Pos.compare_cont Eq m n = (m ?= n)%positive.
Proof. reflexivity. Qed.

Ltac float_order :=
  repeat match goal with
  | |- context [Pos.compare_cont Eq ?a ?b] => rewrite (compare_cont_Eq a b)
  | H : context [Pos.compare_cont Eq ?a ?b] |- _ => rewrite (compare_cont_Eq a b) in H
  end;
  repeat match goal with
  | |- context [(?a ?= ?b)%positive] => destruct (Pos.compare_spec a b)
  | H : context [(?a ?= ?b)%positive] |- _ => destruct (Pos.compare_spec a b)
  | |- context [?a ?= ?b] => destruct (Z.compare_spec a b)
  | H : context [?a ?= ?b] |- _ => destruct (Z.compare_spec a b)
  end;
  simpl in *; subst; try reflexivity; try discriminate; try lia.

Lemma leb_trans (a b c : float) :
  Float.leb a b = true -> Float.leb b c = true -> Float.leb a c = true.
Proof.
  unfold Float.leb, SFleb, SFcompare.
  destruct a as [[]|[]| |[] ma ea], b as [[]|[]| |[] mb eb], c as [[]|[]| |[] mc ec];
    simpl; try reflexivity; try discriminate; intros Hab Hbc; float_order.
Qed.

Lemma ltb_not_leb (a b : float) :
  Float.ltb a b = true -> Float.leb b a = false.
Proof.
  unfold Float.ltb, Float.leb, SFltb, SFleb, SFcompare.
  destruct a as [[]|[]| |[] ma ea], b as [[]|[]| |[] mb eb];
    simpl; try reflexivity; try discriminate; intros Hab; float_order.
Qed.

Lemma not_ltb_leb (a b : float) :
  Float.is_nan a = false -> Float.is_nan b = false ->
  Float.ltb b a = false -> Float.leb a b = true.
Proof.
  unfold Float.ltb, Float.leb, SFltb, SFleb, SFcompare.
  destruct a as [[]|[]| |[] ma ea], b as [[]|[]| |[] mb eb];
    simpl; try reflexivity; try discriminate; intros _ _ Hab; float_order.
Qed.

Lemma ltb_leb (a b : float) : Float.ltb a b = true -> Float.leb a b = true.
Proof.
  unfold Float.ltb, Float.leb, SFltb, SFleb.
  destruct (SFcompare a b) as [[]|]; try discriminate; reflexivity.
Qed.

(** *** Indexing *)

Lemma py_index_in_range {A : Type} (l : list A) (i : Z) :
  0 <= i < Z.of_nat (length l) ->
  exists x, py_index l i = Ok x /\ nth_error l (Z.to_nat i) = Some x.
Proof.
  intros Hi. unfold py_index.
  replace (i <? 0) with false by (symmetry; apply Z.ltb_ge; lia).
  replace ((0 <=? i) && (i <? Z.of_nat (length l))) with true
    by (symmetry; apply andb_true_iff; split;
        [apply Z.leb_le | apply Z.ltb_lt]; lia).
  destruct (nth_error l (Z.to_nat i)) as [x|] eqn:Hnth.
  - exists x. split; reflexivity.
  - apply nth_error_None in Hnth. lia.
Qed.

Lemma strongly_sorted_nth {A : Type} (R : A -> A -> Prop) (l : list A) :
  StronglySorted R l ->
  forall i j x y, (i < j)%nat ->
    nth_error l i = Some x -> nth_error l j = Some y -> R x y.
Proof.
  induction 1 as [|a l Hl IH Hall]; intros i j x y Hij Hi Hj.
  - destruct i; discriminate.
  - destruct j as [|j]; [lia|]. simpl in Hj.
    destruct i as [|i]; simpl in Hi.
    + inversion Hi; subst. rewrite Forall_forall in Hall.
      apply Hall. eapply nth_error_In; eassumption.
    + apply (IH i j); [lia | assumption | assumption].
Qed.

(** *** The lyric lookup *)

Lemma time_le_trans : Relations_1.Transitive time_le.
Proof. intros a b c. unfold time_le. apply leb_trans. Qed.

Lemma search_loop_eq lrc q lo hi ans :
  search_loop lrc q lo hi ans =
  if lo <=? hi then
    let mid := (lo + hi) / 2 in
    match py_index lrc mid with
    | Raise e => Raise e
    | Ok line =>
        if Float.leb (t line) q
        then search_loop lrc q (mid + 1) hi mid
        else search_loop lrc q lo (mid - 1) ans
    end
  else Ok ans.
Proof.
  simp search_loop.
  destruct (Logic.inspect (lo <=? hi)) as [[] H];
    simp search_loop; rewrite H; reflexivity.
Qed.

Lemma mid_bounds lo hi : lo <= hi -> lo <= (lo + hi) / 2 <= hi.
Proof.
  intros H. split;
    [apply Z.div_le_lower_bound | apply Z.div_le_upper_bound]; lia.
Qed.

(** The loop stays inside the list and its answer inside the range,
    whatever the timestamps are. *)
Lemma search_loop_range lrc q (k : nat) : forall lo hi ans,
  (Z.to_nat (hi - lo + 1) <= k)%nat ->
  0 <= lo -> hi < Z.of_nat (length lrc) ->
  -1 <= ans < Z.of_nat (length lrc) ->
  exists idx, search_loop lrc q lo hi ans = Ok idx
              /\ -1 <= idx < Z.of_nat (length lrc).
Proof.
  induction k as [|k IH]; intros lo hi ans Hk Hlo Hhi Hans;
    rewrite search_loop_eq; destruct (lo <=? hi) eqn:Hle;
    try (exists ans; split; [reflexivity | lia]).
  - apply Z.leb_le in Hle. lia.
  - apply Z.leb_le in Hle. pose proof (mid_bounds lo hi Hle) as Hmid.
    cbv zeta.
    destruct (py_index_in_range lrc ((lo + hi) / 2)) as [line [-> _]]; [lia|].
    destruct (Float.leb (t line) q); apply IH; lia.
Qed.

(** On a sorted timeline the loop keeps every index below [lo] at or
    before the query and every index above [hi] after it. *)
Lemma search_loop_sorted lrc q (k : nat) :
  StronglySorted time_le lrc ->
  forall lo hi ans,
  (Z.to_nat (hi - lo + 1) <= k)%nat ->
  0 <= lo -> hi < Z.of_nat (length lrc) -> lo <= hi + 1 -> ans = lo - 1 ->
  (forall i line, Z.of_nat i < lo ->
     nth_error lrc i = Some line -> Float.leb (t line) q = true) ->
  (forall i line, hi < Z.of_nat i ->
     nth_error lrc i = Some line -> Float.leb (t line) q = false) ->
  exists idx, search_loop lrc q lo hi ans = Ok idx
    /\ -1 <= idx < Z.of_nat (length lrc)
    /\ (forall i line, Z.of_nat i <= idx ->
          nth_error lrc i = Some line -> Float.leb (t line) q = true)
    /\ (forall i line, idx < Z.of_nat i ->
          nth_error lrc i = Some line -> Float.leb (t line) q = false).
Proof.
  intros Hsorted. induction k as [|k IH]; intros lo hi ans Hk Hlo Hhi Hlh Hans Hbelow Habove;
    rewrite search_loop_eq; destruct (lo <=? hi) eqn:Hle.
  - apply Z.leb_le in Hle. lia.
  - apply Z.leb_gt in Hle. exists ans. split; [reflexivity|].
    split; [lia|]. split; intros i line Hi; [apply Hbelow | apply Habove]; lia.
  - apply Z.leb_le in Hle. pose proof (mid_bounds lo hi Hle) as Hmid.
    cbv zeta.
    destruct (py_index_in_range lrc ((lo + hi) / 2)) as [line [-> Hline]]; [lia|].
    destruct (Float.leb (t line) q) eqn:Hcmp.
    + apply IH; try lia.
      * intros i line' Hi Hnth.
        destruct (Z.eq_dec (Z.of_nat i) ((lo + hi) / 2)) as [Heq|Hne].
        -- rewrite <- Heq, Nat2Z.id in Hline. congruence.
        -- apply leb_trans with (b := t line); [|assumption].
           apply (strongly_sorted_nth time_le lrc Hsorted i (Z.to_nat ((lo + hi) / 2)));
             [lia | assumption | assumption].
      * assumption.
    + apply IH; try lia.
      * assumption.
      * intros i line' Hi Hnth.
        destruct (Z.eq_dec (Z.of_nat i) ((lo + hi) / 2)) as [Heq|Hne].
        -- rewrite <- Heq, Nat2Z.id in Hline. congruence.
        -- destruct (Float.leb (t line') q) eqn:Hcmp'; [|reflexivity].
           rewrite <- Hcmp. symmetry.
           apply leb_trans with (b := t line'); [|assumption].
           apply (strongly_sorted_nth time_le lrc Hsorted (Z.to_nat ((lo + hi) / 2)) i);
             [lia | assumption | assumption].
  - apply Z.leb_gt in Hle. exists ans. split; [reflexivity|].
    split; [lia|]. split; intros i line Hi; [apply Hbelow | apply Habove]; lia.
Qed.

Lemma current_line_index_sorted lrc q :
  timeline lrc ->
  exists idx, current_line_index lrc q = Ok idx
    /\ -1 <= idx < Z.of_nat (length lrc)
    /\ (forall i line, Z.of_nat i <= idx ->
          nth_error lrc i = Some line -> Float.leb (t line) q = true)
    /\ (forall i line, idx < Z.of_nat i ->
          nth_error lrc i = Some line -> Float.leb (t line) q = false).
Proof.
  intros Hsorted. unfold current_line_index.
  destruct lrc as [|line0 rest] eqn:Hlrc.
  - exists (-1). simpl. split; [reflexivity|]. split; [lia|].
    split; intros [|i] line Hi Hnth; try discriminate; lia.
  - rewrite <- Hlrc in *. replace (negb (truthy lrc)) with false by (subst; reflexivity).
    apply (search_loop_sorted lrc q (length lrc)).
    + apply Sorted_StronglySorted; [exact time_le_trans | exact Hsorted].
    + lia.
    + lia.
    + lia.
    + subst lrc. simpl length. lia.
    + reflexivity.
    + intros i line Hi. lia.
    + intros i line Hi Hnth.
      assert (nth_error lrc i <> None) as Hsome by congruence.
      apply nth_error_Some in Hsome. lia.
Qed.

(** C1. On a timeline sorted by timestamp, [current_line_index] returns
    the greatest index whose timestamp is at or before the query time,
    and [-1] when there is none: so for the empty timeline, and for a
    query time strictly before the first timestamp. *)
Theorem current_line_index_greatest (lrc : list LyricLine) (q : float) :
  timeline lrc ->
  (exists idx, current_line_index lrc q = Ok idx
               /\ last_at_or_before lrc q idx)
  /\ current_line_index [] q = Ok (-1)
  /\ (forall first rest, lrc = first :: rest ->
        Float.ltb q (t first) = true ->
        current_line_index lrc q = Ok (-1)).
Proof.
  intros Hsorted.
  destruct (current_line_index_sorted lrc q Hsorted)
    as [idx [Hrun [Hrange [Hbelow Habove]]]].
  split; [|split].
  - exists idx. split; [exact Hrun|].
    destruct (Z.eq_dec idx (-1)) as [Hnone|Hsome].
    + left. split; [exact Hnone|].
      intros i line Hnth. apply (Habove i line); [lia | exact Hnth].
    + right. split; [lia|]. split; [|exact Habove].
      destruct (nth_error lrc (Z.to_nat idx)) as [line|] eqn:Hnth.
      * exists line. split; [reflexivity|].
        apply (Hbelow (Z.to_nat idx) line); [lia | exact Hnth].
      * apply nth_error_None in Hnth. lia.
  - reflexivity.
  - intros first rest Hlrc Hbefore. rewrite Hrun. f_equal.
    destruct (Z_le_gt_dec 0 idx) as [Hpos|Hneg]; [|lia].
    exfalso.
    assert (Float.leb (t first) q = true) as Hfirst
      by (apply (Hbelow 0%nat first); [lia | subst lrc; reflexivity]).
    apply ltb_not_leb in Hbefore. congruence.
Qed.

Lemma current_line_index_greatest_witness :
  timeline scenario_timeline
  /\ ((exists idx,
         current_line_index scenario_timeline (Float.of_decimal false 45 (-1))
         = Ok idx
         /\ last_at_or_before scenario_timeline
              (Float.of_decimal false 45 (-1)) idx)
      /\ current_line_index [] (Float.of_decimal false 45 (-1)) = Ok (-1)
      /\ (forall first rest, scenario_timeline = first :: rest ->
            Float.ltb (Float.of_decimal false 45 (-1)) (t first) = true ->
            current_line_index scenario_timeline
              (Float.of_decimal false 45 (-1)) = Ok (-1))).
Proof.
  assert (timeline scenario_timeline) as Hsorted
    by (repeat constructor).
  split; [exact Hsorted|].
  apply (current_line_index_greatest scenario_timeline
           (Float.of_decimal false 45 (-1)) Hsorted).
Defined.

(** C10. For any list of lines, sorted or not, and any query time,
    [current_line_index] returns, and its result lies between [-1] and
    [len(lrc) - 1]; so the access [lrc[idx]] that the render loop makes
    when [idx >= 0] is in bounds, and the loop gets its lyric line. *)
Theorem current_line_index_in_range (lrc : list LyricLine) (q : float) :
  exists idx,
    current_line_index lrc q = Ok idx
    /\ -1 <= idx <= Z.of_nat (length lrc) - 1
    /\ (0 <= idx -> exists line, py_index lrc idx = Ok line)
    /\ forall artists_joined, exists s, line_now lrc artists_joined q = Ok s.
Proof.
  assert (exists idx, current_line_index lrc q = Ok idx
                      /\ -1 <= idx < Z.of_nat (length lrc)) as [idx [Hrun Hrange]].
  { unfold current_line_index. destruct lrc as [|line0 rest] eqn:Hlrc.
    - exists (-1). simpl. split; [reflexivity | lia].
    - rewrite <- Hlrc. replace (negb (truthy lrc)) with false by (subst; reflexivity).
      apply (search_loop_range lrc q (length lrc)); subst lrc; simpl length; lia. }
  exists idx. split; [exact Hrun|]. split; [lia|].
  assert (0 <= idx -> exists line, py_index lrc idx = Ok line) as Haccess.
  { intros Hpos. destruct (py_index_in_range lrc idx) as [line [Hline _]]; [lia|].
    exists line. exact Hline. }
  split; [exact Haccess|].
  intros artists_joined. unfold line_now. rewrite Hrun. simpl.
  destruct (0 <=? idx) eqn:Hsign.
  - apply Z.leb_le in Hsign. destruct (Haccess Hsign) as [line ->].
    exists (text line). reflexivity.
  - exists artists_joined. reflexivity.
Qed.

(** *** Publishing on a queue *)

Section QueueFacts.
Context {A : Type}.
Implicit Types (q : Queue A) (v : A).

Lemma drain_eq q :
  drain q =
  match get_nowait q with
  | (Ok _, q') => drain q'
  | (Raise QueueEmpty, q') => (Ok tt, q')
  | (Raise e, q') => (Raise e, q')
  end.
Proof.
  rewrite drain_equation_1.
  destruct (Logic.inspect (get_nowait q)) as [[[x|e] q'] H];
    [rewrite drain_clause_1_equation_1 | destruct e; simp drain];
    rewrite H; reflexivity.
Qed.

(** The drain loop ends, on the empty queue of the same bound. *)
Lemma drain_empties q : drain q = (Ok tt, mkQueue (maxsize q) []).
Proof.
  destruct q as [bound l]. simpl. induction l as [|x l IH].
  - rewrite drain_eq. reflexivity.
  - rewrite drain_eq. simpl. exact IH.
Qed.

Lemma put_nowait_empty v bound :
  put_nowait v (mkQueue bound []) = (Ok tt, mkQueue bound [v]).
Proof.
  unfold put_nowait. simpl.
  replace ((0 <? bound) && (bound <=? 0)) with false; [reflexivity|].
  symmetry. apply andb_false_iff.
  destruct (Z.ltb_spec 0 bound); [right; apply Z.leb_gt; lia | left; reflexivity].
Qed.

Lemma poller_publish_eq v q : poller_publish v q = mkQueue (maxsize q) [v].
Proof.
  unfold poller_publish. rewrite drain_empties, put_nowait_empty. reflexivity.
Qed.

Lemma fetcher_publish_eq v q :
  fetcher_publish v q = (Ok tt, mkQueue (maxsize q) [v]).
Proof.
  unfold fetcher_publish. rewrite drain_empties, put_nowait_empty. reflexivity.
Qed.

(** C4. Publishing is latest-value on the snapshot queue (the
    publishing of the poller) and on the assets queue (that of the
    fetcher): from any state of the queue, two publishes with no pull
    between them leave exactly the second value pending, one pull
    returns it and the next finds the queue empty; and after any
    publish exactly one value is pending. *)
Theorem publish_latest_value q v1 v2 :
  (let q2 := poller_publish v2 (poller_publish v1 q) in
   items q2 = [v2]
   /\ fst (get_nowait q2) = Ok v2
   /\ fst (get_nowait (snd (get_nowait q2))) = Raise QueueEmpty)
  /\ (let q2 := snd (fetcher_publish v2 (snd (fetcher_publish v1 q))) in
      fst (fetcher_publish v1 q) = Ok tt
      /\ fst (fetcher_publish v2 (snd (fetcher_publish v1 q))) = Ok tt
      /\ items q2 = [v2]
      /\ fst (get_nowait q2) = Ok v2
      /\ fst (get_nowait (snd (get_nowait q2))) = Raise QueueEmpty)
  /\ length (items (poller_publish v1 q)) = 1%nat
  /\ length (items (snd (fetcher_publish v1 q))) = 1%nat.
Proof.
  rewrite !poller_publish_eq, !fetcher_publish_eq. cbn.
  repeat split; reflexivity.
Qed.
End QueueFacts.

(** *** The track-change step *)

Lemma str_eqb_eq (a b : str) : str_eqb a b = true <-> a = b.
Proof.
  unfold str_eqb. destruct (list_eq_dec ascii_dec a b); split;
    intros H; try assumption; try reflexivity; try discriminate; contradiction.
Qed.

Lemma tid_eqb_eq (a b : option str) : tid_eqb a b = true <-> a = b.
Proof.
  destruct a as [x|], b as [y|]; simpl; try rewrite str_eqb_eq;
    split; intros H; try congruence; try discriminate.
Qed.

Lemma track_changed_iff snap st :
  track_changed snap st = true <->
  str_truthy (snapshot_tid snap) = true
  /\ snapshot_tid snap <> last_seen_tid st.
Proof.
  unfold track_changed. rewrite andb_true_iff, negb_true_iff.
  split; intros [Htid Hne]; split; try assumption.
  - intros Heq. apply tid_eqb_eq in Heq. congruence.
  - destruct (tid_eqb (snapshot_tid snap) (last_seen_tid st)) eqn:Heq;
      [|reflexivity].
    apply tid_eqb_eq in Heq. contradiction.
Qed.

Lemma track_change_step_eq snap st :
  track_change_step snap st =
  match item snap with
  | Some it =>
      if track_changed snap st
      then (Ok true, mkCoordinator (id it) (mkQueue (maxsize (req_q st)) [it]))
      else (Ok false, st)
  | None => (Ok false, st)
  end.
Proof.
  unfold track_change_step. destruct (item snap) as [it|]; [|reflexivity].
  destruct (track_changed snap st); [|reflexivity].
  rewrite drain_empties, put_nowait_empty. reflexivity.
Qed.

Lemma track_changed_no_item snap st :
  item snap = None -> track_changed snap st = false.
Proof.
  intros Hnone. unfold track_changed, snapshot_tid. rewrite Hnone. reflexivity.
Qed.

Lemma track_step_new snap st c :
  snapshot_tid snap = Some c -> truthy c = true ->
  last_seen_tid st <> Some c ->
  fst (track_change_step snap st) = Ok true
  /\ last_seen_tid (snd (track_change_step snap st)) = Some c.
Proof.
  intros Htid Hc Hne. rewrite track_change_step_eq.
  assert (track_changed snap st = true) as Hch.
  { apply track_changed_iff. rewrite Htid. split; [exact Hc | congruence]. }
  unfold snapshot_tid in Htid. destruct (item snap) as [it|]; [|discriminate].
  rewrite Hch. simpl. split; [reflexivity | exact Htid].
Qed.

Lemma track_step_same snap st c :
  snapshot_tid snap = Some c -> last_seen_tid st = Some c ->
  track_change_step snap st = (Ok false, st).
Proof.
  intros Htid Hseen. rewrite track_change_step_eq.
  assert (track_changed snap st = false) as Hch.
  { destruct (track_changed snap st) eqn:Hch; [|reflexivity].
    apply track_changed_iff in Hch. destruct Hch as [_ Hne]. congruence. }
  rewrite Hch. destruct (item snap); reflexivity.
Qed.

(** C5, as the code has it. A request is put on the queue exactly when
    the snapshot carries a non-empty track id that differs from the
    last-seen id; the last-seen id then becomes that id and the request
    is the only pending one, and otherwise the state is unchanged. For
    the snapshots (trackA, trackA, trackB), a loop that has already seen
    trackA issues one request, at trackB; the loop started afresh also
    issues the first request for trackA, and none at the second
    snapshot. *)
Theorem track_change_request (snap : PlaybackSnapshot) (st : Coordinator)
  (a b : str) (snapA snapA' snapB : PlaybackSnapshot) :
  snapshot_tid snapA = Some a -> snapshot_tid snapA' = Some a ->
  snapshot_tid snapB = Some b ->
  truthy a = true -> truthy b = true -> a <> b ->
  (fst (track_change_step snap st) = Ok true <->
   str_truthy (snapshot_tid snap) = true
   /\ snapshot_tid snap <> last_seen_tid st)
  /\ (fst (track_change_step snap st) = Ok true ->
      last_seen_tid (snd (track_change_step snap st)) = snapshot_tid snap
      /\ exists it, item snap = Some it
           /\ items (req_q (snd (track_change_step snap st))) = [it])
  /\ (fst (track_change_step snap st) <> Ok true ->
      track_change_step snap st = (Ok false, st))
  /\ (forall q,
        fst (run_track_changes [snapA; snapA'; snapB]
               (mkCoordinator (Some a) q))
        = [Ok false; Ok false; Ok true])
  /\ (forall q,
        fst (run_track_changes [snapA; snapA'; snapB]
               (mkCoordinator None q))
        = [Ok true; Ok false; Ok true]).
Proof.
  intros HA HA' HB Ha Hb Hab.
  assert (fst (track_change_step snap st) = Ok true
          <-> track_changed snap st = true) as Hflag.
  { rewrite track_change_step_eq. destruct (item snap) as [it|] eqn:Hit.
    - destruct (track_changed snap st); simpl; split; congruence.
    - rewrite (track_changed_no_item snap st Hit). simpl. split; congruence. }
  split; [|split; [|split; [|split]]].
  - rewrite Hflag. apply track_changed_iff.
  - intros Hreq. apply Hflag in Hreq. rewrite track_change_step_eq.
    unfold snapshot_tid. destruct (item snap) as [it|] eqn:Hit.
    + rewrite Hreq. simpl. split; [reflexivity|]. exists it. split; reflexivity.
    + rewrite (track_changed_no_item snap st Hit) in Hreq. discriminate.
  - intros Hreq. rewrite track_change_step_eq in *.
    destruct (item snap) as [it|]; [|reflexivity].
    destruct (track_changed snap st); [|reflexivity].
    simpl in Hreq. congruence.
  - intros q. simpl.
    rewrite (track_step_same snapA (mkCoordinator (Some a) q) a HA eq_refl).
    rewrite (track_step_same snapA' (mkCoordinator (Some a) q) a HA' eq_refl).
    destruct (track_step_new snapB (mkCoordinator (Some a) q) b HB Hb)
      as [Hflag3 _]; [simpl; congruence|].
    destruct (track_change_step snapB _) as [r3 st3]. simpl in *.
    rewrite Hflag3. reflexivity.
  - intros q. simpl.
    destruct (track_step_new snapA (mkCoordinator None q) a HA Ha)
      as [Hflag1 Hseen1]; [simpl; congruence|].
    destruct (track_change_step snapA _) as [r1 st1]. simpl in *.
    rewrite (track_step_same snapA' st1 a HA' Hseen1).
    destruct (track_step_new snapB st1 b HB Hb) as [Hflag3 _]; [congruence|].
    destruct (track_change_step snapB st1) as [r3 st3]. simpl in *.
    rewrite Hflag1, Hflag3. reflexivity.
Qed.

Lemma track_change_request_witness :
  let snap := nth 2 scenario_snapshots (initial_snapshot (float_lit 0)) in
  let snapA := nth 0 scenario_snapshots (initial_snapshot (float_lit 0)) in
  let snapA' := nth 1 scenario_snapshots (initial_snapshot (float_lit 0)) in
  (fst (track_change_step snap seen_trackA) = Ok true <->
   str_truthy (snapshot_tid snap) = true
   /\ snapshot_tid snap <> last_seen_tid seen_trackA)
  /\ (fst (track_change_step snap seen_trackA) = Ok true ->
      last_seen_tid (snd (track_change_step snap seen_trackA))
      = snapshot_tid snap
      /\ exists it, item snap = Some it
           /\ items (req_q (snd (track_change_step snap seen_trackA))) = [it])
  /\ (fst (track_change_step snap seen_trackA) <> Ok true ->
      track_change_step snap seen_trackA = (Ok false, seen_trackA))
  /\ (forall q,
        fst (run_track_changes [snapA; snapA'; snap]
               (mkCoordinator (Some (of_string "trackA")) q))
        = [Ok false; Ok false; Ok true])
  /\ (forall q,
        fst (run_track_changes [snapA; snapA'; snap]
               (mkCoordinator None q))
        = [Ok true; Ok false; Ok true]).
Proof.
  apply (track_change_request
           (nth 2 scenario_snapshots (initial_snapshot (float_lit 0)))
           seen_trackA (of_string "trackA") (of_string "trackB")
           (nth 0 scenario_snapshots (initial_snapshot (float_lit 0)))
           (nth 1 scenario_snapshots (initial_snapshot (float_lit 0)))
           (nth 2 scenario_snapshots (initial_snapshot (float_lit 0))));
    try reflexivity.
  discriminate.
Defined.

(** The claim as the specification words it fails: a snapshot with no
    track differs from the last-seen trackA, and no request is issued. *)
Lemma track_change_counterexample :
  snapshot_tid (poller_snapshot None (float_lit 6))
  <> last_seen_tid seen_trackA
  /\ track_change_step (poller_snapshot None (float_lit 6)) seen_trackA
     = (Ok false, seen_trackA).
Proof. split; [discriminate | reflexivity]. Qed.

(** *** The album image *)

Section MinByFacts.
Context {A : Type}.
Variable key : A -> result Z.

Lemma min_from_first_least (l : list A) : forall before best bk tied,
  (forall y, In y l -> exists ky, key y = Ok ky) ->
  key best = Ok bk ->
  (forall y ky, In y before -> key y = Ok ky -> bk < ky) ->
  (forall y ky, In y tied -> key y = Ok ky -> bk <= ky) ->
  exists r kr, min_from key best bk l = Ok r
               /\ first_least key (before ++ best :: tied ++ l) r kr.
Proof.
  induction l as [|x l IH]; intros before best bk tied Hkeys Hbest Hbefore Htied.
  - exists best, bk. split; [reflexivity|]. split; [exact Hbest|].
    exists before, (tied ++ []). split; [reflexivity|].
    split; [exact Hbefore|]. intros y ky Hy. rewrite app_nil_r in Hy.
    apply Htied. exact Hy.
  - destruct (Hkeys x (or_introl eq_refl)) as [kx Hkx].
    simpl. rewrite Hkx. simpl.
    assert (forall y, In y l -> exists ky, key y = Ok ky) as Hkeys'
      by (intros y Hy; apply Hkeys; right; exact Hy).
    destruct (kx <? bk) eqn:Hlt.
    + apply Z.ltb_lt in Hlt.
      destruct (IH (before ++ best :: tied) x kx [] Hkeys' Hkx)
        as [r [kr [Hrun Hfirst]]].
      * intros y ky Hy Hky. apply in_app_or in Hy. destruct Hy as [Hy|[Hy|Hy]].
        -- specialize (Hbefore y ky Hy Hky). lia.
        -- subst y. assert (ky = bk) by congruence. lia.
        -- specialize (Htied y ky Hy Hky). lia.
      * intros y ky [].
      * exists r, kr. split; [exact Hrun|].
        rewrite <- app_assoc in Hfirst. exact Hfirst.
    + apply Z.ltb_ge in Hlt.
      destruct (IH before best bk (tied ++ [x]) Hkeys' Hbest Hbefore)
        as [r [kr [Hrun Hfirst]]].
      * intros y ky Hy Hky. apply in_app_or in Hy. destruct Hy as [Hy|[Hy|[]]].
        -- apply (Htied y ky Hy Hky).
        -- subst y. assert (ky = kx) by congruence. lia.
      * exists r, kr. split; [exact Hrun|].
        rewrite <- app_assoc in Hfirst. exact Hfirst.
Qed.

Lemma py_min_first_least (l : list A) :
  l <> [] ->
  (forall y, In y l -> exists ky, key y = Ok ky) ->
  exists r kr, py_min key l = Ok r /\ first_least key l r kr.
Proof.
  destruct l as [|x l]; [congruence|]. intros _ Hkeys.
  destruct (Hkeys x (or_introl eq_refl)) as [kx Hkx].
  simpl. rewrite Hkx. simpl.
  apply (min_from_first_least l [] x kx []).
  - intros y Hy. apply Hkeys. right. exact Hy.
  - exact Hkx.
  - intros y ky [].
  - intros y ky [].
Qed.

Lemma first_least_least (l : list A) (x : A) (k : Z) :
  first_least key l x k ->
  In x l /\ forall y ky, In y l -> key y = Ok ky -> k <= ky.
Proof.
  intros [Hk [before [after [-> [Hbefore Hafter]]]]]. split.
  - apply in_or_app. right. left. reflexivity.
  - intros y ky Hy Hky. apply in_app_or in Hy. destruct Hy as [Hy|[Hy|Hy]].
    + specialize (Hbefore y ky Hy Hky). lia.
    + subst y. assert (ky = k) by congruence. lia.
    + apply (Hafter y ky Hy Hky).
Qed.
End MinByFacts.

(** C8, as the code has it. Among image variants that all carry a
    width, the fetcher takes the first one whose width is closest to
    [max(32, album_side)], the larger of 32 and the side the image is
    resized to; that is the album side itself once it is at least 32. *)
Theorem album_image_closest (album_side : Z) (imgs : list Image) :
  imgs <> [] ->
  (forall im, In im imgs -> exists w, width im = WInt w) ->
  exists best wb,
    album_image album_side imgs = Ok best
    /\ album_url album_side imgs = Ok (url best)
    /\ In best imgs
    /\ width best = WInt wb
    /\ (forall im w, In im imgs -> width im = WInt w ->
          Z.abs (wb - Z.max 32 album_side) <= Z.abs (w - Z.max 32 album_side))
    /\ first_least (width_distance (Z.max 32 album_side)) imgs best
         (Z.abs (wb - Z.max 32 album_side))
    /\ (32 <= album_side ->
        forall im w, In im imgs -> width im = WInt w ->
          Z.abs (wb - album_side) <= Z.abs (w - album_side)).
Proof.
  intros Hne Hwidths.
  assert (forall im w, width im = WInt w ->
            width_distance (Z.max 32 album_side) im
            = Ok (Z.abs (w - Z.max 32 album_side))) as Hdist.
  { intros im w Hw. unfold width_distance, image_width. rewrite Hw. reflexivity. }
  destruct (py_min_first_least (width_distance (Z.max 32 album_side)) imgs Hne)
    as [best [kb [Hrun Hfirst]]].
  { intros im Him. destruct (Hwidths im Him) as [w Hw].
    exists (Z.abs (w - Z.max 32 album_side)). apply Hdist. exact Hw. }
  destruct (first_least_least _ imgs best kb Hfirst) as [Hin Hleast].
  destruct (Hwidths best Hin) as [wb Hwb].
  assert (kb = Z.abs (wb - Z.max 32 album_side)) as Hkb.
  { destruct Hfirst as [Hkey _]. rewrite (Hdist best wb Hwb) in Hkey. congruence. }
  subst kb.
  assert (forall im w, In im imgs -> width im = WInt w ->
            Z.abs (wb - Z.max 32 album_side) <= Z.abs (w - Z.max 32 album_side))
    as Hclosest.
  { intros im w Him Hw. apply (Hleast im); [exact Him | apply Hdist; exact Hw]. }
  exists best, wb. unfold album_url, album_image.
  replace (truthy imgs) with true by (destruct imgs; [congruence | reflexivity]).
  cbv zeta. rewrite Hrun.
  split; [reflexivity|]. split; [reflexivity|]. split; [exact Hin|].
  split; [exact Hwb|]. split; [exact Hclosest|]. split; [exact Hfirst|].
  intros Hside im w Him Hw. specialize (Hclosest im w Him Hw).
  rewrite Z.max_r in Hclosest by lia. exact Hclosest.
Qed.

Lemma album_image_closest_witness :
  exists best wb,
    album_image 28 [image27; image36] = Ok best
    /\ album_url 28 [image27; image36] = Ok (url best)
    /\ In best [image27; image36]
    /\ width best = WInt wb
    /\ (forall im w, In im [image27; image36] -> width im = WInt w ->
          Z.abs (wb - Z.max 32 28) <= Z.abs (w - Z.max 32 28))
    /\ first_least (width_distance (Z.max 32 28)) [image27; image36] best
         (Z.abs (wb - Z.max 32 28))
    /\ (32 <= 28 ->
        forall im w, In im [image27; image36] -> width im = WInt w ->
          Z.abs (wb - 28) <= Z.abs (w - 28)).
Proof.
  apply (album_image_closest 28 [image27; image36]).
  - discriminate.
  - intros im [<-|[<-|[]]]; eexists; reflexivity.
Defined.

(** The claim as the specification words it fails below 32: for an
    album side of 28 the variant of width 36 is taken, and the one of
    width 27 is closer to 28. *)
Lemma album_image_counterexample :
  album_image 28 [image27; image36] = Ok image36
  /\ album_url 28 [image27; image36] = Ok (url image36)
  /\ Z.abs (27 - 28) < Z.abs (36 - 28).
Proof. repeat split. Qed.

(** *** The marquee *)

Lemma py_slice_window {A : Type} (l : list A) (a n : Z) :
  0 <= a -> 0 <= n -> a + n <= Z.of_nat (length l) ->
  py_slice l a (a + n) = window l a n.
Proof.
  intros Ha Hn Hlen. unfold py_slice, slice_bound, window.
  replace (a <? 0) with false by (symmetry; apply Z.ltb_ge; lia).
  replace (a + n <? 0) with false by (symmetry; apply Z.ltb_ge; lia).
  rewrite !Z.min_r, !Z.max_r by lia.
  replace (a + n - a) with n by lia. reflexivity.
Qed.

Lemma window_length {A : Type} (l : list A) (a n : Z) :
  0 <= a -> 0 <= n -> a + n <= Z.of_nat (length l) ->
  Z.of_nat (length (window l a n)) = n.
Proof.
  intros Ha Hn Hlen. unfold window. rewrite length_firstn, length_skipn. lia.
Qed.

Lemma window_nth {A : Type} (l : list A) (a n : Z) (i : nat) :
  0 <= a -> Z.of_nat i < n ->
  nth_error (window l a n) i = nth_error l (Z.to_nat a + i).
Proof.
  intros Ha Hi. unfold window. rewrite nth_error_firstn, nth_error_skipn.
  replace (i <? Z.to_nat n)%nat with true; [reflexivity|].
  symmetry. apply Nat.ltb_lt. lia.
Qed.

Lemma marquee_loop_length (text : str) (gap : Z) :
  0 <= gap ->
  Z.of_nat (length (marquee_loop text gap))
  = 2 * Z.of_nat (length text) + gap.
Proof.
  intros Hgap. unfold marquee_loop. rewrite !length_app, repeat_length. lia.
Qed.

(** The loop read at any position is the text and its gap read
    cyclically. *)
Lemma marquee_loop_cyclic (text : str) (gap : Z) (j : nat) :
  0 <= gap ->
  Z.of_nat j < 2 * Z.of_nat (length text) + gap ->
  nth_error (marquee_loop text gap) j
  = nth_error (text ++ repeat " "%char (Z.to_nat gap))
      (Z.to_nat (Z.of_nat j mod (Z.of_nat (length text) + gap))).
Proof.
  intros Hgap Hj. unfold marquee_loop. rewrite app_assoc.
  set (once := text ++ repeat " "%char (Z.to_nat gap)).
  assert (Z.of_nat (length once) = Z.of_nat (length text) + gap) as Honce
    by (unfold once; rewrite length_app, repeat_length; lia).
  rewrite <- Honce in *.
  destruct (Z_lt_ge_dec (Z.of_nat j) (Z.of_nat (length once))) as [Hlt|Hge].
  - rewrite Z.mod_small by lia. rewrite Nat2Z.id.
    apply nth_error_app1. lia.
  - rewrite nth_error_app2 by lia.
    replace (Z.of_nat j) with
      (Z.of_nat j - Z.of_nat (length once) + 1 * Z.of_nat (length once)) by lia.
    rewrite Z.mod_add by lia. rewrite Z.mod_small by lia.
    replace (Z.to_nat (Z.of_nat j - Z.of_nat (length once)))
      with (j - length once)%nat by lia.
    symmetry. apply nth_error_app1. unfold once in *.
    rewrite length_app in *. lia.
Qed.

Lemma marquee_slice_tick_scrolls (text : str) (max_chars tick : Z)
  (cps : float) (gap : Z) (fps : float) (steps : Z) :
  max_chars < Z.of_nat (length text) -> 0 <= max_chars -> 0 <= gap ->
  scroll_steps tick cps fps = Ok steps ->
  marquee_slice_tick text max_chars tick cps gap fps
  = Ok (window (marquee_loop text gap)
          (steps mod (Z.of_nat (length text) + gap)) max_chars).
Proof.
  intros Hlong Hmax Hgap Hsteps. unfold marquee_slice_tick.
  replace (Z.of_nat (length text) <=? max_chars) with false
    by (symmetry; apply Z.leb_gt; lia).
  rewrite Hsteps. simpl. unfold py_mod.
  replace (Z.of_nat (length text) + gap =? 0) with false
    by (symmetry; apply Z.eqb_neq; lia).
  simpl. f_equal.
  pose proof (Z.mod_pos_bound steps (Z.of_nat (length text) + gap)) as Hoff.
  apply py_slice_window; [lia | lia |].
  change (text ++ py_repeat " "%char gap ++ text) with (marquee_loop text gap).
  rewrite marquee_loop_length by lia. lia.
Qed.

Lemma all_from_spec (P : Z -> bool) (n : nat) : forall z k,
  all_from P z n = true -> z <= k < z + Z.of_nat n -> P k = true.
Proof.
  induction n as [|n IH]; intros z k Hall Hk; [lia|].
  simpl in Hall. apply andb_true_iff in Hall. destruct Hall as [Hz Hrest].
  destruct (Z.eq_dec k z) as [->|Hne]; [exact Hz|].
  apply (IH (z + 1)); [exact Hrest | lia].
Qed.

(** With the default rates at 30 frames per second, the rounding of
    the step count does not show during the first ten minutes. *)
Lemma default_steps_exact (c tick : Z) :
  default_cps c -> 0 <= tick < ten_minute_ticks ->
  scroll_steps tick (float_lit c) (float_lit 30) = Ok (tick * c / 30).
Proof.
  intros Hc Htick.
  assert (steps_exact c 30 tick = true) as Hexact.
  { destruct Hc as [->| ->].
    - apply (all_from_spec (steps_exact 3 30) (Z.to_nat ten_minute_ticks) 0);
        [vm_compute; reflexivity | unfold ten_minute_ticks in *; lia].
    - apply (all_from_spec (steps_exact 6 30) (Z.to_nat ten_minute_ticks) 0);
        [vm_compute; reflexivity | unfold ten_minute_ticks in *; lia]. }
  unfold steps_exact in Hexact.
  destruct (scroll_steps tick (float_lit c) (float_lit 30)) as [k|e];
    [|discriminate].
  apply Z.eqb_eq in Hexact. congruence.
Qed.

(** C2, as the code has it. A text that fits is returned unchanged.
    A longer text is laid out as text, gap, text, and the result is the
    window of [max_chars] characters that starts at the offset
    [int(tick * (cps / fps)) mod (len + gap)], the quotient and the
    product being those of double-precision arithmetic; the window is
    full, and reads the text and its gap cyclically. With the default
    rates at 30 frames per second and a tick of the first ten minutes,
    that offset is [floor(tick * cps / fps) mod (len + gap)]. *)
Theorem marquee_slice_window (text : str) (max_chars tick : Z) (cps : float)
  (gap : Z) (fps : float) :
  (Z.of_nat (length text) <= max_chars ->
   marquee_slice_tick text max_chars tick cps gap fps = Ok text)
  /\ (max_chars < Z.of_nat (length text) -> 0 <= max_chars -> 0 <= gap ->
      forall steps, scroll_steps tick cps fps = Ok steps ->
      let offset := steps mod (Z.of_nat (length text) + gap) in
      let shown := window (marquee_loop text gap) offset max_chars in
      marquee_slice_tick text max_chars tick cps gap fps = Ok shown
      /\ 0 <= offset < Z.of_nat (length text) + gap
      /\ Z.of_nat (length shown) = max_chars
      /\ forall i, Z.of_nat i < max_chars ->
           nth_error shown i
           = nth_error (text ++ repeat " "%char (Z.to_nat gap))
               (Z.to_nat ((offset + Z.of_nat i)
                          mod (Z.of_nat (length text) + gap))))
  /\ (max_chars_ok max_chars text gap ->
      0 <= tick < ten_minute_ticks ->
      forall c, default_cps c ->
      marquee_slice_tick text max_chars tick (float_lit c) gap (float_lit 30)
      = Ok (window (marquee_loop text gap)
              (spec_offset tick c 30 (Z.of_nat (length text)) gap)
              max_chars)).
Proof.
  split; [|split].
  - intros Hfits. unfold marquee_slice_tick.
    replace (Z.of_nat (length text) <=? max_chars) with true
      by (symmetry; apply Z.leb_le; lia).
    reflexivity.
  - intros Hlong Hmax Hgap steps Hsteps offset shown.
    assert (0 <= offset < Z.of_nat (length text) + gap) as Hoff
      by (apply Z.mod_pos_bound; lia).
    split; [exact (marquee_slice_tick_scrolls _ _ _ _ _ _ _ Hlong Hmax Hgap Hsteps)|].
    split; [exact Hoff|]. split.
    + apply window_length; [lia | lia |]. rewrite marquee_loop_length by lia. lia.
    + intros i Hi. unfold shown. rewrite window_nth by lia.
      rewrite marquee_loop_cyclic by lia. do 2 f_equal.
      replace (Z.of_nat (Z.to_nat offset + i)) with (offset + Z.of_nat i) by lia.
      reflexivity.
  - intros [Hlong [Hmax Hgap]] Htick c Hc.
    apply marquee_slice_tick_scrolls; try assumption.
    apply default_steps_exact; assumption.
Qed.

Lemma marquee_slice_window_witness :
  max_chars_ok 3 (of_string "abcdef") 1
  /\ scroll_steps 150 (float_lit 11) (float_lit 30) = Ok 54
  /\ marquee_slice_tick (of_string "abcdef") 3 150 (float_lit 11) 1
       (float_lit 30)
     = Ok (window (marquee_loop (of_string "abcdef") 1) (54 mod (6 + 1)) 3).
Proof.
  assert (max_chars_ok 3 (of_string "abcdef") 1) as Hok
    by (unfold max_chars_ok; simpl; lia).
  split; [exact Hok|]. split; [reflexivity|].
  destruct Hok as [Hlong [Hmax Hgap]].
  exact (proj1 (proj1 (proj2 (marquee_slice_window (of_string "abcdef") 3 150
                                (float_lit 11) 1 (float_lit 30)))
                  Hlong Hmax Hgap 54 eq_refl)).
Defined.

(** The offset of the specification is not the one of the code: at
    tick 150, 11 characters per second and 30 frames per second,
    [floor(150 * 11 / 30)] is 55, and the double-precision product
    [150 * (11 / 30)] truncates to 54. *)
Lemma marquee_offset_counterexample :
  marquee_slice_tick (of_string "abcdef") 3 150 (float_lit 11) 1 (float_lit 30)
  = Ok (of_string "f a")
  /\ window (marquee_loop (of_string "abcdef") 1) (spec_offset 150 11 30 6 1) 3
     = of_string " ab".
Proof. split; reflexivity. Qed.

Lemma marquee_slice_tick_congruent (text : str) (max_chars t1 t2 : Z)
  (cps : float) (gap : Z) (fps : float) (n1 n2 : Z) :
  scroll_steps t1 cps fps = Ok n1 ->
  scroll_steps t2 cps fps = Ok n2 ->
  n1 mod (Z.of_nat (length text) + gap) = n2 mod (Z.of_nat (length text) + gap) ->
  marquee_slice_tick text max_chars t1 cps gap fps
  = marquee_slice_tick text max_chars t2 cps gap fps.
Proof.
  intros H1 H2 Hmod. unfold marquee_slice_tick.
  destruct (Z.of_nat (length text) <=? max_chars); [reflexivity|].
  rewrite H1, H2. simpl. unfold py_mod.
  destruct (Z.of_nat (length text) + gap =? 0); [reflexivity|].
  simpl. rewrite Hmod. reflexivity.
Qed.

(** The exact step count advances by one loop over an exact period. *)
Lemma exact_steps_period (tick period c f len : Z) :
  0 < f -> period * c = len * f ->
  ((tick + period) * c / f) mod len = (tick * c / f) mod len.
Proof.
  intros Hf Hperiod.
  replace ((tick + period) * c) with (tick * c + len * f) by lia.
  rewrite Z.div_add by lia.
  destruct (Z.eq_dec len 0) as [->|Hlen].
  - rewrite Z.add_0_r. reflexivity.
  - replace (tick * c / f + len) with (tick * c / f + 1 * len) by lia.
    apply Z.mod_add. exact Hlen.
Qed.

(** C9, as the code has it. Two ticks whose step counts
    [int(tick * (cps / fps))] agree modulo [len + gap] give the same
    slice. So for whole rates [c] and [f] and a whole number of frames
    [period] with [period * c = (len + gap) * f], the slice at
    [tick + period] is the slice at [tick] whenever the double-precision
    step counts at the two ticks are the exact [floor(tick * c / f)] and
    [floor((tick + period) * c / f)]; they are, with the default rates at
    30 frames per second, for the ticks of the first ten minutes. *)
Theorem marquee_slice_periodic (text : str) (max_chars tick period c f gap : Z) :
  0 < f ->
  period * c = (Z.of_nat (length text) + gap) * f ->
  scroll_steps tick (float_lit c) (float_lit f) = Ok (tick * c / f) ->
  scroll_steps (tick + period) (float_lit c) (float_lit f)
  = Ok ((tick + period) * c / f) ->
  marquee_slice_tick text max_chars (tick + period) (float_lit c) gap (float_lit f)
  = marquee_slice_tick text max_chars tick (float_lit c) gap (float_lit f)
  /\ (forall cps fps t1 t2 n1 n2,
       scroll_steps t1 cps fps = Ok n1 ->
       scroll_steps t2 cps fps = Ok n2 ->
       n1 mod (Z.of_nat (length text) + gap)
       = n2 mod (Z.of_nat (length text) + gap) ->
       marquee_slice_tick text max_chars t1 cps gap fps
       = marquee_slice_tick text max_chars t2 cps gap fps)
  /\ (forall c0 t0 p0, default_cps c0 ->
        0 <= t0 -> 0 <= p0 -> t0 + p0 < ten_minute_ticks ->
        p0 * c0 = (Z.of_nat (length text) + gap) * 30 ->
        marquee_slice_tick text max_chars (t0 + p0) (float_lit c0) gap
          (float_lit 30)
        = marquee_slice_tick text max_chars t0 (float_lit c0) gap
            (float_lit 30)).
Proof.
  intros Hf Hperiod Hat Hafter. split; [|split].
  - apply (marquee_slice_tick_congruent text max_chars (tick + period) tick
             (float_lit c) gap (float_lit f) _ _ Hafter Hat).
    apply exact_steps_period; assumption.
  - intros cps fps t1 t2 n1 n2. apply marquee_slice_tick_congruent.
  - intros c0 t0 p0 Hc Ht Hp Hlast Hperiod0.
    apply (marquee_slice_tick_congruent text max_chars (t0 + p0) t0
             (float_lit c0) gap (float_lit 30)
             ((t0 + p0) * c0 / 30) (t0 * c0 / 30)).
    + apply default_steps_exact; [exact Hc | lia].
    + apply default_steps_exact; [exact Hc | lia].
    + apply exact_steps_period; [lia | exact Hperiod0].
Qed.

Lemma marquee_slice_periodic_witness :
  scroll_steps 7 (float_lit 3) (float_lit 30) = Ok (7 * 3 / 30)
  /\ scroll_steps (7 + 90) (float_lit 3) (float_lit 30) = Ok ((7 + 90) * 3 / 30)
  /\ marquee_slice_tick (of_string "abcdef") 3 (7 + 90) (float_lit 3) 3
       (float_lit 30)
     = marquee_slice_tick (of_string "abcdef") 3 7 (float_lit 3) 3
         (float_lit 30).
Proof.
  split; [reflexivity|]. split; [reflexivity|].
  apply (proj1 (marquee_slice_periodic (of_string "abcdef") 3 7 90 3 30 3
                  ltac:(lia) eq_refl eq_refl eq_refl)).
Defined.

(** With text "abcd", a gap of 3, 4 characters per second and 30 frames
    per second the period of the specification is 7 * 30 / 4 = 52.5
    frames, and neither 52 nor 53 frames is a period of the slice. *)
Lemma marquee_period_counterexample :
  2 * ((4 + 3) * 30) = 105 * 4
  /\ marquee_slice_tick (of_string "abcd") 2 0 (float_lit 4) 3 (float_lit 30)
     = Ok (of_string "ab")
  /\ marquee_slice_tick (of_string "abcd") 2 (0 + 52) (float_lit 4) 3 (float_lit 30)
     = Ok (of_string " a")
  /\ marquee_slice_tick (of_string "abcd") 2 7 (float_lit 4) 3 (float_lit 30)
     = Ok (of_string "ab")
  /\ marquee_slice_tick (of_string "abcd") 2 (7 + 53) (float_lit 4) 3 (float_lit 30)
     = Ok (of_string "bc").
Proof. repeat split. Qed.

(** A whole period is not enough either: with 11 characters per second
    at 30 frames per second and [len + gap = 11] the period is 30
    frames, and the rounding of [150 * (11 / 30)] moves the slice at
    tick 150 away from the one at tick 120. *)
Lemma marquee_period_rounding :
  30 * 11 = (8 + 3) * 30
  /\ marquee_slice_tick (of_string "abcdefgh") 3 120 (float_lit 11) 3 (float_lit 30)
     = Ok (of_string "abc")
  /\ marquee_slice_tick (of_string "abcdefgh") 3 (120 + 30) (float_lit 11) 3
       (float_lit 30)
     = Ok (of_string " ab").
Proof. repeat split. Qed.

(** *** The displayed progress *)

(** [int(x)] cuts the fraction off, toward zero. *)
Lemma to_int_truncation (x : float) :
  Float.is_finite x = true -> Float.to_int x = Ok (truncation x).
Proof.
  destruct x as [s|s| |s m e]; try discriminate; intros _.
  - reflexivity.
  - unfold Float.to_int, truncation, dyadic, fst, snd. f_equal.
    destruct (Z_le_gt_dec 0 e) as [Hpos|Hneg].
    + rewrite Z.shiftl_mul_pow2 by lia.
      rewrite Z.max_l, Z.max_r by lia. simpl (2 ^ 0). rewrite Z.quot_1_r.
      reflexivity.
    + rewrite Z.shiftl_div_pow2 by lia.
      rewrite Z.max_r, Z.max_l by lia. rewrite Z.pow_0_r, Z.mul_1_r.
      assert (0 < 2 ^ (- e)) as Hpow by (apply Z.pow_pos_nonneg; lia).
      destruct s; unfold cond_Zopp.
      * rewrite Z.quot_opp_l by lia.
        rewrite Z.quot_div_nonneg by lia. reflexivity.
      * rewrite Z.quot_div_nonneg by lia. reflexivity.
Qed.

Lemma poller_snapshot_ts (pb : option Playback) (now : float) :
  ts (poller_snapshot pb now) = now.
Proof. destruct pb as [[[it|] p ms]|]; reflexivity. Qed.

(** C3. For a snapshot of the poller (or the one the loop starts with)
    observed at [observed] and read at [now]: with a track present and
    playing, the displayed progress is the snapshot's [progress_ms] plus
    the elapsed time [(now - observed) * 1000.0] in milliseconds, with
    its fraction cut off; paused or with no track, it is the snapshot's
    [progress_ms] unchanged. Playing at 10000 ms, observed at [T0] and
    read 2500 ms later, it is 12500. *)
Theorem displayed_progress_extrapolates (pb : option Playback)
  (observed now : float) :
  let snap := poller_snapshot pb observed in
  let elapsed := Float.mul (Float.sub now observed) (float_lit 1000) in
  (item snap <> None -> is_playing snap = true ->
   Float.is_finite elapsed = true ->
   displayed_progress snap now = Ok (progress_ms snap + truncation elapsed))
  /\ (item snap = None \/ is_playing snap = false ->
      displayed_progress snap now = Ok (progress_ms snap))
  /\ displayed_progress (poller_snapshot (playing trackA 10000) wall_clock_T0)
       wall_clock_T0_2500ms = Ok 12500.
Proof.
  intros snap elapsed. split; [|split].
  - intros Hitem Hplaying Hfinite. unfold displayed_progress.
    destruct (item snap) as [it|]; [|congruence].
    rewrite Hplaying. unfold snap at 1. rewrite poller_snapshot_ts.
    fold elapsed. rewrite (to_int_truncation elapsed Hfinite).
    reflexivity.
  - intros Hidle. unfold displayed_progress.
    destruct (item snap) as [it|] eqn:Hitem.
    + destruct Hidle as [Hnone|Hpaused]; [discriminate|].
      rewrite Hpaused. reflexivity.
    + f_equal. unfold snap, poller_snapshot in *.
      destruct pb as [[[it|] p ms]|]; simpl in *; try reflexivity; discriminate.
  - reflexivity.
Qed.

Lemma displayed_progress_extrapolates_witness :
  let snap := poller_snapshot (playing trackA 5000) (float_lit 5) in
  let now := Float.of_decimal false 51 (-1) in
  let elapsed := Float.mul (Float.sub now (float_lit 5)) (float_lit 1000) in
  item snap <> None /\ is_playing snap = true
  /\ Float.is_finite elapsed = true
  /\ displayed_progress snap now = Ok (progress_ms snap + truncation elapsed)
  /\ displayed_progress snap now = Ok 5099.
Proof.
  intros snap now elapsed.
  assert (item snap <> None) as Hitem by discriminate.
  split; [exact Hitem|]. split; [reflexivity|]. split; [reflexivity|].
  split; [|reflexivity].
  exact (proj1 (displayed_progress_extrapolates (playing trackA 5000)
                  (float_lit 5) now) Hitem eq_refl eq_refl).
Defined.

(** ** The parser *)

(** *** Characters *)

Lemma digit_facts (c : ascii) :
  is_digit c = true ->
  is_space c = false /\ is_c_space c = false /\ is_linebreak c = false
  /\ to_ascii_space c = c /\ lower c = c
  /\ Ascii.eqb c "["%char = false /\ Ascii.eqb c "]"%char = false
  /\ Ascii.eqb c ":"%char = false /\ Ascii.eqb c "."%char = false
  /\ Ascii.eqb c "_"%char = false /\ Ascii.eqb c "-"%char = false
  /\ Ascii.eqb c "+"%char = false
  /\ 0 <= digit_value c <= 9.
Proof.
  destruct c as [[] [] [] [] [] [] [] []]; intros H; try discriminate H;
    repeat split; try reflexivity; vm_compute; discriminate.
Qed.

(** *** Stripping *)

Lemma lstrip_keeps (s : str) (c : ascii) :
  In c s -> is_space c = false -> In c (lstrip s).
Proof.
  induction s as [|d s IH]; intros Hin Hc; [contradiction|].
  simpl. destruct (is_space d) eqn:Hd.
  - destruct Hin as [->|Hin]; [congruence | apply IH; assumption].
  - exact Hin.
Qed.

Lemma strip_keeps (s : str) (c : ascii) :
  In c s -> is_space c = false -> In c (strip s).
Proof.
  intros Hin Hc. unfold strip, rstrip. apply in_rev.
  rewrite rev_involutive. apply lstrip_keeps; [|exact Hc].
  apply in_rev. rewrite rev_involutive.
  apply lstrip_keeps; assumption.
Qed.

Lemma strip_truthy (s : str) (c : ascii) :
  In c s -> is_space c = false -> truthy (strip s) = true.
Proof.
  intros Hin Hc. pose proof (strip_keeps s c Hin Hc) as H.
  destruct (strip s); [contradiction | reflexivity].
Qed.

Lemma lstrip_no_bracket (s : str) :
  ~ In "["%char s -> ~ In "["%char (lstrip s).
Proof.
  induction s as [|d s IH]; intros Hno; [exact Hno|].
  simpl. destruct (is_space d); [|exact Hno].
  apply IH. intros Hin. apply Hno. right. exact Hin.
Qed.

(** *** Splitting *)

Lemma split_nonempty (sep : ascii) (s : str) : split sep s <> [].
Proof.
  destruct s as [|c s]; simpl; [discriminate|].
  destruct (Ascii.eqb c sep); [discriminate|].
  destruct (split sep s); discriminate.
Qed.

Lemma split_no_sep (sep : ascii) (s : str) :
  ~ In sep s -> split sep s = [s].
Proof.
  induction s as [|c s IH]; intros Hno; [reflexivity|].
  simpl. destruct (Ascii.eqb_spec c sep) as [->|Hne].
  - exfalso. apply Hno. left. reflexivity.
  - rewrite IH; [reflexivity|]. intros Hin. apply Hno. right. exact Hin.
Qed.

Lemma split_app_sep (sep : ascii) (p rest : str) :
  ~ In sep p -> split sep (p ++ sep :: rest) = p :: split sep rest.
Proof.
  induction p as [|c p IH]; intros Hno; simpl.
  - rewrite Ascii.eqb_refl. reflexivity.
  - destruct (Ascii.eqb_spec c sep) as [->|Hne].
    + exfalso. apply Hno. left. reflexivity.
    + rewrite IH; [reflexivity|]. intros Hin. apply Hno. right. exact Hin.
Qed.

(** Every piece but the last comes before a separator of the text. *)
Lemma split_pieces_in (sep : ascii) (s : str) (p : str) (c : ascii) :
  In p (split sep s) -> In c p -> In c s.
Proof.
  revert p. induction s as [|d s IH]; intros p Hp Hc; simpl in Hp.
  - destruct Hp as [<-|[]]. contradiction.
  - destruct (Ascii.eqb d sep).
    + destruct Hp as [<-|Hp]; [contradiction|]. right. apply (IH p Hp Hc).
    + destruct (split sep s) as [|q qs] eqn:Hsplit.
      * destruct Hp as [<-|[]]. destruct Hc as [<-|[]]. left. reflexivity.
      * destruct Hp as [<-|Hp].
        -- destruct Hc as [<-|Hc]; [left; reflexivity|].
           right. apply (IH q); [left; reflexivity | exact Hc].
        -- right. apply (IH p); [right; exact Hp | exact Hc].
Qed.

(** *** The last element and the elements before it *)

Lemma py_index_last {A : Type} (l : list A) (x : A) :
  py_index (l ++ [x]) (-1) = Ok x.
Proof.
  unfold py_index. rewrite length_app. simpl length.
  replace (-1 <? 0) with true by reflexivity.
  replace ((0 <=? -1 + Z.of_nat (length l + 1))
           && (-1 + Z.of_nat (length l + 1) <? Z.of_nat (length l + 1)))
    with true
    by (symmetry; apply andb_true_iff; split;
        [apply Z.leb_le | apply Z.ltb_lt]; lia).
  replace (Z.to_nat (-1 + Z.of_nat (length l + 1))) with (length l) by lia.
  rewrite nth_error_app2 by lia. rewrite Nat.sub_diag. reflexivity.
Qed.

Lemma py_slice_init {A : Type} (l : list A) (x : A) :
  py_slice (l ++ [x]) 0 (-1) = l.
Proof.
  unfold py_slice, slice_bound. rewrite length_app. simpl length.
  replace (0 <? 0) with false by reflexivity.
  replace (-1 <? 0) with true by reflexivity.
  rewrite (Z.min_r _ 0) by lia. rewrite (Z.max_l 0 0) by lia.
  rewrite Z.min_r by lia. rewrite Z.max_r by lia.
  simpl skipn.
  replace (Z.to_nat (-1 + Z.of_nat (length l + 1) - 0)) with (length l) by lia.
  rewrite firstn_app, Nat.sub_diag, firstn_all. simpl. apply app_nil_r.
Qed.

Lemma py_slice_tail {A : Type} (c : A) (l : list A) :
  py_slice (c :: l) 1 (Z.of_nat (length (c :: l))) = l.
Proof.
  unfold py_slice, slice_bound.
  replace (1 <? 0) with false by reflexivity.
  replace (Z.of_nat (length (c :: l)) <? 0) with false
    by (symmetry; apply Z.ltb_ge; lia).
  simpl length.
  replace (Z.to_nat (Z.max 0 (Z.min (Z.of_nat (S (length l))) 1))) with 1%nat by lia.
  replace (Z.to_nat (Z.max 0 (Z.min (Z.of_nat (S (length l)))
                                (Z.of_nat (S (length l))))
                     - Z.max 0 (Z.min (Z.of_nat (S (length l))) 1)))
    with (length l) by lia.
  simpl skipn. apply firstn_all.
Qed.

Lemma list_last_split {A : Type} (l : list A) :
  l <> [] -> exists init x, l = init ++ [x].
Proof.
  intros Hne. destruct (exists_last Hne) as [init [x ->]]. exists init, x. reflexivity.
Qed.

Lemma str_eqb_length (a b : str) :
  length a <> length b -> str_eqb a b = false.
Proof.
  intros Hlen. destruct (str_eqb a b) eqn:Heq; [|reflexivity].
  apply str_eqb_eq in Heq. subst. contradiction.
Qed.

Section Builtins.

Local Arguments is_digit : simpl never.
Local Arguments is_space : simpl never.
Local Arguments is_c_space : simpl never.
Local Arguments to_ascii_space : simpl never.
Local Arguments lower : simpl never.
Local Arguments Ascii.eqb : simpl never.
Local Arguments decimal_value : simpl never.
Local Arguments Float.of_decimal : simpl never.

Ltac digit c H :=
  let F := fresh "F" in
  pose proof (digit_facts c H) as F;
  destruct F as (? & ? & ? & ? & ? & ? & ? & ? & ? & ? & ? & ? & ?).

Ltac crunch :=
  repeat (progress (simpl;
    repeat match goal with
    | H : ?x = _ |- context [?x] => rewrite H
    end)).

Lemma wf_field_inv (f : str) :
  wf_field f = true ->
  exists a b, f = [a; b] /\ is_digit a = true /\ is_digit b = true.
Proof.
  destruct f as [|a [|b [|c f]]]; try discriminate. simpl.
  intros H. apply andb_true_iff in H. exists a, b. tauto.
Qed.

Lemma py_int_field (f : str) :
  wf_field f = true -> py_int f = Ok (decimal_value f).
Proof.
  intros Hf. destruct (wf_field_inv f Hf) as [a [b [-> [Ha Hb]]]].
  digit a Ha. digit b Hb.
  unfold py_int, c_strip. crunch. reflexivity.
Qed.

Lemma py_float_seconds (f g : str) :
  wf_field f = true -> wf_field g = true ->
  py_float (f ++ "."%char :: g)
  = Ok (Float.of_decimal false (decimal_value (f ++ g)) (-2)).
Proof.
  intros Hf Hg.
  destruct (wf_field_inv f Hf) as [a [b [-> [Ha Hb]]]].
  destruct (wf_field_inv g Hg) as [c [d [-> [Hc Hd]]]].
  digit a Ha. digit b Hb. digit c Hc. digit d Hd.
  unfold py_float, c_strip. crunch.
  change (Ascii.eqb zero "_"%char) with false.
  change (Ascii.eqb "."%char "_"%char) with false.
  change (is_digit "."%char) with false.
  change (is_c_space "."%char) with false.
  change (to_ascii_space "."%char) with "."%char.
  crunch.
  rewrite !str_eqb_length by (simpl; discriminate). simpl.
  unfold parse_decimal. crunch.
  change (is_digit "."%char) with false.
  change (Ascii.eqb "."%char "."%char) with true.
  crunch. reflexivity.
Qed.

(** The whole numbers below 6000 convert to a float as they are. *)
Lemma of_int_small (z : Z) :
  0 <= z < 6000 -> Float.of_int z = Ok (float_lit z).
Proof.
  intros Hz.
  assert (forallb (fun n => Float.is_finite (float_lit (Z.of_nat n)))
            (seq 0 (Z.to_nat 6000)) = true) as Hall by (vm_compute; reflexivity).
  rewrite forallb_forall in Hall.
  assert (In (Z.to_nat z) (seq 0 (Z.to_nat 6000))) as Hin by (apply in_seq; lia).
  specialize (Hall _ Hin). replace (Z.of_nat (Z.to_nat z)) with z in Hall by lia.
  unfold Float.of_int. fold (float_lit z).
  destruct (float_lit z); try reflexivity. discriminate Hall.
Qed.

Lemma field_value_range (f : str) :
  wf_field f = true -> 0 <= decimal_value f <= 99.
Proof.
  intros Hf. destruct (wf_field_inv f Hf) as [a [b [-> [Ha Hb]]]].
  digit a Ha. digit b Hb. unfold decimal_value. cbn [fold_left]. lia.
Qed.

Lemma parse_tag_wf (tg : TimeTag) (lyric : str) :
  wf_tag tg = true ->
  parse_tag (tag_body tg) lyric = Ok (mkLyricLine (tag_time tg) lyric).
Proof.
  intros Hwf. unfold wf_tag in Hwf.
  apply andb_true_iff in Hwf. destruct Hwf as [Hwf Hx].
  apply andb_true_iff in Hwf. destruct Hwf as [Hm Hs].
  unfold parse_tag, tag_body.
  assert (split ":"%char (mm tg ++ ":"%char :: ss tg ++ "."%char :: xx tg)
          = [mm tg; ss tg ++ "."%char :: xx tg]) as ->.
  { destruct (wf_field_inv _ Hm) as [a [b [-> [Ha Hb]]]].
    destruct (wf_field_inv _ Hs) as [c [d [-> [Hc Hd]]]].
    destruct (wf_field_inv _ Hx) as [e [f [-> [He Hf]]]].
    digit a Ha. digit b Hb. digit c Hc. digit d Hd. digit e He. digit f Hf.
    crunch. change (Ascii.eqb ":"%char ":"%char) with true.
    change (Ascii.eqb "."%char ":"%char) with false. crunch. reflexivity. }
  rewrite (py_int_field _ Hm), (py_float_seconds _ _ Hs Hx).
  unfold bind.
  pose proof (field_value_range _ Hm) as Hrange.
  rewrite of_int_small by lia.
  unfold tag_time. rewrite (Z.mul_comm 60). reflexivity.
Qed.
End Builtins.

(** *** Rounding never makes a NaN *)

Lemma shr_1_nonneg (mrs : shr_record) : 0 <= shr_m mrs -> 0 <= shr_m (shr_1 mrs).
Proof.
  destruct mrs as [m r s]. simpl.
  destruct m as [|[p|p|]|[p|p|]]; simpl; intros H; lia.
Qed.

Lemma iter_shr_1_nonneg (p : positive) : forall mrs,
  0 <= shr_m mrs -> 0 <= shr_m (iter_pos shr_1 p mrs).
Proof.
  induction p as [p IH|p IH|]; intros mrs H; simpl.
  - apply IH, IH, shr_1_nonneg, H.
  - apply IH, IH, H.
  - apply shr_1_nonneg, H.
Qed.

Lemma shr_fexp_nonneg (m e : Z) (l : location) :
  0 <= m -> 0 <= shr_m (fst (shr_fexp Float.prec Float.emax m e l)).
Proof.
  intros Hm. unfold shr_fexp, shr.
  assert (0 <= shr_m (shr_record_of_loc m l)) as H0
    by (destruct l as [|[]]; exact Hm).
  destruct (fexp Float.prec Float.emax (Zdigits2 m + e) - e); simpl;
    try exact H0.
  apply iter_shr_1_nonneg, H0.
Qed.

Lemma round_nearest_even_nonneg (m : Z) (l : location) :
  0 <= m -> 0 <= round_nearest_even m l.
Proof.
  intros Hm. unfold round_nearest_even.
  destruct l as [|[]]; try destruct (Z.even m); lia.
Qed.

Lemma binary_round_aux_not_nan (s : bool) (m e : Z) (l : location) :
  0 <= m ->
  Float.is_nan (binary_round_aux Float.prec Float.emax s m e l) = false.
Proof.
  intros Hm. unfold binary_round_aux.
  pose proof (shr_fexp_nonneg m e l Hm) as H1.
  destruct (shr_fexp Float.prec Float.emax m e l) as [mrs' e'].
  simpl fst in H1.
  pose proof (shr_fexp_nonneg
                (round_nearest_even (shr_m mrs') (loc_of_shr_record mrs')) e'
                loc_Exact (round_nearest_even_nonneg _ _ H1)) as H2.
  destruct (shr_fexp Float.prec Float.emax _ e' loc_Exact) as [mrs'' e''].
  simpl fst in H2.
  destruct (shr_m mrs'') as [|p|p]; [reflexivity | | lia].
  destruct (e'' <=? Float.emax - Float.prec); reflexivity.
Qed.

Lemma binary_normalize_not_nan (m e : Z) (s : bool) :
  Float.is_nan (binary_normalize Float.prec Float.emax m e s) = false.
Proof.
  unfold binary_normalize, binary_round.
  destruct m as [|p|p]; [reflexivity| |];
    destruct (shl_align p e _) as [mz ez];
    apply binary_round_aux_not_nan; lia.
Qed.

Lemma of_decimal_not_nan (s : bool) (m e : Z) :
  Float.is_nan (Float.of_decimal s m e) = false.
Proof.
  unfold Float.of_decimal. destruct m as [|p|p]; try reflexivity.
  destruct e as [|k|k]; try apply binary_normalize_not_nan.
  unfold SFdiv.
  destruct (SFdiv_core_binary Float.prec Float.emax (Z.pos p) 0
              (Z.pos (10 ^ k)) 0) as [[mz ez] lz] eqn:Hdiv.
  apply binary_round_aux_not_nan.
  unfold SFdiv_core_binary in Hdiv.
  destruct (Z.div_eucl _ (Z.pos (10 ^ k))) as [q r] eqn:Heucl.
  inversion Hdiv; subst.
  match type of Heucl with
  | Z.div_eucl ?a ?b = _ =>
      pose proof (Z.div_eucl_eq a b ltac:(lia)) as Heq;
      pose proof (Z.mod_pos_bound a b ltac:(lia)) as Hmod;
      assert (0 <= a) as Ha;
      [| unfold Z.modulo in Hmod; rewrite Heucl in Heq, Hmod; nia ]
  end.
  destruct (0 - 0 - _); try lia. apply Z.shiftl_nonneg. lia.
Qed.

(** A sum with a finite term and a term that is not a NaN. *)
Lemma add_not_nan (x y : float) :
  Float.is_finite x = true -> Float.is_nan y = false ->
  Float.is_nan (Float.add x y) = false.
Proof.
  unfold Float.add, SFadd.
  destruct x as [sx|sx| |sx mx ex], y as [sy|sy| |sy my ey];
    try discriminate; intros _ _; try reflexivity.
  - destruct sx, sy; reflexivity.
  - apply binary_normalize_not_nan.
Qed.

Lemma tag_time_not_nan (tg : TimeTag) :
  wf_tag tg = true -> Float.is_nan (tag_time tg) = false.
Proof.
  intros Hwf. unfold tag_time. apply add_not_nan.
  - unfold wf_tag in Hwf. apply andb_true_iff in Hwf. destruct Hwf as [Hwf _].
    apply andb_true_iff in Hwf. destruct Hwf as [Hm _].
    pose proof (field_value_range _ Hm) as Hrange.
    pose proof (of_int_small (60 * decimal_value (mm tg)) ltac:(lia)) as Hint.
    unfold Float.of_int in Hint. fold (float_lit (60 * decimal_value (mm tg))) in Hint.
    pose proof (binary_normalize_not_nan (60 * decimal_value (mm tg)) 0 false) as Hnan.
    fold (float_lit (60 * decimal_value (mm tg))) in Hnan.
    destruct (float_lit (60 * decimal_value (mm tg))); try reflexivity; discriminate.
  - apply of_decimal_not_nan.
Qed.

(** *** Sorting *)

Section SortFacts.
Context {A : Type}.
Variable key : A -> float.

Lemma insert_sorted_perm (x : A) (l : list A) :
  Permutation (insert_sorted key x l) (x :: l).
Proof.
  induction l as [|y l IH]; simpl; [reflexivity|].
  destruct (Float.ltb (key x) (key y)); [reflexivity|].
  rewrite IH. apply perm_swap.
Qed.

Lemma fold_insert_perm (l : list A) : forall acc,
  Permutation (fold_left (fun acc x => insert_sorted key x acc) l acc)
    (acc ++ l).
Proof.
  induction l as [|x l IH]; intros acc; simpl.
  - rewrite app_nil_r. reflexivity.
  - rewrite IH, insert_sorted_perm. apply Permutation_middle.
Qed.

Lemma stable_sort_perm (l : list A) : Permutation (stable_sort key l) l.
Proof. unfold stable_sort. apply (fold_insert_perm l []). Qed.

Lemma insert_sorted_hd (R : A -> A -> Prop) (x a : A) (l : list A) :
  R a x -> HdRel R a l -> HdRel R a (insert_sorted key x l).
Proof.
  intros Hax Hhd. destruct l as [|y l]; simpl.
  - constructor. exact Hax.
  - destruct (Float.ltb (key x) (key y)); constructor;
      [exact Hax | inversion Hhd; assumption].
Qed.

Lemma insert_sorted_sorted (x : A) (l : list A) :
  Float.is_nan (key x) = false ->
  (forall y, In y l -> Float.is_nan (key y) = false) ->
  Sorted (key_le key) l -> Sorted (key_le key) (insert_sorted key x l).
Proof.
  intros Hx Hl Hsorted. induction Hsorted as [|y l Hsorted IH Hhd]; simpl.
  - repeat constructor.
  - destruct (Float.ltb (key x) (key y)) eqn:Hlt.
    + constructor; [constructor; assumption|].
      constructor. apply ltb_leb. exact Hlt.
    + constructor.
      * apply IH. intros z Hz. apply Hl. right. exact Hz.
      * apply insert_sorted_hd; [|exact Hhd].
        apply not_ltb_leb; [apply Hl; left; reflexivity | exact Hx | exact Hlt].
Qed.

Lemma fold_insert_sorted (l : list A) : forall acc,
  (forall y, In y (acc ++ l) -> Float.is_nan (key y) = false) ->
  Sorted (key_le key) acc ->
  Sorted (key_le key) (fold_left (fun acc x => insert_sorted key x acc) l acc).
Proof.
  induction l as [|x l IH]; intros acc Hnan Hacc; simpl; [exact Hacc|].
  apply IH.
  - intros y Hy. apply Hnan. apply in_app_or in Hy. destruct Hy as [Hy|Hy].
    + apply (Permutation_in _ (insert_sorted_perm x acc)) in Hy.
      destruct Hy as [<-|Hy]; apply in_or_app; [right; left; reflexivity | left; exact Hy].
    + apply in_or_app. right. right. exact Hy.
  - apply insert_sorted_sorted; [| |exact Hacc].
    + apply Hnan. apply in_or_app. right. left. reflexivity.
    + intros y Hy. apply Hnan. apply in_or_app. left. exact Hy.
Qed.

(** Without a NaN among the keys, the sort leaves them in
    non-decreasing order. *)
Lemma stable_sort_sorted (l : list A) :
  (forall y, In y l -> Float.is_nan (key y) = false) ->
  Sorted (key_le key) (stable_sort key l).
Proof.
  intros Hnan. unfold stable_sort. apply fold_insert_sorted; [exact Hnan | constructor].
Qed.
End SortFacts.

(** The stable sort is one [list.sort]; the examples are run with it,
    on keys without a NaN, where every [list.sort] gives the same. *)
Definition stable_list_sort : ListSort :=
  {| list_sort := stable_sort t;
     list_sort_perm := stable_sort_perm t;
     list_sort_stable := fun l _ => eq_refl |}.

Lemma list_sort_sorted (sorter : ListSort) (l : list LyricLine) :
  (forall e, In e l -> Float.is_nan (t e) = false) ->
  timeline (list_sort sorter l).
Proof.
  intros Hnan. rewrite (list_sort_stable sorter l Hnan).
  apply stable_sort_sorted. exact Hnan.
Qed.

(** *** One line at a time *)

Lemma scan_parts_app (lyric : str) (ps : list str) : forall out,
  scan_parts lyric out ps = out ++ scan_parts lyric [] ps.
Proof.
  unfold scan_parts. induction ps as [|p ps IH]; intros out; simpl.
  - symmetry. apply app_nil_r.
  - destruct (startswith "["%char p); [|apply IH].
    destruct (parse_tag _ lyric) as [e|err]; [|apply IH].
    rewrite (IH (out ++ [e])). rewrite (IH [e]). rewrite app_assoc. reflexivity.
Qed.

(** A line never makes the parser fail, and what it adds to the
    entries does not depend on the entries before it. *)
Lemma parse_line_eq (out : list LyricLine) (raw : str) :
  parse_line out raw = Ok (out ++ line_entries raw).
Proof.
  unfold line_entries, parse_line.
  destruct (negb (truthy (strip raw))); [rewrite app_nil_r; reflexivity|].
  destruct (list_last_split (split "]"%char raw) (split_nonempty _ raw))
    as [init [last ->]].
  rewrite py_index_last, py_slice_init. simpl.
  rewrite scan_parts_app. reflexivity.
Qed.

Lemma parse_lines_eq (lines : list str) : forall out,
  parse_lines out lines = Ok (out ++ flat_map line_entries lines).
Proof.
  unfold parse_lines. induction lines as [|raw lines IH]; intros out; simpl.
  - rewrite app_nil_r. reflexivity.
  - rewrite parse_line_eq. rewrite IH. rewrite app_assoc. reflexivity.
Qed.

Lemma parse_lrc_eq (sorter : ListSort) (text : str) :
  parse_lrc sorter text
  = Ok (list_sort sorter (flat_map line_entries (splitlines text))).
Proof. unfold parse_lrc. rewrite parse_lines_eq. reflexivity. Qed.

(** *** Lines with and without tags *)

Lemma wf_tag_chars (tg : TimeTag) (c : ascii) :
  wf_tag tg = true -> In c ("["%char :: tag_body tg) ->
  Ascii.eqb c "]"%char = false /\ is_linebreak c = false.
Proof.
  intros Hwf. unfold wf_tag in Hwf.
  apply andb_true_iff in Hwf. destruct Hwf as [Hwf Hx].
  apply andb_true_iff in Hwf. destruct Hwf as [Hm Hs].
  destruct (wf_field_inv _ Hm) as [a1 [a2 [Em [Ha1 Ha2]]]].
  destruct (wf_field_inv _ Hs) as [b1 [b2 [Es [Hb1 Hb2]]]].
  destruct (wf_field_inv _ Hx) as [c1 [c2 [Ex [Hc1 Hc2]]]].
  unfold tag_body. rewrite Em, Es, Ex. simpl.
  intros Hin.
  repeat match goal with
  | H : _ \/ _ |- _ => destruct H as [<-|H]
  | H : False |- _ => contradiction
  end;
  try (split; reflexivity);
  match goal with
  | H : is_digit ?d = true |- context [?d] =>
      pose proof (digit_facts d H); tauto
  end.
Qed.

Lemma tagged_line_cons (tg : TimeTag) (tags : list TimeTag) (txt : str) :
  tagged_line (tg :: tags) txt
  = ("["%char :: tag_body tg) ++ "]"%char :: tagged_line tags txt.
Proof.
  unfold tagged_line, tag_text. simpl. rewrite <- !app_assoc. reflexivity.
Qed.

Lemma tagged_line_split (tags : list TimeTag) (txt : str) :
  Forall (fun tg => wf_tag tg = true) tags ->
  ~ In "]"%char txt ->
  split "]"%char (tagged_line tags txt)
  = map (fun tg => "["%char :: tag_body tg) tags ++ [txt].
Proof.
  intros Hwf Htxt. induction Hwf as [|tg tags Htg Hwf IH].
  - apply split_no_sep. exact Htxt.
  - rewrite tagged_line_cons, split_app_sep, IH; [reflexivity|].
    intros Hin. destruct (wf_tag_chars tg _ Htg Hin) as [Hne _].
    rewrite Ascii.eqb_refl in Hne. discriminate.
Qed.

Lemma scan_tagged (lyric : str) (tags : list TimeTag) :
  Forall (fun tg => wf_tag tg = true) tags ->
  scan_parts lyric [] (map (fun tg => "["%char :: tag_body tg) tags)
  = map (fun tg => mkLyricLine (tag_time tg) lyric) tags.
Proof.
  induction 1 as [|tg tags Htg Hwf IH]; [reflexivity|].
  unfold scan_parts in *. simpl map. cbn [fold_left].
  change (startswith "["%char ("["%char :: tag_body tg)) with true. cbv iota.
  rewrite py_slice_tail, (parse_tag_wf tg lyric Htg).
  fold (scan_parts lyric ([] ++ [mkLyricLine (tag_time tg) lyric])
          (map (fun tg => "["%char :: tag_body tg) tags)).
  rewrite scan_parts_app. unfold scan_parts. rewrite IH. reflexivity.
Qed.

Lemma tagged_line_entries (tags : list TimeTag) (txt : str) :
  tags <> [] ->
  Forall (fun tg => wf_tag tg = true) tags ->
  ~ In "]"%char txt ->
  line_entries (tagged_line tags txt) = map (tag_entry txt) tags.
Proof.
  intros Hne Hwf Htxt. unfold line_entries, parse_line.
  assert (truthy (strip (tagged_line tags txt)) = true) as ->.
  { destruct tags as [|tg tags]; [congruence|].
    apply (strip_truthy _ "["%char); [|reflexivity].
    rewrite tagged_line_cons. left. reflexivity. }
  simpl negb. cbv iota.
  rewrite (tagged_line_split tags txt Hwf Htxt).
  rewrite py_index_last, py_slice_init. simpl.
  apply scan_tagged. exact Hwf.
Qed.

Lemma scan_parts_no_bracket (lyric : str) (ps : list str) : forall out,
  (forall p, In p ps -> startswith "["%char p = false) ->
  scan_parts lyric out ps = out.
Proof.
  unfold scan_parts. induction ps as [|p ps IH]; intros out Hps; [reflexivity|].
  simpl. rewrite (Hps p (or_introl eq_refl)). apply IH.
  intros q Hq. apply Hps. right. exact Hq.
Qed.

Lemma untagged_line_entries (raw : str) :
  ~ In "["%char raw \/ ~ In "]"%char raw -> line_entries raw = [].
Proof.
  intros Hraw. unfold line_entries, parse_line.
  destruct (negb (truthy (strip raw))); [reflexivity|].
  destruct (list_last_split (split "]"%char raw) (split_nonempty _ raw))
    as [init [last Hsplit]].
  rewrite Hsplit, py_index_last, py_slice_init. simpl.
  destruct Hraw as [Hopen|Hclose].
  - apply scan_parts_no_bracket. intros p Hp.
    destruct p as [|c p]; [reflexivity|]. simpl.
    destruct (Ascii.eqb_spec c "["%char) as [->|Hne]; [|reflexivity].
    exfalso. apply Hopen.
    apply (split_pieces_in "]"%char raw ("["%char :: p)).
    + rewrite Hsplit. apply in_or_app. left. exact Hp.
    + left. reflexivity.
  - rewrite (split_no_sep _ raw Hclose) in Hsplit.
    destruct init as [|p init]; [reflexivity|].
    destruct init; discriminate.
Qed.

(** *** Lines of a text *)

Lemma splitlines_single (line : str) :
  line <> [] -> (forall c, In c line -> is_linebreak c = false) ->
  splitlines line = [line].
Proof.
  induction line as [|c s IH]; intros Hne Hbreaks; [congruence|].
  simpl. rewrite (Hbreaks c (or_introl eq_refl)).
  destruct s as [|d s]; [reflexivity|].
  rewrite IH; [reflexivity | discriminate |].
  intros e He. apply Hbreaks. right. exact He.
Qed.

Lemma splitlines_pieces_bounded (n : nat) : forall s l c,
  (length s <= n)%nat -> In l (splitlines s) -> In c l -> In c s.
Proof.
  induction n as [|n IH]; intros s l c Hlen Hl Hc;
    destruct s as [|d s]; try contradiction; simpl in Hlen; [lia|].
  simpl in Hl. destruct (is_linebreak d).
  - destruct s as [|d' s'].
    + destruct Hl as [<-|[]]. contradiction.
    + destruct ((code d =? 13) && (code d' =? 10)).
      * destruct Hl as [<-|Hl]; [contradiction|].
        right. right. apply (IH s' l c); [simpl in Hlen; lia | exact Hl | exact Hc].
      * destruct Hl as [<-|Hl]; [contradiction|].
        right. apply (IH (d' :: s') l c); [lia | exact Hl | exact Hc].
  - destruct (splitlines s) as [|l0 ls] eqn:Hs.
    + destruct Hl as [<-|[]]. destruct Hc as [<-|[]]. left. reflexivity.
    + destruct Hl as [<-|Hl].
      * destruct Hc as [<-|Hc]; [left; reflexivity|].
        right. apply (IH s l0 c); [lia | rewrite Hs; left; reflexivity | exact Hc].
      * right. apply (IH s l c); [lia | rewrite Hs; right; exact Hl | exact Hc].
Qed.

Lemma splitlines_pieces_in (s l : str) (c : ascii) :
  In l (splitlines s) -> In c l -> In c s.
Proof. apply (splitlines_pieces_bounded (length s)). lia. Qed.

Lemma tagged_line_single (tags : list TimeTag) (txt : str) :
  tags <> [] ->
  Forall (fun tg => wf_tag tg = true) tags ->
  (forall c, In c txt -> is_linebreak c = false) ->
  splitlines (tagged_line tags txt) = [tagged_line tags txt].
Proof.
  intros Hne Hwf Htxt. apply splitlines_single.
  - destruct tags; [congruence|]. rewrite tagged_line_cons. discriminate.
  - clear Hne. induction Hwf as [|tg tags Htg Hwf IH]; [exact Htxt|].
    rewrite tagged_line_cons. intros c Hc.
    apply in_app_or in Hc. destruct Hc as [Hc|[<-|Hc]].
    + apply (wf_tag_chars tg c Htg Hc).
    + reflexivity.
    + apply IH. exact Hc.
Qed.


Lemma flat_map_all_nil {A B : Type} (f : A -> list B) (l : list A) :
  (forall x, In x l -> f x = []) -> flat_map f l = [].
Proof.
  induction l as [|x l IH]; intros Hall; [reflexivity|].
  simpl. rewrite (Hall x (or_introl eq_refl)). apply IH.
  intros y Hy. apply Hall. right. exact Hy.
Qed.

Lemma tag_entry_not_nan (txt : str) (tg : TimeTag) :
  wf_tag tg = true -> Float.is_nan (t (tag_entry txt tg)) = false.
Proof. apply tag_time_not_nan. Qed.

(** C7, as the code has it. A line made of k >= 1 time tags of the
    form mm:ss.xx between brackets, followed by a text with no closing
    bracket, adds exactly k entries to the parse, one per tag, each with
    the timestamp 60 * mm + ss.xx of its tag and all with the same text:
    the text after the tags, stripped of the whitespace around it.
    Parsed alone, the line gives these k entries sorted by timestamp.
    A line with no opening bracket, or with no closing bracket, adds no
    entry. *)
Theorem tagged_line_parsed (sorter : ListSort) (tags : list TimeTag)
  (txt : str) (out : list LyricLine) :
  tags <> [] ->
  Forall (fun tg => wf_tag tg = true) tags ->
  ~ In "]"%char txt ->
  (forall c, In c txt -> is_linebreak c = false) ->
  parse_line out (tagged_line tags txt) = Ok (out ++ map (tag_entry txt) tags)
  /\ (exists entries,
        parse_lrc sorter (tagged_line tags txt) = Ok entries
        /\ length entries = length tags
        /\ Permutation entries (map (tag_entry txt) tags)
        /\ (forall e, In e entries -> text e = strip txt)
        /\ timeline entries)
  /\ (forall raw, ~ In "["%char raw \/ ~ In "]"%char raw ->
        parse_line out raw = Ok out /\ parse_lrc sorter raw = Ok []).
Proof.
  intros Hne Hwf Hclose Hbreaks. split; [|split].
  - rewrite parse_line_eq, tagged_line_entries by assumption. reflexivity.
  - exists (list_sort sorter (map (tag_entry txt) tags)).
    pose proof (list_sort_perm sorter (map (tag_entry txt) tags)) as Hperm.
    split; [|split; [|split; [|split]]].
    + rewrite parse_lrc_eq, tagged_line_single by assumption.
      simpl. rewrite app_nil_r, tagged_line_entries by assumption. reflexivity.
    + rewrite (Permutation_length Hperm). apply length_map.
    + exact Hperm.
    + intros e He. apply (Permutation_in _ Hperm) in He.
      apply in_map_iff in He. destruct He as [tg [<- _]]. reflexivity.
    + apply list_sort_sorted. intros e He.
      apply in_map_iff in He. destruct He as [tg [<- Htg]].
      apply tag_entry_not_nan. rewrite Forall_forall in Hwf. apply Hwf, Htg.
  - intros raw Hraw. split.
    + rewrite parse_line_eq, untagged_line_entries by assumption.
      rewrite app_nil_r. reflexivity.
    + rewrite parse_lrc_eq.
      assert (flat_map line_entries (splitlines raw) = []) as ->.
      2: { f_equal. apply Permutation_nil. apply Permutation_sym.
           apply list_sort_perm. }
      apply flat_map_all_nil. intros l Hl. apply untagged_line_entries.
      destruct Hraw as [Hopen|Hclose'].
      * left. intros Hin. apply Hopen. apply (splitlines_pieces_in raw l _ Hl Hin).
      * right. intros Hin. apply Hclose'. apply (splitlines_pieces_in raw l _ Hl Hin).
Qed.

Lemma tagged_line_parsed_witness :
  let tags := [tag "00" "30" "00"; tag "00" "01" "00"] in
  let txt := of_string " first " in
  parse_line [] (tagged_line tags txt) = Ok ([] ++ map (tag_entry txt) tags)
  /\ (exists entries,
        parse_lrc stable_list_sort (tagged_line tags txt) = Ok entries
        /\ length entries = length tags
        /\ Permutation entries (map (tag_entry txt) tags)
        /\ (forall e, In e entries -> text e = strip txt)
        /\ timeline entries)
  /\ (forall raw, ~ In "["%char raw \/ ~ In "]"%char raw ->
        parse_line [] raw = Ok [] /\ parse_lrc stable_list_sort raw = Ok []).
Proof.
  intros tags txt.
  apply (tagged_line_parsed stable_list_sort tags txt []).
  - discriminate.
  - repeat constructor.
  - intros Hin. repeat (destruct Hin as [Hin|Hin]; [discriminate Hin|]). exact Hin.
  - intros c Hin.
    repeat (destruct Hin as [<-|Hin]; [reflexivity|]). contradiction.
Defined.

(** The claim as the specification words it fails on the text after
    the tags: it is stripped, and cut at its last closing bracket. *)
Lemma tagged_line_counterexample :
  parse_lrc stable_list_sort
    (tagged_line [tag "00" "12" "00"] (of_string "[Chorus] la la"))
  = Ok [mkLyricLine (float_lit 12) (of_string "la la")]
  /\ parse_lrc stable_list_sort
       (tagged_line [tag "00" "12" "00"] (of_string " la la"))
     = Ok [mkLyricLine (float_lit 12) (of_string "la la")]
  /\ of_string "la la" <> of_string "[Chorus] la la"
  /\ of_string "la la" <> of_string " la la".
Proof. repeat split; discriminate. Qed.

(** *** Lines that cannot hold a time *)

























(** ** The configuration *)

Lemma clamp_in_range (v lo hi : Z) : lo <= hi -> lo <= clamp v lo hi <= hi.
Proof.
  intros Hle. unfold clamp.
  destruct (Z.ltb_spec v lo); [lia|]. destruct (Z.ltb_spec hi v); lia.
Qed.

(** X1. [clamp] returns a value between its bounds whenever the bounds
    are in order, leaves a value in range unchanged and is idempotent;
    with the bounds out of order ([hi < lo]) it returns [lo] for a value
    below [lo] and [hi] for any other. *)
Theorem clamp_bounds (v lo hi : Z) :
  (lo <= hi -> lo <= clamp v lo hi <= hi)
  /\ (lo <= v <= hi -> clamp v lo hi = v)
  /\ (lo <= hi -> clamp (clamp v lo hi) lo hi = clamp v lo hi)
  /\ (hi < lo -> clamp v lo hi = if v <? lo then lo else hi).
Proof.
  unfold clamp. repeat split; intros; 
    repeat match goal with
    | |- context [?a <? ?b] => destruct (Z.ltb_spec a b)
    end; lia.
Qed.

(** *** Decimal numerals *)

Lemma digits_of_eq (n : Z) :
  digits_of n =
  if n <? 10 then [digit_char n]
  else digits_of (n / 10) ++ [digit_char (n mod 10)].
Proof.
  rewrite digits_of_equation_1.
  destruct (Logic.inspect (n <? 10)) as [[] H]; simp digits_of; rewrite H;
    reflexivity.
Qed.

Lemma digit_char_digit (d : Z) :
  0 <= d <= 9 -> is_digit (digit_char d) = true /\ digit_value (digit_char d) = d.
Proof.
  intros Hd.
  assert (d = 0 \/ d = 1 \/ d = 2 \/ d = 3 \/ d = 4 \/ d = 5 \/ d = 6
          \/ d = 7 \/ d = 8 \/ d = 9) as Hcases by lia.
  repeat (destruct Hcases as [->|Hcases]; [split; reflexivity|]).
  subst. split; reflexivity.
Qed.

Lemma decimal_value_app (ds : list ascii) (c : ascii) :
  decimal_value (ds ++ [c]) = 10 * decimal_value ds + digit_value c.
Proof. unfold decimal_value. rewrite fold_left_app. reflexivity. Qed.

(** The numeral of a natural number is made of digits and reads back
    as the number. *)
Lemma digits_of_spec (k : nat) : forall n,
  (Z.to_nat n <= k)%nat -> 0 <= n ->
  digits_of n <> []
  /\ Forall (fun c => is_digit c = true) (digits_of n)
  /\ decimal_value (digits_of n) = n.
Proof.
  induction k as [|k IH]; intros n Hk Hn; rewrite digits_of_eq;
    destruct (Z.ltb_spec n 10) as [Hsmall|Hbig]; try lia.
  - destruct (digit_char_digit n ltac:(lia)) as [Hd Hv].
    split; [discriminate|]. split; [repeat constructor; exact Hd|].
    unfold decimal_value. simpl. lia.
  - destruct (digit_char_digit n ltac:(lia)) as [Hd Hv].
    split; [discriminate|]. split; [repeat constructor; exact Hd|].
    unfold decimal_value. simpl. lia.
  - assert (n / 10 < n) by (apply Z.div_lt; lia).
    assert (0 <= n / 10) by (apply Z.div_pos; lia).
    destruct (IH (n / 10) ltac:(lia) ltac:(lia)) as [Hne [Hall Hval]].
    pose proof (Z.mod_pos_bound n 10 ltac:(lia)) as Hmod.
    destruct (digit_char_digit (n mod 10) ltac:(lia)) as [Hd Hv].
    split; [|split].
    + destruct (digits_of (n / 10)); discriminate.
    + apply Forall_app. split; [exact Hall | repeat constructor; exact Hd].
    + rewrite decimal_value_app, Hval, Hv.
      pose proof (Z.div_mod n 10 ltac:(lia)). lia.
Qed.

Lemma digit_not_c_space (c : ascii) :
  is_digit c = true -> is_c_space c = false.
Proof. intros H. apply (digit_facts c H). Qed.

Lemma digit_not_underscore (c : ascii) :
  is_digit c = true -> Ascii.eqb c "_"%char = false.
Proof. intros H. apply (digit_facts c H). Qed.

Lemma digit_not_sign (c : ascii) :
  is_digit c = true ->
  Ascii.eqb c "-"%char = false /\ Ascii.eqb c "+"%char = false.
Proof. intros H. split; apply (digit_facts c H). Qed.

Lemma to_ascii_space_digits (ds : list ascii) :
  Forall (fun c => is_digit c = true) ds -> map to_ascii_space ds = ds.
Proof.
  induction 1 as [|c ds Hc Hds IH]; [reflexivity|].
  simpl. rewrite IH. f_equal. apply (digit_facts c Hc).
Qed.

Lemma c_lstrip_head (c : ascii) (s : str) :
  is_c_space c = false -> c_lstrip (c :: s) = c :: s.
Proof. intros Hc. simpl. rewrite Hc. reflexivity. Qed.

(** Nothing is stripped from a text that begins and ends with
    characters that are not whitespace. *)
Lemma c_strip_tight (s : str) (first last : ascii) (middle : str) :
  s = first :: middle ++ [last] \/ (s = [first] /\ last = first) ->
  is_c_space first = false -> is_c_space last = false ->
  c_strip s = s.
Proof.
  intros Hs Hfirst Hlast. unfold c_strip. destruct Hs as [->|[-> ->]].
  - rewrite c_lstrip_head by exact Hfirst.
    change (first :: middle ++ [last]) with ((first :: middle) ++ [last]).
    rewrite rev_unit, c_lstrip_head by exact Hlast.
    rewrite <- rev_unit. apply rev_involutive.
  - rewrite c_lstrip_head by exact Hfirst. change (rev [first]) with [first].
    rewrite c_lstrip_head by exact Hfirst. reflexivity.
Qed.

Lemma digits_us_digits (ds : list ascii) :
  ds <> [] -> Forall (fun c => is_digit c = true) ds ->
  digits_us ds = Some ds.
Proof.
  intros Hne Hall. induction Hall as [|c ds Hc Hds IH]; [congruence|].
  simpl. rewrite Hc. destruct ds as [|d ds']; [reflexivity|].
  inversion Hds as [|? ? Hd Hds']; subst.
  rewrite (digit_not_underscore d Hd). rewrite IH by discriminate. reflexivity.
Qed.

Lemma digits_first_last (ds : list ascii) :
  ds <> [] -> Forall (fun c => is_digit c = true) ds ->
  exists first last middle,
    (ds = first :: middle ++ [last] \/ (ds = [first] /\ last = first))
    /\ is_digit first = true /\ is_digit last = true.
Proof.
  intros Hne Hall. destruct ds as [|first rest]; [congruence|].
  inversion Hall as [|? ? Hfirst Hrest]; subst.
  destruct rest as [|r rest'].
  - exists first, first, []. split; [right; split; reflexivity|]. split; assumption.
  - destruct (@exists_last _ (r :: rest') ltac:(discriminate)) as [middle [last Heq]].
    rewrite Heq in *. exists first, last, middle.
    split; [left; reflexivity|]. split; [exact Hfirst|].
    rewrite Forall_forall in Hrest. apply Hrest. apply in_or_app. right. left. reflexivity.
Qed.

(** [int] reads a plain numeral, signed or not, as its value. *)
Lemma py_int_numeral (ds : list ascii) :
  ds <> [] -> Forall (fun c => is_digit c = true) ds ->
  Z.of_nat (length ds) <= int_max_str_digits ->
  py_int ds = Ok (decimal_value ds)
  /\ py_int ("-"%char :: ds) = Ok (- decimal_value ds).
Proof.
  intros Hne Hall Hlen.
  destruct (digits_first_last ds Hne Hall) as [first [last [middle [Hshape [Hf Hl]]]]].
  pose proof (digit_not_c_space first Hf) as Hfs.
  pose proof (digit_not_c_space last Hl) as Hls.
  destruct (digit_not_sign first Hf) as [Hfm Hfp].
  assert ((int_max_str_digits <? Z.of_nat (length ds)) = false) as Hlimit
    by (apply Z.ltb_ge; exact Hlen).
  split.
  - unfold py_int. rewrite (to_ascii_space_digits ds Hall).
    rewrite (c_strip_tight ds first last middle Hshape Hfs Hls).
    assert (split_sign ds = (false, ds)) as ->.
    { destruct Hshape as [->|[-> _]]; simpl; rewrite Hfm, Hfp; reflexivity. }
    cbv beta iota. rewrite (digits_us_digits ds Hne Hall), Hlimit. reflexivity.
  - unfold py_int. simpl map. rewrite (to_ascii_space_digits ds Hall).
    change (to_ascii_space "-"%char) with "-"%char.
    rewrite (c_strip_tight ("-"%char :: ds) "-"%char last
               (removelast ds)).
    + simpl split_sign. cbv beta iota.
      rewrite (digits_us_digits ds Hne Hall), Hlimit. reflexivity.
    + left. f_equal. destruct Hshape as [->|[-> ->]].
      * change (first :: middle ++ [last]) with ((first :: middle) ++ [last]).
        rewrite removelast_last. reflexivity.
      * reflexivity.
    + reflexivity.
    + exact Hls.
Qed.

(** What [str] writes, [int] reads back. *)
Lemma py_int_str (z : Z) (s : str) :
  py_str_int z = Ok s -> py_int s = Ok z.
Proof.
  unfold py_str_int.
  destruct (digits_of_spec (Z.to_nat (Z.abs z)) (Z.abs z) ltac:(lia) ltac:(lia))
    as [Hne [Hall Hval]].
  destruct (Z.ltb_spec int_max_str_digits (Z.of_nat (length (digits_of (Z.abs z)))))
    as [Hlong|Hshort]; [discriminate|].
  intros Hs. inversion Hs; subst s. clear Hs.
  destruct (py_int_numeral _ Hne Hall Hshort) as [Hplus Hminus].
  destruct (Z.ltb_spec z 0).
  - rewrite Hminus, Hval. f_equal. lia.
  - rewrite Hplus, Hval. f_equal. lia.
Qed.

Lemma env_int_unset (env : environ) (key : str) (default : Z) :
  env key = None ->
  env_int env key default = default.
Proof.
  intros Hunset. unfold env_int, getenv. rewrite Hunset.
  destruct (py_str_int default) as [s|e] eqn:Hs; [|reflexivity].
  simpl. rewrite (py_int_str default s Hs). reflexivity.
Qed.

(** X2. [env_int] returns the default when the variable is unset and
    when its value does not read as an integer; a value that reads as an
    integer is returned (the default is written out by [str] before the
    variable is read, and that has to succeed); and what [str] writes
    for an integer, [env_int] reads back as that integer. *)
Theorem env_int_default (env : environ) (key : str) (default : Z) :
  (env key = None -> env_int env key default = default)
  /\ (forall v e, env key = Some v -> py_int v = Raise e ->
        env_int env key default = default)
  /\ (forall v z s, env key = Some v -> py_int v = Ok z ->
        py_str_int default = Ok s -> env_int env key default = z)
  /\ (forall z v s, env key = Some v -> py_str_int z = Ok v ->
        py_str_int default = Ok s -> env_int env key default = z).
Proof.
  unfold env_int, getenv. split; [|split; [|split]].
  - intros Hunset. rewrite Hunset.
    destruct (py_str_int default) as [s|e] eqn:Hs; [|reflexivity].
    simpl. rewrite (py_int_str default s Hs). reflexivity.
  - intros v e Hset Hbad. rewrite Hset.
    destruct (py_str_int default); simpl; [rewrite Hbad|]; reflexivity.
  - intros v z s Hset Hgood Hs. rewrite Hset, Hs. simpl. rewrite Hgood. reflexivity.
  - intros z v s Hset Hv Hs. rewrite Hset, Hs. simpl.
    rewrite (py_int_str z v Hv). reflexivity.
Qed.

Lemma clamp_bounds_witness : 11 <= clamp 40 11 24 <= 24 /\ clamp 12 11 24 = 12.
Proof.
  destruct (clamp_bounds 40 11 24) as [Hbounds _].
  destruct (clamp_bounds 12 11 24) as [_ [Hsame _]].
  split; [apply Hbounds; lia | apply Hsame; lia].
Defined.

Lemma env_int_default_witness :
  env_int (fun _ => None) (of_string "ALBUM_SIDE") 28 = 28
  /\ env_int (fun _ => Some (of_string "big")) (of_string "ALBUM_SIDE") 28 = 28
  /\ env_int (fun _ => Some (of_string " 30 ")) (of_string "ALBUM_SIDE") 28 = 30.
Proof.
  split; [|split].
  - apply (proj1 (env_int_default (fun _ => None) (of_string "ALBUM_SIDE") 28)).
    reflexivity.
  - apply (proj1 (proj2 (env_int_default (fun _ => Some (of_string "big"))
                           (of_string "ALBUM_SIDE") 28))
             (of_string "big") ValueError); reflexivity.
  - apply (proj1 (proj2 (proj2 (env_int_default
                                  (fun _ => Some (of_string " 30 "))
                                  (of_string "ALBUM_SIDE") 28)))
             (of_string " 30 ") 30 (of_string "28")); reflexivity.
Defined.

(** *** Fonts *)

Lemma split_last_after_sep (sep : ascii) (a b : str) :
  last (split sep (a ++ sep :: b)) [] = last (split sep b) [].
Proof.
  induction a as [|c a IH]; simpl.
  - rewrite Ascii.eqb_refl.
    destruct (split sep b) eqn:Hb; [exfalso; exact (split_nonempty sep b Hb)|].
    reflexivity.
  - destruct (Ascii.eqb c sep).
    + rewrite <- IH.
      destruct (split sep (a ++ sep :: b)) eqn:Hs;
        [exfalso; exact (split_nonempty sep _ Hs) | reflexivity].
    + rewrite <- IH.
      destruct (split sep (a ++ sep :: b)) as [|p ps] eqn:Hs;
        [exfalso; exact (split_nonempty sep _ Hs)|].
      destruct ps as [|q ps]; [|reflexivity].
      exfalso. clear IH. revert p Hs. induction a as [|d a IHa]; intros p Hs; simpl in Hs.
      * rewrite Ascii.eqb_refl in Hs. inversion Hs as [[Hp Hrest]].
        exact (split_nonempty sep b Hrest).
      * destruct (Ascii.eqb d sep).
        -- inversion Hs as [[Hp Hrest]]. exact (split_nonempty sep _ Hrest).
        -- destruct (split sep (a ++ sep :: b)) as [|p' ps'] eqn:Hs';
             [exact (split_nonempty sep _ Hs')|].
           inversion Hs; subst. apply (IHa p' eq_refl).
Qed.

Lemma basename_after_slash (dir name : str) :
  ~ In "/"%char name -> basename (dir ++ "/"%char :: name) = name.
Proof.
  intros Hname. unfold basename.
  rewrite split_last_after_sep, (split_no_sep _ name Hname). reflexivity.
Qed.

Lemma guess_char_px_range (font_path : str) :
  3 <= fst (guess_char_px font_path) <= 7
  /\ 6 <= snd (guess_char_px font_path) <= 14
  /\ fst (guess_char_px font_path) < snd (guess_char_px font_path).
Proof.
  unfold guess_char_px.
  repeat match goal with
  | |- context [if ?b then _ else _] => destruct b
  end; simpl; lia.
Qed.

(** X3. Every font path gets a character cell 3 to 7 pixels wide and 6
    to 14 pixels high, higher than wide; only the file name counts, not
    the directories before it. *)
Theorem guess_char_px_cell (font_path : str) :
  (let (w, h) := guess_char_px font_path in
   3 <= w <= 7 /\ 6 <= h <= 14 /\ w < h)
  /\ (forall dir name, ~ In "/"%char name ->
        guess_char_px (dir ++ "/"%char :: name) = guess_char_px name).
Proof.
  split.
  - pose proof (guess_char_px_range font_path) as Hcell.
    destruct (guess_char_px font_path) as [w h]. exact Hcell.
  - intros dir name Hname. unfold guess_char_px.
    rewrite (basename_after_slash dir name Hname).
    assert (basename name = name) as ->; [|reflexivity].
    unfold basename. rewrite (split_no_sep _ name Hname). reflexivity.
Qed.

(** *** Layout *)

Lemma py_floordiv_pos (a b : Z) : 0 < b -> py_floordiv a b = Ok (a / b).
Proof.
  intros Hb. unfold py_floordiv.
  replace (b =? 0) with false by (symmetry; apply Z.eqb_neq; lia). reflexivity.
Qed.

Lemma div_by_1000 (x : float) :
  Float.div x (float_lit 1000) = Ok (SFdiv Float.prec Float.emax x (float_lit 1000)).
Proof. reflexivity. Qed.

Lemma layout_inv (env : environ) (width height tw th lw lh : Z) (l : Layout) :
  0 < tw -> 0 < lw ->
  layout env width height (tw, th) (lw, lh) = Ok l ->
  right_x l = album l + 2
  /\ right_x l + right_w l = width
  /\ max_title_chars l = Z.max 1 (right_w l / tw)
  /\ max_lyric_chars l = Z.max 1 (right_w l / lw)
  /\ 1 <= gap_chars l /\ 1 <= title_cps l /\ 1 <= lyric_cps l.
Proof.
  intros Htw Hlw. unfold layout. rewrite !py_floordiv_pos by lia.
  destruct (Float.of_int (env_int env (of_string "LRC_OFFSET_MS") 0));
    [|discriminate].
  unfold bind at 1. rewrite div_by_1000. unfold bind.
  intros Heq. inversion Heq; subst l. clear Heq. simpl.
  repeat match goal with |- _ /\ _ => split end; try reflexivity; lia.
Qed.

(** X4. The layout that [main] computes before the loop, for font cells
    from [guess_char_px]. It raises only when LRC_OFFSET_MS is set to an
    integer too large for a float, and then [OverflowError]. Otherwise,
    whatever the environment and the size of the matrix: each line holds
    at least one character, the gap and both rates are at least 1, the
    poll interval is at least 300 ms, the right panel starts two pixels
    after the album and ends at the width of the matrix, the lyric
    baseline lies below the title baseline by at least the gap and the
    height of the lyric font, and below the album art; when one
    character fits the panel, so does a full line; and when the matrix
    is high enough, the title baseline lies between the height of the
    title font and [height - lh - 1]. *)
Theorem layout_guarantees (env : environ) (width height : Z)
  (title_path lyric_path : str) :
  match Float.of_int (env_int env (of_string "LRC_OFFSET_MS") 0) with
  | Raise e =>
      layout env width height (guess_char_px title_path)
        (guess_char_px lyric_path) = Raise e
      /\ e = OverflowError
      /\ env (of_string "LRC_OFFSET_MS") <> None
  | Ok offset_ms =>
      exists l,
        layout env width height (guess_char_px title_path)
          (guess_char_px lyric_path) = Ok l
        /\ 1 <= max_title_chars l /\ 1 <= max_lyric_chars l
        /\ 1 <= gap_chars l /\ 1 <= title_cps l /\ 1 <= lyric_cps l
        /\ 300 <= poll_ms l /\ 0 <= title_gap l
        /\ right_x l = album l + 2 /\ right_x l + right_w l = width
        /\ title_base l + title_gap l + snd (guess_char_px lyric_path)
           <= lyric_base l
        /\ title_base l < lyric_base l
        /\ album l < lyric_base l
        /\ (fst (guess_char_px title_path) <= right_w l ->
            max_title_chars l * fst (guess_char_px title_path) <= right_w l)
        /\ (fst (guess_char_px lyric_path) <= right_w l ->
            max_lyric_chars l * fst (guess_char_px lyric_path) <= right_w l)
        /\ (snd (guess_char_px title_path)
            <= height - snd (guess_char_px lyric_path) - 1 ->
            snd (guess_char_px title_path) <= title_base l
            /\ title_base l + snd (guess_char_px lyric_path) < height)
  end.
Proof.
  pose proof (guess_char_px_range title_path) as Ht.
  pose proof (guess_char_px_range lyric_path) as Hl.
  destruct (guess_char_px title_path) as [tw th].
  destruct (guess_char_px lyric_path) as [lw lh].
  simpl fst in Ht, Hl. simpl snd in Ht, Hl.
  destruct (Float.of_int (env_int env (of_string "LRC_OFFSET_MS") 0))
    as [offset_ms|e] eqn:Hoffset.
  - unfold layout. rewrite Hoffset, !py_floordiv_pos by lia.
    unfold bind at 1. rewrite div_by_1000. unfold bind.
    eexists. split; [reflexivity|]. simpl.
    pose proof (clamp_in_range (env_int env (of_string "TITLE_BASELINE_PX") 12)
                  th (height - lh - 1)) as Hclamp.
    repeat match goal with |- _ /\ _ => split end; try lia.
    + intros Hfit. rewrite Z.max_r.
      * rewrite Z.mul_comm. apply Z.mul_div_le. lia.
      * apply Z.div_le_lower_bound; lia.
    + intros Hfit. rewrite Z.max_r.
      * rewrite Z.mul_comm. apply Z.mul_div_le. lia.
      * apply Z.div_le_lower_bound; lia.
    + intros Hroom. specialize (Hclamp Hroom). simpl in Hclamp. lia.
  - split; [|split].
    + unfold layout. rewrite Hoffset. reflexivity.
    + unfold Float.of_int in Hoffset.
      destruct (binary_normalize _ _ _ _ _); congruence.
    + intros Hunset.
      rewrite (env_int_unset env (of_string "LRC_OFFSET_MS") 0 Hunset)
        in Hoffset.
      discriminate Hoffset.
Qed.

Lemma guess_char_px_cell_witness :
  guess_char_px (of_string "/home/pi/fonts/Tom-Thumb.bdf")
  = guess_char_px (of_string "Tom-Thumb.bdf")
  /\ guess_char_px (of_string "Tom-Thumb.bdf") = (3, 6).
Proof.
  split; [|reflexivity].
  apply (proj2 (guess_char_px_cell (of_string "Tom-Thumb.bdf"))
           (of_string "/home/pi/fonts") (of_string "Tom-Thumb.bdf")).
  intros Hin. repeat (destruct Hin as [Heq|Hin]; [discriminate Heq|]).
  exact Hin.
Defined.

Lemma layout_guarantees_witness :
  exists l,
    layout (fun _ => None) 64 32 (guess_char_px (of_string "6x10.bdf"))
      (guess_char_px (of_string "4x6.bdf")) = Ok l
    /\ max_title_chars l = 5 /\ max_lyric_chars l = 8
    /\ title_base l < lyric_base l.
Proof.
  assert (Float.of_int (env_int (fun _ => None) (of_string "LRC_OFFSET_MS") 0)
          = Ok (S754_zero false)) as Hoffset by reflexivity.
  pose proof (layout_guarantees (fun _ => None) 64 32 (of_string "6x10.bdf")
                (of_string "4x6.bdf")) as H.
  rewrite Hoffset in H.
  destruct H as [l [Hl [_ [_ [_ [_ [_ [_ [_ [_ [_ [_ [Hbase _]]]]]]]]]]]]].
  exists l. split; [exact Hl|].
  assert (Ok l = Ok l) as Hsame by reflexivity.
  rewrite <- Hl in Hsame at 1. vm_compute in Hsame. injection Hsame as <-.
  split; [reflexivity|]. split; [reflexivity|]. reflexivity.
Defined.

(** *** The queues of the render loop *)

Section LatestFacts.
Context {A : Type}.
Implicit Types (q : Queue A) (v : A).

Lemma drain_latest_eq (prev : A) q :
  drain_latest prev q =
  match get_nowait q with
  | (Ok x, q') => drain_latest x q'
  | (Raise QueueEmpty, q') => (Ok prev, q')
  | (Raise e, q') => (Raise e, q')
  end.
Proof.
  rewrite drain_latest_equation_1.
  destruct (Logic.inspect (get_nowait q)) as [[[x|e] q'] H];
    [rewrite drain_latest_clause_1_equation_1 | destruct e; simp drain_latest];
    rewrite H; reflexivity.
Qed.

Lemma last_cons_default (y : A) (l : list A) (d d' : A) :
  last (y :: l) d = last (y :: l) d'.
Proof.
  revert y. induction l as [|z l IH]; intros y; [reflexivity|].
  change (last (z :: l) d = last (z :: l) d'). apply IH.
Qed.

Lemma drain_latest_last (prev : A) q :
  drain_latest prev q = (Ok (last (items q) prev), mkQueue (maxsize q) []).
Proof.
  destruct q as [bound l]. simpl. revert prev.
  induction l as [|x l IH]; intros prev; rewrite drain_latest_eq.
  - reflexivity.
  - unfold get_nowait. cbn [items maxsize]. rewrite IH.
    destruct l as [|y l]; [reflexivity|].
    change (last (x :: y :: l) prev) with (last (y :: l) prev).
    rewrite (last_cons_default y l x prev). reflexivity.
Qed.

(** X5. The drain at the start of a frame empties the snapshot queue and
    keeps the newest pending snapshot, or the previous one when nothing
    is pending; after the poller has published once the drain yields
    that snapshot, after it has published twice only the second, and a
    later drain that finds nothing new keeps it. *)
Theorem drain_latest_newest (prev : A) q v1 v2 :
  drain_latest prev q = (Ok (last (items q) prev), mkQueue (maxsize q) [])
  /\ (items q = [] -> fst (drain_latest prev q) = Ok prev)
  /\ drain_latest prev (poller_publish v1 q)
     = (Ok v1, mkQueue (maxsize q) [])
  /\ drain_latest prev (poller_publish v2 (poller_publish v1 q))
     = (Ok v2, mkQueue (maxsize q) [])
  /\ fst (drain_latest v1 (snd (drain_latest prev (poller_publish v1 q))))
     = Ok v1.
Proof.
  split; [apply drain_latest_last|].
  split; [intros Hempty; rewrite drain_latest_last, Hempty; reflexivity|].
  rewrite !poller_publish_eq, !drain_latest_last. simpl.
  repeat split; reflexivity.
Qed.
End LatestFacts.

Lemma drain_latest_newest_witness :
  drain_latest 0 (mkQueue 2 [1; 2]) = (Ok 2, mkQueue 2 [])
  /\ fst (drain_latest 7 (mkQueue 2 [])) = Ok 7.
Proof.
  destruct (drain_latest_newest 0 (mkQueue 2 [1; 2]) 0 0) as [Hlast _].
  destruct (drain_latest_newest 7 (mkQueue 2 []) 0 0) as [_ [Hnone _]].
  split; [exact Hlast | apply Hnone; reflexivity].
Defined.

(** *** Stripping twice *)

Lemma lstrip_suffix (s : str) :
  exists sp, s = sp ++ lstrip s /\ Forall (fun c => is_space c = true) sp.
Proof.
  induction s as [|c s [sp [Hs Hsp]]]; [exists []; split; [reflexivity | constructor]|].
  simpl. destruct (is_space c) eqn:Hc.
  - exists (c :: sp). split; [simpl; f_equal; exact Hs | constructor; assumption].
  - exists []. split; [reflexivity | constructor].
Qed.

Lemma lstrip_head (s : str) (c : ascii) (r : str) :
  lstrip s = c :: r -> is_space c = false.
Proof.
  induction s as [|d s IH]; [discriminate|]. simpl.
  destruct (is_space d) eqn:Hd; [exact IH|].
  intros Heq. inversion Heq; subst. exact Hd.
Qed.

Lemma lstrip_fixed (c : ascii) (r : str) :
  is_space c = false -> lstrip (c :: r) = c :: r.
Proof. intros Hc. simpl. rewrite Hc. reflexivity. Qed.

(** A stripped text is empty, or begins and ends with characters that
    are not whitespace. *)
Lemma strip_shape (s : str) :
  strip s = []
  \/ exists first last middle,
       is_space first = false /\ is_space last = false
       /\ (strip s = [first] /\ last = first
           \/ strip s = first :: middle ++ [last]).
Proof.
  unfold strip, rstrip.
  destruct (lstrip s) as [|a y] eqn:Hy; [left; reflexivity|].
  pose proof (lstrip_head s a y Hy) as Ha.
  destruct (lstrip_suffix (rev (a :: y))) as [sp [Hrev Hsp]].
  destruct (lstrip (rev (a :: y))) as [|b z] eqn:Hz.
  - exfalso. rewrite app_nil_r in Hrev.
    assert (In a sp) as Hin by (rewrite <- Hrev; apply in_rev; rewrite rev_involutive; left; reflexivity).
    rewrite Forall_forall in Hsp. specialize (Hsp a Hin). congruence.
  - right. pose proof (lstrip_head _ b z Hz) as Hb.
    assert (a :: y = rev z ++ b :: rev sp) as Hshape.
    { rewrite <- (rev_involutive (a :: y)), Hrev, rev_app_distr. simpl.
      rewrite <- app_assoc. reflexivity. }
    simpl rev. destruct (rev z) as [|f m] eqn:Hm.
    + exists b, b, []. split; [exact Hb|]. split; [exact Hb|]. left.
      split; reflexivity.
    + exists f, b, m. simpl in Hshape. inversion Hshape; subst f.
      split; [exact Ha|]. split; [exact Hb|]. right. reflexivity.
Qed.

Lemma strip_idempotent (s : str) : strip (strip s) = strip s.
Proof.
  destruct (strip_shape s) as [->|[first [last [middle [Hf [Hl [[-> _]| ->]]]]]]].
  - reflexivity.
  - unfold strip, rstrip. rewrite lstrip_fixed by exact Hf.
    change (rev [first]) with [first]. rewrite lstrip_fixed by exact Hf. reflexivity.
  - unfold strip, rstrip. rewrite lstrip_fixed by exact Hf.
    change (first :: middle ++ [last]) with ((first :: middle) ++ [last]).
    rewrite rev_unit, lstrip_fixed by exact Hl.
    rewrite <- rev_unit. apply rev_involutive.
Qed.

Lemma strip_truthy_inv (s : str) :
  truthy (strip s) = true -> exists c, In c s /\ is_space c = false.
Proof.
  intros Ht. destruct (strip_shape s) as [He|[first [last [middle [Hf [_ Hshape]]]]]].
  - rewrite He in Ht. discriminate.
  - exists first. split; [|exact Hf].
    assert (In first (strip s)) as Hin
      by (destruct Hshape as [[-> _]| ->]; left; reflexivity).
    clear - Hin. unfold strip, rstrip in Hin.
    apply in_rev in Hin.
    destruct (lstrip_suffix (rev (lstrip s))) as [sp [Hrev _]].
    assert (In first (rev (lstrip s))) as Hin2
      by (rewrite Hrev; apply in_or_app; right; exact Hin).
    apply in_rev in Hin2.
    destruct (lstrip_suffix s) as [sp' [Hs _]].
    rewrite Hs. apply in_or_app. right. exact Hin2.
Qed.

(** *** The lookup follows the time *)

(** X6. On lines in time order, the index that [current_line_index]
    returns never goes back when the query time goes forward. *)
Theorem current_line_index_monotone (lrc : list LyricLine) (q1 q2 : float) :
  timeline lrc -> Float.leb q1 q2 = true ->
  exists i1 i2,
    current_line_index lrc q1 = Ok i1
    /\ current_line_index lrc q2 = Ok i2
    /\ i1 <= i2.
Proof.
  intros Hsorted Hq.
  destruct (current_line_index_sorted lrc q1 Hsorted)
    as [i1 [Hrun1 [Hrange1 [Hbelow1 _]]]].
  destruct (current_line_index_sorted lrc q2 Hsorted)
    as [i2 [Hrun2 [Hrange2 [_ Habove2]]]].
  exists i1, i2. split; [exact Hrun1|]. split; [exact Hrun2|].
  destruct (Z_le_gt_dec i1 i2) as [Hle|Hgt]; [exact Hle|]. exfalso.
  destruct (nth_error lrc (Z.to_nat i1)) as [line|] eqn:Hline.
  - assert (Float.leb (t line) q1 = true) as H1
      by (apply (Hbelow1 (Z.to_nat i1)); [lia | exact Hline]).
    assert (Float.leb (t line) q2 = false) as H2
      by (apply (Habove2 (Z.to_nat i1)); [lia | exact Hline]).
    rewrite (leb_trans _ _ _ H1 Hq) in H2. discriminate.
  - apply nth_error_None in Hline. lia.
Qed.

(** *** What the parser returns *)

Lemma parse_tag_text (tag lyric : str) (e : LyricLine) :
  parse_tag tag lyric = Ok e -> text e = lyric.
Proof.
  unfold parse_tag. destruct (split ":"%char tag) as [|m [|s [|x rest]]];
    try discriminate.
  destruct (py_int m); [|discriminate]. simpl.
  destruct (py_float s); [|discriminate]. simpl.
  destruct (Float.of_int _); [|discriminate]. simpl.
  intros H. inversion H. reflexivity.
Qed.

Lemma scan_parts_texts (lyric : str) (ps : list str) : forall out e,
  In e (scan_parts lyric out ps) -> In e out \/ text e = lyric.
Proof.
  unfold scan_parts. induction ps as [|p ps IH]; intros out e Hin; [left; exact Hin|].
  simpl in Hin. destruct (startswith "["%char p); [|apply IH; exact Hin].
  destruct (parse_tag _ lyric) as [e'|err] eqn:Htag; [|apply IH; exact Hin].
  destruct (IH _ _ Hin) as [Hout|Htext]; [|right; exact Htext].
  apply in_app_or in Hout. destruct Hout as [Hout|[<-|[]]].
  - left. exact Hout.
  - right. apply (parse_tag_text _ _ _ Htag).
Qed.

Lemma line_entries_stripped (raw : str) (e : LyricLine) :
  In e (line_entries raw) -> stripped (text e).
Proof.
  unfold line_entries, parse_line.
  destruct (negb (truthy (strip raw))); [intros []|].
  destruct (list_last_split (split "]"%char raw) (split_nonempty _ raw))
    as [init [last ->]].
  rewrite py_index_last, py_slice_init. simpl. intros Hin.
  destruct (scan_parts_texts _ _ _ _ Hin) as [ [] | -> ].
  apply strip_idempotent.
Qed.

Lemma sorted_lookup_last (lrc : list LyricLine) (q : float) :
  timeline lrc ->
  exists idx, current_line_index lrc q = Ok idx /\ last_at_or_before lrc q idx.
Proof.
  intros Hsorted.
  destruct (current_line_index_sorted lrc q Hsorted)
    as [idx [Hrun [Hrange [Hbelow Habove]]]].
  exists idx. split; [exact Hrun|].
  destruct (Z.eq_dec idx (-1)) as [Hnone|Hsome].
  - left. split; [exact Hnone|].
    intros i line Hnth. apply (Habove i line); [lia | exact Hnth].
  - right. split; [lia|]. split; [|exact Habove].
    destruct (nth_error lrc (Z.to_nat idx)) as [line|] eqn:Hnth.
    + exists line. split; [reflexivity|].
      apply (Hbelow (Z.to_nat idx) line); [lia | exact Hnth].
    + apply nth_error_None in Hnth. lia.
Qed.

(** X7. [parse_lrc] always returns. Its result is a rearrangement of the
    entries of the lines of the text, every lyric in it is stripped of
    whitespace at both ends, and when no timestamp is a NaN the result
    is in time order, so that [current_line_index] finds on it the last
    line at or before any time. *)
Theorem parse_lrc_timeline (sorter : ListSort) (text0 : str) :
  exists out,
    parse_lrc sorter text0 = Ok out
    /\ Permutation out (flat_map line_entries (splitlines text0))
    /\ (forall e, In e out -> stripped (text e))
    /\ ((forall e, In e out -> Float.is_nan (t e) = false) ->
        timeline out
        /\ forall q, exists idx,
             current_line_index out q = Ok idx
             /\ last_at_or_before out q idx).
Proof.
  exists (list_sort sorter (flat_map line_entries (splitlines text0))).
  pose proof (list_sort_perm sorter (flat_map line_entries (splitlines text0)))
    as Hperm.
  split; [apply parse_lrc_eq|]. split; [exact Hperm|]. split.
  - intros e He. apply (Permutation_in _ Hperm) in He.
    apply in_flat_map in He. destruct He as [raw [_ He]].
    apply (line_entries_stripped raw e He).
  - intros Hnan.
    assert (timeline (list_sort sorter
                        (flat_map line_entries (splitlines text0))))
      as Hsorted.
    { apply list_sort_sorted. intros e He. apply Hnan.
      apply (Permutation_in _ (Permutation_sym Hperm)). exact He. }
    split; [exact Hsorted|]. intros q.
    apply sorted_lookup_last. exact Hsorted.
Qed.

Lemma current_line_index_monotone_witness :
  timeline scenario_timeline
  /\ exists i1 i2,
       current_line_index scenario_timeline (float_lit 1) = Ok i1
       /\ current_line_index scenario_timeline (float_lit 5) = Ok i2
       /\ i1 <= i2.
Proof.
  assert (timeline scenario_timeline) as Hsorted by (repeat constructor).
  split; [exact Hsorted|].
  apply (current_line_index_monotone scenario_timeline (float_lit 1)
           (float_lit 5) Hsorted).
  reflexivity.
Defined.

Lemma parse_lrc_timeline_witness :
  exists out, parse_lrc stable_list_sort sample_lrc = Ok out /\ timeline out.
Proof.
  destruct (parse_lrc_timeline stable_list_sort sample_lrc)
    as [out [Hrun [_ [_ Hsorted]]]].
  exists out. split; [exact Hrun|]. apply Hsorted.
  assert (parse_lrc stable_list_sort sample_lrc
          = Ok [mkLyricLine (float_lit 1) (of_string "first");
                mkLyricLine (Float.of_decimal false 125 (-1))
                  (of_string "second")]) as Hvalue by reflexivity.
  rewrite Hvalue in Hrun. injection Hrun as <-.
  intros e [<-|[<-|[]]]; reflexivity.
Defined.

(** *** Lyrics from the service *)

Lemma space_of_linebreak (c : ascii) :
  is_linebreak c = true -> is_space c = true.
Proof.
  destruct c as [[] [] [] [] [] [] [] []]; intros H; try discriminate H;
    reflexivity.
Qed.

Lemma splitlines_covers_bounded (n : nat) : forall s c,
  (length s <= n)%nat -> In c s -> is_linebreak c = false ->
  exists l, In l (splitlines s) /\ In c l.
Proof.
  induction n as [|n IH]; intros s c Hlen Hc Hnb;
    destruct s as [|d s]; try contradiction; simpl in Hlen; [lia|].
  simpl. destruct (is_linebreak d) eqn:Hd.
  - destruct Hc as [->|Hc]; [congruence|].
    destruct s as [|d' s']; [contradiction|].
    destruct ((code d =? 13) && (code d' =? 10)) eqn:Hcrlf.
    + destruct Hc as [->|Hc].
      * apply andb_true_iff in Hcrlf. destruct Hcrlf as [_ Hlf].
        exfalso. clear - Hlf Hnb. destruct c as [[] [] [] [] [] [] [] []];
          try discriminate Hlf; discriminate Hnb.
      * destruct (IH s' c ltac:(simpl in Hlen; lia) Hc Hnb) as [l [Hl Hin]].
        exists l. split; [right; exact Hl | exact Hin].
    + destruct (IH (d' :: s') c ltac:(lia) Hc Hnb) as [l [Hl Hin]].
      exists l. split; [right; exact Hl | exact Hin].
  - destruct Hc as [->|Hc].
    + destruct (splitlines s) as [|l0 ls].
      * exists [c]. split; left; reflexivity.
      * exists (c :: l0). split; left; reflexivity.
    + destruct (IH s c ltac:(lia) Hc Hnb) as [l [Hl Hin]].
      destruct (splitlines s) as [|l0 ls]; [contradiction|].
      destruct Hl as [->|Hl].
      * exists (d :: l). split; [left; reflexivity | right; exact Hin].
      * exists l. split; [right; exact Hl | exact Hin].
Qed.

(** Every character that is not whitespace stands on a line. *)
Lemma splitlines_covers (s : str) (c : ascii) :
  In c s -> is_space c = false -> exists l, In l (splitlines s) /\ In c l.
Proof.
  intros Hc Hns. apply (splitlines_covers_bounded (length s)); [lia | exact Hc|].
  destruct (is_linebreak c) eqn:Hlb; [|reflexivity].
  apply space_of_linebreak in Hlb. congruence.
Qed.

Lemma fetch_lyrics_plain (sorter : ListSort) (outcome : HttpOutcome)
  (p : str) :
  snd (fetch_lyrics sorter outcome) = Some p ->
  fst (fetch_lyrics sorter outcome) = [] /\ truthy p = true /\ stripped p.
Proof.
  unfold fetch_lyrics.
  destruct outcome as [|status [data|]]; try discriminate;
    destruct (status =? 200); try discriminate.
  destruct (truthy (strip (or_empty (syncedLyrics data)))).
  - destruct (parse_lrc _); discriminate.
  - destruct (truthy (strip (or_empty (plainLyrics data)))) eqn:Hp;
      [|discriminate].
    simpl. intros Heq. inversion Heq; subst p.
    split; [reflexivity|]. split; [exact Hp | apply strip_idempotent].
Qed.

(** X8. [fetch_lyrics] never returns timed lines together with plain
    text. Plain text, when returned, is not empty, is stripped, and
    comes with no timed line; a reply of status 200 whose synced lyrics
    are not blank gives their parse and no plain text, even when nothing
    of them parses; any other status, a reply without a body and a
    failed request give no lyrics at all. *)
Theorem fetch_lyrics_exclusive (sorter : ListSort) (outcome : HttpOutcome) :
  (forall p, snd (fetch_lyrics sorter outcome) = Some p ->
     fst (fetch_lyrics sorter outcome) = [] /\ truthy p = true /\ stripped p)
  /\ (fst (fetch_lyrics sorter outcome) <> [] -> snd (fetch_lyrics sorter outcome) = None)
  /\ (forall data,
        outcome = Reply 200 (Some data) ->
        truthy (strip (or_empty (syncedLyrics data))) = true ->
        parse_lrc sorter (strip (or_empty (syncedLyrics data)))
        = Ok (fst (fetch_lyrics sorter outcome))
        /\ snd (fetch_lyrics sorter outcome) = None)
  /\ (forall status body, outcome = Reply status body ->
        status <> 200 \/ body = None ->
        fetch_lyrics sorter outcome = ([], None))
  /\ (outcome = NetError -> fetch_lyrics sorter outcome = ([], None)).
Proof.
  split; [|split; [|split; [|split]]].
  - apply fetch_lyrics_plain.
  - unfold fetch_lyrics.
    destruct outcome as [|status [data|]]; try reflexivity;
      destruct (status =? 200); try reflexivity.
    destruct (truthy (strip (or_empty (syncedLyrics data)))).
    + destruct (parse_lrc _); reflexivity.
    + destruct (truthy (strip (or_empty (plainLyrics data)))); simpl;
        [congruence | reflexivity].
  - intros data -> Hsynced. unfold fetch_lyrics. simpl (200 =? 200).
    cbv iota zeta. rewrite Hsynced.
    rewrite parse_lrc_eq. split; reflexivity.
  - intros status body -> Hbad. unfold fetch_lyrics.
    destruct (Z.eqb_spec status 200) as [->|Hne]; [|reflexivity].
    destruct Hbad as [Hbad| ->]; [congruence | reflexivity].
  - intros ->. reflexivity.
Qed.

Lemma plain_lines_each (plain : option str) (ls : list str) (l : str) :
  plain_lines_of plain = Some ls -> In l ls ->
  truthy l = true /\ stripped l.
Proof.
  unfold plain_lines_of. destruct plain as [p|]; [|discriminate].
  destruct (truthy p); [|discriminate].
  intros Heq Hin. inversion Heq; subst ls. clear Heq.
  apply in_map_iff in Hin. destruct Hin as [ln [<- Hln]].
  apply filter_In in Hln. destruct Hln as [_ Hln].
  split; [exact Hln | apply strip_idempotent].
Qed.

Lemma lstrip_subset (s : str) (c : ascii) : In c (lstrip s) -> In c s.
Proof.
  intros Hin. destruct (lstrip_suffix s) as [sp [Hs _]].
  rewrite Hs. apply in_or_app. right. exact Hin.
Qed.

Lemma strip_subset (s : str) (c : ascii) : In c (strip s) -> In c s.
Proof.
  unfold strip, rstrip. intros Hin.
  apply in_rev in Hin. apply lstrip_subset in Hin.
  apply in_rev in Hin. apply lstrip_subset in Hin. exact Hin.
Qed.

Lemma plain_lines_fetched (sorter : ListSort) (outcome : HttpOutcome)
  (ls : list str) :
  plain_lines_of (snd (fetch_lyrics sorter outcome)) = Some ls ->
  ls <> []
  /\ (forall l, In l ls -> truthy l = true /\ stripped l)
  /\ fst (fetch_lyrics sorter outcome) = [].
Proof.
  intros Hls. split; [|split].
  - destruct (snd (fetch_lyrics sorter outcome)) as [p|] eqn:Hplain; [|discriminate].
    destruct (fetch_lyrics_plain sorter outcome p Hplain) as [_ [Hp Hstripped]].
    unfold plain_lines_of in Hls. rewrite Hp in Hls. inversion Hls; subst ls.
    assert (exists c, In c p /\ is_space c = false) as [c [Hc Hns]].
    { apply strip_truthy_inv. rewrite Hstripped. exact Hp. }
    destruct (splitlines_covers p c Hc Hns) as [l [Hl Hin]].
    assert (In (strip l)
              (map strip (filter (fun ln => truthy (strip ln)) (splitlines p))))
      as Hmember.
    { apply in_map. apply filter_In. split; [exact Hl|].
      apply (strip_truthy l c Hin Hns). }
    intros Hnil. rewrite Hnil in Hmember. contradiction.
  - intros l Hl. apply (plain_lines_each _ ls l Hls Hl).
  - destruct (snd (fetch_lyrics sorter outcome)) as [p|] eqn:Hplain; [|discriminate].
    apply (fetch_lyrics_plain sorter outcome p Hplain).
Qed.

(** X9. The plain lines that [Fetcher.run] stores for the plain text of
    [fetch_lyrics]: there is at least one line, no line is empty, each
    is stripped, no timed line comes with them, and their characters are
    characters of the plain text. *)
Theorem plain_lines_nonblank (sorter : ListSort) (outcome : HttpOutcome)
  (ls : list str) :
  plain_lines_of (snd (fetch_lyrics sorter outcome)) = Some ls ->
  ls <> []
  /\ (forall l, In l ls -> truthy l = true /\ stripped l)
  /\ fst (fetch_lyrics sorter outcome) = []
  /\ (forall c, In c (concat ls) ->
        exists p, snd (fetch_lyrics sorter outcome) = Some p /\ In c p).
Proof.
  intros Hls.
  destruct (plain_lines_fetched sorter outcome ls Hls) as [Hne [Hlines Hlrc]].
  split; [exact Hne|]. split; [exact Hlines|]. split; [exact Hlrc|].
  intros c Hc. unfold plain_lines_of in Hls.
  destruct (snd (fetch_lyrics sorter outcome)) as [p|]; [|discriminate].
  exists p. split; [reflexivity|].
  destruct (truthy p); [|discriminate]. inversion Hls; subst ls. clear Hls.
  apply in_concat in Hc. destruct Hc as [l [Hl Hcl]].
  apply in_map_iff in Hl. destruct Hl as [ln [<- Hln]].
  apply filter_In in Hln. destruct Hln as [Hln _].
  apply (splitlines_pieces_in p ln c Hln). apply (strip_subset ln c Hcl).
Qed.

Lemma plain_lines_nonblank_witness :
  plain_lines_of (snd (fetch_lyrics stable_list_sort plain_reply))
  = Some [of_string "la la"; of_string "second line"]
  /\ [of_string "la la"; of_string "second line"] <> []
  /\ (forall l, In l [of_string "la la"; of_string "second line"] ->
        truthy l = true /\ stripped l)
  /\ fst (fetch_lyrics stable_list_sort plain_reply) = [].
Proof.
  split; [reflexivity|].
  destruct (plain_lines_nonblank stable_list_sort plain_reply
              [of_string "la la"; of_string "second line"] eq_refl)
    as [H1 [H2 [H3 _]]].
  split; [exact H1|]. split; [exact H2 | exact H3].
Defined.

Lemma fetch_lyrics_exclusive_witness :
  fetch_lyrics stable_list_sort plain_reply
  = ([], Some (of_string "la la" ++ ["010"; "010"]%char
               ++ of_string "  second line"))
  /\ stripped (of_string "la la" ++ ["010"; "010"]%char
               ++ of_string "  second line").
Proof.
  split; [reflexivity|].
  apply (proj1 (fetch_lyrics_exclusive stable_list_sort plain_reply)
           (of_string "la la" ++ ["010"; "010"]%char
            ++ of_string "  second line")).
  reflexivity.
Defined.

(** *** The frame *)

Lemma cycle_steps_default (tick : Z) :
  0 <= tick < ten_minute_ticks ->
  cycle_steps tick target_fps = Ok (tick / 60).
Proof.
  intros Htick.
  assert (cycle_exact tick = true) as Hexact.
  { apply (all_from_spec cycle_exact (Z.to_nat ten_minute_ticks) 0);
      [vm_compute; reflexivity | unfold ten_minute_ticks in *; lia]. }
  unfold cycle_exact in Hexact.
  destruct (cycle_steps tick target_fps) as [k|e]; [|discriminate].
  apply Z.eqb_eq in Hexact. congruence.
Qed.

Lemma window_in {A : Type} (l : list A) (a n : Z) (x : A) :
  In x (window l a n) -> In x l.
Proof.
  unfold window. intros Hin.
  rewrite <- (firstn_skipn (Z.to_nat a) l). apply in_or_app. right.
  rewrite <- (firstn_skipn (Z.to_nat n) (skipn (Z.to_nat a) l)).
  apply in_or_app. left. exact Hin.
Qed.

Lemma marquee_loop_in (text : str) (gap : Z) (c : ascii) :
  In c (marquee_loop text gap) -> In c text \/ c = " "%char.
Proof.
  unfold marquee_loop. intros Hin.
  apply in_app_or in Hin. destruct Hin as [Hin|Hin]; [left; exact Hin|].
  apply in_app_or in Hin. destruct Hin as [Hin|Hin]; [|left; exact Hin].
  right. apply (repeat_spec _ _ _ Hin).
Qed.

Lemma marquee_slice_tick_shape (text : str) (max_chars tick : Z) (cps : float)
  (gap : Z) (fps : float) (s : str) :
  0 <= max_chars -> 0 <= gap ->
  marquee_slice_tick text max_chars tick cps gap fps = Ok s ->
  Z.of_nat (length s) = Z.min (Z.of_nat (length text)) max_chars
  /\ (forall c, In c s -> In c text \/ c = " "%char).
Proof.
  intros Hmax Hgap Hrun.
  destruct (Z.leb_spec (Z.of_nat (length text)) max_chars) as [Hfits|Hlong].
  - unfold marquee_slice_tick in Hrun.
    replace (Z.of_nat (length text) <=? max_chars) with true in Hrun
      by (symmetry; apply Z.leb_le; exact Hfits).
    inversion Hrun; subst s. split; [lia|]. intros c Hc. left. exact Hc.
  - destruct (scroll_steps tick cps fps) as [steps|e] eqn:Hsteps.
    + rewrite (marquee_slice_tick_scrolls text max_chars tick cps gap fps steps
                 Hlong Hmax Hgap Hsteps) in Hrun.
      inversion Hrun; subst s. clear Hrun.
      pose proof (Z.mod_pos_bound steps (Z.of_nat (length text) + gap)
                    ltac:(lia)) as Hoffset.
      pose proof (marquee_loop_length text gap Hgap) as Hloop.
      split.
      * rewrite window_length by lia. lia.
      * intros c Hc. apply (marquee_loop_in text gap).
        apply (window_in _ _ _ _ Hc).
    + unfold marquee_slice_tick in Hrun.
      replace (Z.of_nat (length text) <=? max_chars) with false in Hrun
        by (symmetry; apply Z.leb_gt; exact Hlong).
      rewrite Hsteps in Hrun. discriminate Hrun.
Qed.

Lemma of_int_raises (z : Z) (e : exn) :
  Float.of_int z = Raise e -> e = OverflowError.
Proof.
  unfold Float.of_int.
  destruct (binary_normalize Float.prec Float.emax z 0 false); congruence.
Qed.

Lemma to_int_raises (x : float) (e : exn) :
  Float.to_int x = Raise e -> e = OverflowError \/ e = ValueError.
Proof.
  destruct x; simpl; intros H; inversion H; auto.
Qed.

Lemma div_raises (x y : float) (e : exn) :
  Float.div x y = Raise e -> e = ZeroDivisionError.
Proof.
  unfold Float.div. destruct (Float.is_zero y); congruence.
Qed.

Lemma scroll_steps_raises (tick : Z) (cps fps : float) (e : exn) :
  scroll_steps tick cps fps = Raise e ->
  e = ZeroDivisionError \/ e = OverflowError \/ e = ValueError.
Proof.
  unfold scroll_steps.
  destruct (Float.div cps fps) as [step|e1] eqn:Hdiv; simpl.
  - destruct (Float.of_int tick) as [tickf|e2] eqn:Htick; simpl.
    + intros Hint. apply to_int_raises in Hint. tauto.
    + intros Heq. inversion Heq; subst e2. apply of_int_raises in Htick. tauto.
  - intros Heq. inversion Heq; subst e1. apply div_raises in Hdiv. tauto.
Qed.

(** X10. With [max_chars >= 0] and [gap >= 0], what [marquee_slice_tick]
    returns has min(len(text), max_chars) characters, each of them a
    character of the text or a space; it raises only for a text that
    does not fit, and then what the step count raises:
    [ZeroDivisionError], [OverflowError] or [ValueError]. *)
Theorem marquee_slice_tick_length (text : str) (max_chars tick : Z)
  (cps : float) (gap : Z) (fps : float) :
  0 <= max_chars -> 0 <= gap ->
  match marquee_slice_tick text max_chars tick cps gap fps with
  | Ok s =>
      Z.of_nat (length s) = Z.min (Z.of_nat (length text)) max_chars
      /\ (forall c, In c s -> In c text \/ c = " "%char)
  | Raise e =>
      max_chars < Z.of_nat (length text)
      /\ scroll_steps tick cps fps = Raise e
      /\ (e = ZeroDivisionError \/ e = OverflowError \/ e = ValueError)
  end.
Proof.
  intros Hmax Hgap.
  destruct (marquee_slice_tick text max_chars tick cps gap fps) as [s|e] eqn:Hrun.
  - apply (marquee_slice_tick_shape text max_chars tick cps gap fps s Hmax Hgap Hrun).
  - unfold marquee_slice_tick in Hrun.
    destruct (Z.leb_spec (Z.of_nat (length text)) max_chars) as [Hfits|Hlong];
      [discriminate Hrun|].
    split; [exact Hlong|].
    destruct (scroll_steps tick cps fps) as [steps|e'] eqn:Hsteps.
    + exfalso. simpl in Hrun. unfold py_mod in Hrun.
      replace (Z.of_nat (length text) + gap =? 0) with false in Hrun
        by (symmetry; apply Z.eqb_neq; lia).
      discriminate Hrun.
    + simpl in Hrun. inversion Hrun; subst e'. split; [reflexivity|].
      apply (scroll_steps_raises tick cps fps e Hsteps).
Qed.

Lemma marquee_slice_tick_length_witness :
  marquee_slice_tick (of_string "abcdef") 3 150 (float_lit 11) 1 (float_lit 30)
  = Ok (of_string "f a")
  /\ Z.of_nat (length (of_string "f a")) = Z.min 6 3.
Proof.
  split; [reflexivity|].
  pose proof (marquee_slice_tick_length (of_string "abcdef") 3 150 (float_lit 11)
                1 (float_lit 30) ltac:(lia) ltac:(lia)) as H.
  assert (marquee_slice_tick (of_string "abcdef") 3 150 (float_lit 11) 1
            (float_lit 30) = Ok (of_string "f a")) as Hrun by reflexivity.
  rewrite Hrun in H. apply H.
Defined.

Lemma marquee_slice_tick_int_shape (text : str) (max_chars tick cps gap : Z)
  (fps : float) (s : str) :
  0 <= max_chars -> 0 <= gap ->
  marquee_slice_tick_int text max_chars tick cps gap fps = Ok s ->
  Z.of_nat (length s) = Z.min (Z.of_nat (length text)) max_chars
  /\ (forall c, In c s -> In c text \/ c = " "%char).
Proof.
  intros Hmax Hgap. unfold marquee_slice_tick_int.
  destruct (Z.leb_spec (Z.of_nat (length text)) max_chars) as [Hfits|Hlong].
  - intros Heq. inversion Heq; subst s. split; [lia|]. intros c Hc. left. exact Hc.
  - destruct (Float.of_int cps) as [cpsf|e]; [|discriminate]. simpl.
    apply marquee_slice_tick_shape; assumption.
Qed.

(** X11. The title of a frame, under a layout that [main] computed: the
    text drawn has between one and [max_title_chars] characters; a title
    that fits is drawn whole (an empty one as "(untitled)"); a longer
    one is drawn as [max_title_chars] characters at the left edge of the
    right panel; and when the panel is at least one character wide the
    text lies inside the panel, a title that fits being centred, its two
    margins differing by at most one pixel. *)
Theorem title_draw_inside (env : environ) (width height : Z)
  (title_path lyric_path : str) (l : Layout) (title : str) (tick x : Z)
  (s : str) :
  layout env width height (guess_char_px title_path) (guess_char_px lyric_path)
  = Ok l ->
  title_draw l (fst (guess_char_px title_path)) title tick = Ok (x, s) ->
  let tw := fst (guess_char_px title_path) in
  let ttxt := if truthy title then title else untitled in
  let px := Z.of_nat (length s) * tw in
  1 <= Z.of_nat (length s) <= max_title_chars l
  /\ (Z.of_nat (length ttxt) <= max_title_chars l -> s = ttxt)
  /\ (max_title_chars l < Z.of_nat (length ttxt) ->
      x = right_x l /\ Z.of_nat (length s) = max_title_chars l)
  /\ (tw <= right_w l ->
      right_x l <= x /\ x + px <= width
      /\ (Z.of_nat (length ttxt) <= max_title_chars l ->
          x - right_x l <= width - (x + px) <= x - right_x l + 1)).
Proof.
  intros Hlayout Hdraw tw ttxt px.
  pose proof (guess_char_px_range title_path) as Ht.
  pose proof (guess_char_px_range lyric_path) as Hl.
  subst tw.
  destruct (guess_char_px title_path) as [tw0 th] eqn:Htitle.
  destruct (guess_char_px lyric_path) as [lw lh] eqn:Hlyric.
  simpl fst in *. simpl snd in *.
  destruct (layout_inv env width height tw0 th lw lh l ltac:(lia) ltac:(lia)
              Hlayout)
    as [Hrx [Hwidth [Hmax [_ [Hgap [_ _]]]]]].
  assert (1 <= Z.of_nat (length ttxt)) as Hnonempty.
  { unfold ttxt. destruct title as [|c title]; simpl; lia. }
  assert (1 <= max_title_chars l) as Hmax1 by lia.
  assert (tw0 <= right_w l -> max_title_chars l * tw0 <= right_w l) as Hcols.
  { intros Hfit. rewrite Hmax, Z.max_r by (apply Z.div_le_lower_bound; lia).
    rewrite Z.mul_comm. apply Z.mul_div_le. lia. }
  unfold title_draw in Hdraw. simpl fst in Hdraw. fold ttxt in Hdraw.
  destruct (Z.leb_spec (Z.of_nat (length ttxt)) (max_title_chars l))
    as [Hfits|Hlong].
  - inversion Hdraw; subst x s. clear Hdraw. fold px.
    split; [lia|]. split; [reflexivity|]. split; [lia|].
    intros Hfit. specialize (Hcols Hfit).
    assert (px <= right_w l) as Hpx by (unfold px; nia).
    pose proof (Z.div_mod (right_w l - px) 2 ltac:(lia)) as Hdm.
    pose proof (Z.mod_pos_bound (right_w l - px) 2 ltac:(lia)) as Hmod.
    repeat match goal with |- _ /\ _ => split end; try lia.
  - destruct (marquee_slice_tick_int ttxt (max_title_chars l) tick (title_cps l)
                (gap_chars l) target_fps) as [tdraw|e] eqn:Hrun;
      [|discriminate Hdraw].
    simpl in Hdraw. inversion Hdraw; subst x s. clear Hdraw.
    destruct (marquee_slice_tick_int_shape ttxt (max_title_chars l) tick
                (title_cps l) (gap_chars l) target_fps tdraw
                ltac:(lia) ltac:(lia) Hrun) as [Hlen _].
    rewrite Z.min_r in Hlen by lia.
    split; [lia|]. split; [lia|]. split; [split; [reflexivity | exact Hlen]|].
    intros Hfit. specialize (Hcols Hfit). unfold px. rewrite Hlen.
    repeat match goal with |- _ /\ _ => split end; try lia.
Qed.

Lemma title_draw_inside_witness :
  title_draw default_layout 6 (of_string "Hello") 0 = Ok (32, of_string "Hello")
  /\ 30 <= 32 /\ 32 + 5 * 6 <= 64.
Proof.
  split; [reflexivity|].
  assert (guess_char_px (of_string "/home/pi/fonts/6x10.bdf") = (6, 11)) as Hcell
    by reflexivity.
  pose proof (title_draw_inside no_env 64 32
                (of_string "/home/pi/fonts/6x10.bdf") (of_string "4x6.bdf")
                default_layout (of_string "Hello") 0 32 (of_string "Hello")) as H.
  rewrite Hcell in H. specialize (H eq_refl eq_refl).
  cbv zeta in H. destruct H as [_ [_ [_ H]]].
  destruct H as [H1 [H2 _]]; [simpl; lia|].
  split; [exact H1 | exact H2].
Defined.

Lemma line_now_shown (lrc : list LyricLine) (artists_joined : str) (q : float) :
  exists s, line_now lrc artists_joined q = Ok s
    /\ (s = artists_joined \/ exists line, In line lrc /\ s = text line).
Proof.
  assert (exists idx, current_line_index lrc q = Ok idx
                      /\ -1 <= idx < Z.of_nat (length lrc)) as [idx [Hrun Hrange]].
  { unfold current_line_index. destruct lrc as [|line0 rest] eqn:Hlrc.
    - exists (-1). simpl. split; [reflexivity | lia].
    - rewrite <- Hlrc.
      replace (negb (truthy lrc)) with false by (subst; reflexivity).
      apply (search_loop_range lrc q (length lrc)); subst lrc; simpl length; lia. }
  unfold line_now. rewrite Hrun. simpl.
  destruct (Z.leb_spec 0 idx) as [Hpos|Hneg].
  - destruct (py_index_in_range lrc idx ltac:(lia)) as [line [Hline Hnth]].
    rewrite Hline. simpl. exists (text line). split; [reflexivity|].
    right. exists line. split; [|reflexivity].
    apply (nth_error_In _ _ Hnth).
  - exists artists_joined. split; [reflexivity | left; reflexivity].
Qed.

Lemma plain_line_shown (pl : list str) (artists_joined : str) (t_sec : float)
  (tick k : Z) :
  pl <> [] -> cycle_steps tick target_fps = Ok k ->
  exists s, frame_lyric [] (Some pl) artists_joined t_sec tick = Ok s
    /\ nth_error pl (Z.to_nat (k mod Z.of_nat (length pl))) = Some s.
Proof.
  intros Hpl Hk. unfold frame_lyric. simpl (truthy []). cbv iota.
  replace (truthy pl) with true by (destruct pl; [contradiction | reflexivity]).
  rewrite Hk. simpl. unfold py_mod.
  assert (0 < Z.of_nat (length pl)) as Hlen
    by (destruct pl; [contradiction | simpl; lia]).
  replace (Z.of_nat (length pl) =? 0) with false
    by (symmetry; apply Z.eqb_neq; lia).
  simpl.
  pose proof (Z.mod_pos_bound k (Z.of_nat (length pl)) Hlen) as Hwhich.
  destruct (py_index_in_range pl (k mod Z.of_nat (length pl)) Hwhich)
    as [s [Hs Hnth]].
  exists s. split; [exact Hs | exact Hnth].
Qed.

(** X12. The lyric text of a frame. With timed lyrics it is always
    found, and is the text of one of the lines or the artists; with
    neither timed nor plain lines it is the artists; with plain lines
    only it is the line whose index is the count of two-second periods
    [int((tick / 30.0) / 2)] modulo the number of lines, and the frame
    raises exactly when that count does. *)
Theorem frame_lyric_source (lrc : list LyricLine)
  (plain_lines : option (list str)) (artists_joined : str) (t_sec : float)
  (tick : Z) :
  (lrc <> [] ->
   exists s,
     frame_lyric lrc plain_lines artists_joined t_sec tick = Ok s
     /\ (s = artists_joined \/ exists line, In line lrc /\ s = text line))
  /\ (lrc = [] -> plain_lines = None \/ plain_lines = Some [] ->
      frame_lyric lrc plain_lines artists_joined t_sec tick = Ok artists_joined)
  /\ (lrc = [] -> forall pl, plain_lines = Some pl -> pl <> [] ->
      match cycle_steps tick target_fps with
      | Ok k =>
          exists s,
            frame_lyric lrc plain_lines artists_joined t_sec tick = Ok s
            /\ nth_error pl (Z.to_nat (k mod Z.of_nat (length pl))) = Some s
      | Raise e =>
          frame_lyric lrc plain_lines artists_joined t_sec tick = Raise e
      end).
Proof.
  split; [|split].
  - intros Hlrc. unfold frame_lyric.
    replace (truthy lrc) with true by (destruct lrc; [contradiction | reflexivity]).
    apply line_now_shown.
  - intros -> [->| ->]; reflexivity.
  - intros -> pl -> Hpl.
    destruct (cycle_steps tick target_fps) as [k|e] eqn:Hk.
    + apply (plain_line_shown pl artists_joined t_sec tick k Hpl Hk).
    + unfold frame_lyric. simpl (truthy []). cbv iota.
      replace (truthy pl) with true by (destruct pl; [contradiction | reflexivity]).
      rewrite Hk. reflexivity.
Qed.

Lemma frame_lyric_source_witness :
  exists s,
    frame_lyric [] (Some [of_string "la la"; of_string "second line";
                          of_string "third"]) (of_string "Artist")
      (float_lit 0) 150 = Ok s
    /\ s = of_string "third".
Proof.
  destruct (frame_lyric_source []
              (Some [of_string "la la"; of_string "second line";
                     of_string "third"]) (of_string "Artist") (float_lit 0)
              150) as [_ [_ Hplain]].
  specialize (Hplain eq_refl _ eq_refl ltac:(discriminate)).
  assert (cycle_steps 150 target_fps = Ok 2) as Hk by reflexivity.
  rewrite Hk in Hplain. destruct Hplain as [s [Hs Hnth]].
  exists s. split; [exact Hs|].
  vm_compute in Hnth. injection Hnth as <-. reflexivity.
Defined.

(** X13. During the first ten minutes (ticks 0 to 17999), plain lines
    are shown in turn, each for 60 ticks: at [tick] the line of index
    [(tick / 60) mod len]; two ticks whose periods differ by a multiple
    of the number of lines show the same line. *)
Theorem plain_lines_in_turn (pl : list str) (artists_joined : str)
  (t_sec : float) (tick : Z) :
  pl <> [] -> 0 <= tick < ten_minute_ticks ->
  exists s,
    frame_lyric [] (Some pl) artists_joined t_sec tick = Ok s
    /\ nth_error pl (Z.to_nat ((tick / 60) mod Z.of_nat (length pl))) = Some s
    /\ (forall t_sec' tick', 0 <= tick' < ten_minute_ticks ->
          (tick' / 60 - tick / 60) mod Z.of_nat (length pl) = 0 ->
          frame_lyric [] (Some pl) artists_joined t_sec' tick' = Ok s).
Proof.
  intros Hpl Htick.
  destruct (plain_line_shown pl artists_joined t_sec tick (tick / 60) Hpl
              (cycle_steps_default tick Htick)) as [s [Hs Hnth]].
  exists s. split; [exact Hs|]. split; [exact Hnth|].
  intros t_sec' tick' Htick' Hsame.
  destruct (plain_line_shown pl artists_joined t_sec' tick' (tick' / 60) Hpl
              (cycle_steps_default tick' Htick')) as [s' [Hs' Hnth']].
  rewrite Hs'. f_equal.
  assert (0 < Z.of_nat (length pl)) as Hlen
    by (destruct pl; [contradiction | simpl; lia]).
  assert ((tick' / 60) mod Z.of_nat (length pl)
          = (tick / 60) mod Z.of_nat (length pl)) as Hmod.
  { replace (tick' / 60) with (tick / 60 + (tick' / 60 - tick / 60)) by lia.
    rewrite Z.add_mod, Hsame, Z.add_0_r, Z.mod_mod by lia. reflexivity. }
  rewrite Hmod in Hnth'. congruence.
Qed.

Lemma plain_lines_in_turn_witness :
  exists s,
    frame_lyric [] (Some [of_string "la la"; of_string "second line"])
      (of_string "Artist") (float_lit 0) 119 = Ok s
    /\ s = of_string "second line".
Proof.
  destruct (plain_lines_in_turn [of_string "la la"; of_string "second line"]
              (of_string "Artist") (float_lit 0) 119 ltac:(discriminate)
              ltac:(unfold ten_minute_ticks; lia)) as [s [Hs [Hnth _]]].
  exists s. split; [exact Hs|].
  vm_compute in Hnth. injection Hnth as <-. reflexivity.
Defined.

(** X14. The lyric line of a frame, under a layout that [main] computed:
    it is drawn at the left edge of the right panel, it has min(len,
    max_lyric_chars) characters, each a character of the text chosen for
    the frame or a space, it is that text itself when the text fits, and
    it ends within the width of the matrix when the panel is at least
    one character wide. *)
Theorem lyric_draw_inside (env : environ) (width height : Z)
  (title_path lyric_path : str) (l : Layout) (lrc : list LyricLine)
  (plain_lines : option (list str)) (artists_joined : str) (t_sec : float)
  (tick x : Z) (s : str) :
  layout env width height (guess_char_px title_path) (guess_char_px lyric_path)
  = Ok l ->
  lyric_draw l lrc plain_lines artists_joined t_sec tick = Ok (x, s) ->
  let lw := fst (guess_char_px lyric_path) in
  x = right_x l
  /\ Z.of_nat (length s) <= max_lyric_chars l
  /\ (exists cur,
        frame_lyric lrc plain_lines artists_joined t_sec tick = Ok cur
        /\ Z.of_nat (length s) = Z.min (Z.of_nat (length cur)) (max_lyric_chars l)
        /\ (Z.of_nat (length cur) <= max_lyric_chars l -> s = cur)
        /\ (forall c, In c s -> In c cur \/ c = " "%char))
  /\ (lw <= right_w l -> x + Z.of_nat (length s) * lw <= width).
Proof.
  intros Hlayout Hdraw lw.
  pose proof (guess_char_px_range title_path) as Ht.
  pose proof (guess_char_px_range lyric_path) as Hl.
  subst lw.
  destruct (guess_char_px title_path) as [tw th] eqn:Htitle.
  destruct (guess_char_px lyric_path) as [lw lh] eqn:Hlyric.
  simpl fst in *. simpl snd in *.
  destruct (layout_inv env width height tw th lw lh l ltac:(lia) ltac:(lia)
              Hlayout)
    as [Hrx [Hwidth [_ [Hmax [Hgap [_ _]]]]]].
  unfold lyric_draw in Hdraw.
  destruct (frame_lyric lrc plain_lines artists_joined t_sec tick)
    as [cur|e] eqn:Hcur; [|discriminate Hdraw].
  simpl in Hdraw.
  destruct (marquee_slice_tick_int cur (max_lyric_chars l) tick (lyric_cps l)
              (gap_chars l) target_fps) as [l1|e] eqn:Hrun;
    [|discriminate Hdraw].
  simpl in Hdraw. inversion Hdraw; subst x s. clear Hdraw.
  destruct (marquee_slice_tick_int_shape cur (max_lyric_chars l) tick
              (lyric_cps l) (gap_chars l) target_fps l1
              ltac:(lia) ltac:(lia) Hrun) as [Hlen Hchars].
  split; [reflexivity|]. split; [lia|]. split.
  - exists cur. split; [reflexivity|]. split; [exact Hlen|].
    split; [|exact Hchars].
    intros Hfits. unfold marquee_slice_tick_int in Hrun.
    replace (Z.of_nat (length cur) <=? max_lyric_chars l) with true in Hrun
      by (symmetry; apply Z.leb_le; exact Hfits).
    congruence.
  - intros Hfit.
    assert (max_lyric_chars l * lw <= right_w l) as Hcols.
    { rewrite Hmax, Z.max_r by (apply Z.div_le_lower_bound; lia).
      rewrite Z.mul_comm. apply Z.mul_div_le. lia. }
    nia.
Qed.

Lemma lyric_draw_inside_witness :
  lyric_draw default_layout scenario_timeline None (of_string "Artist")
    (float_lit 5) 40 = Ok (30, of_string "ine   se")
  /\ 30 = right_x default_layout
  /\ 8 <= max_lyric_chars default_layout.
Proof.
  split; [reflexivity|].
  assert (guess_char_px (of_string "4x6.bdf") = (4, 7)) as Hcell by reflexivity.
  pose proof (lyric_draw_inside no_env 64 32
                (of_string "/home/pi/fonts/6x10.bdf") (of_string "4x6.bdf")
                default_layout scenario_timeline None (of_string "Artist")
                (float_lit 5) 40 30 (of_string "ine   se") eq_refl eq_refl) as H.
  cbv zeta in H. destruct H as [H1 [H2 _]].
  split; [exact H1 | exact H2].
Defined.

(** *** The request queue *)

Lemma run_track_changes_cons snap rest st :
  run_track_changes (snap :: rest) st
  = (fst (track_change_step snap st)
       :: fst (run_track_changes rest (snd (track_change_step snap st))),
     snd (run_track_changes rest (snd (track_change_step snap st)))).
Proof.
  simpl. destruct (track_change_step snap st) as [r st1]. cbn [fst snd].
  destruct (run_track_changes rest st1) as [rs st2]. reflexivity.
Qed.

(** X15. Over any sequence of snapshots, the track-change step never
    raises and keeps the bound of the request queue. Either no request
    was issued and the state is unchanged, or the queue holds exactly
    one request: a track of one of the snapshots, whose non-empty id is
    the last-seen id. *)
Theorem run_track_changes_pending (snaps : list PlaybackSnapshot)
  (st : Coordinator) :
  let rs := fst (run_track_changes snaps st) in
  let st' := snd (run_track_changes snaps st) in
  length rs = length snaps
  /\ Forall (fun r => r = Ok true \/ r = Ok false) rs
  /\ maxsize (req_q st') = maxsize (req_q st)
  /\ ((~ In (Ok true) rs /\ st' = st)
      \/ (In (Ok true) rs
          /\ exists it,
               items (req_q st') = [it]
               /\ id it = last_seen_tid st'
               /\ str_truthy (id it) = true
               /\ In (Some it) (map item snaps))).
Proof.
  revert st. induction snaps as [|snap rest IH]; intros st.
  - simpl. split; [reflexivity|]. split; [constructor|].
    split; [reflexivity|]. left. split; [intros []|reflexivity].
  - cbv zeta. rewrite run_track_changes_cons. cbn [fst snd].
    specialize (IH (snd (track_change_step snap st))). cbv zeta in IH.
    destruct IH as [Hlen [Hflags [Hbound Hrest]]].
    rewrite track_change_step_eq in *.
    destruct (item snap) as [it|] eqn:Hitem.
    + destruct (track_changed snap st) eqn:Hch; cbn [fst snd] in *.
      * split; [simpl; f_equal; exact Hlen|].
        split; [constructor; [left; reflexivity | exact Hflags]|].
        split; [exact Hbound|]. right. split; [left; reflexivity|].
        destruct Hrest as [[_ Hsame]|[_ [it' [Hq [Hid [Htruthy Hin]]]]]].
        -- exists it. rewrite Hsame. cbn [req_q items last_seen_tid].
           split; [reflexivity|]. split; [reflexivity|].
           apply track_changed_iff in Hch. destruct Hch as [Htid _].
           unfold snapshot_tid in Htid. rewrite Hitem in Htid.
           split; [exact Htid|]. left. exact Hitem.
        -- exists it'. split; [exact Hq|]. split; [exact Hid|].
           split; [exact Htruthy|]. right. exact Hin.
      * split; [simpl; f_equal; exact Hlen|].
        split; [constructor; [right; reflexivity | exact Hflags]|].
        split; [exact Hbound|].
        destruct Hrest as [[Hnone Hsame]|[Hsome [it' [Hq [Hid [Htruthy Hin]]]]]].
        -- left. split; [|exact Hsame].
           intros [Hhead|Htail]; [discriminate | contradiction].
        -- right. split; [right; exact Hsome|].
           exists it'. split; [exact Hq|]. split; [exact Hid|].
           split; [exact Htruthy|]. right. exact Hin.
    + cbn [fst snd] in *.
      split; [simpl; f_equal; exact Hlen|].
      split; [constructor; [right; reflexivity | exact Hflags]|].
      split; [exact Hbound|].
      destruct Hrest as [[Hnone Hsame]|[Hsome [it' [Hq [Hid [Htruthy Hin]]]]]].
      * left. split; [|exact Hsame].
        intros [Hhead|Htail]; [discriminate | contradiction].
      * right. split; [right; exact Hsome|].
        exists it'. split; [exact Hq|]. split; [exact Hid|].
        split; [exact Htruthy|]. right. exact Hin.
Qed.

(** *** The album image *)

Section MinByFacts.
Context {A : Type}.
Variable key : A -> result Z.

Lemma min_from_ok (l : list A) : forall best bk,
  (forall x, In x l -> exists k, key x = Ok k) ->
  exists m, min_from key best bk l = Ok m /\ (m = best \/ In m l).
Proof.
  induction l as [|x l IH]; intros best bk Hkeys.
  - exists best. split; [reflexivity | left; reflexivity].
  - destruct (Hkeys x (or_introl eq_refl)) as [k Hk].
    simpl. rewrite Hk. simpl.
    destruct (k <? bk).
    + destruct (IH x k (fun y Hy => Hkeys y (or_intror Hy))) as [m [Hm Hin]].
      exists m. split; [exact Hm|]. right.
      destruct Hin as [->|Hin]; [left; reflexivity | right; exact Hin].
    + destruct (IH best bk (fun y Hy => Hkeys y (or_intror Hy))) as [m [Hm Hin]].
      exists m. split; [exact Hm|].
      destruct Hin as [->|Hin]; [left; reflexivity | right; right; exact Hin].
Qed.

Lemma min_from_raises (l : list A) : forall best bk,
  Exists (fun x => exists e, key x = Raise e) l ->
  exists e, min_from key best bk l = Raise e.
Proof.
  induction l as [|x l IH]; intros best bk Hbad; [inversion Hbad|].
  simpl. destruct (key x) as [k|e] eqn:Hk.
  - assert (Exists (fun x => exists e, key x = Raise e) l) as Hrest.
    { inversion Hbad as [? ? [e He]|? ? Hrest]; subst; [congruence | exact Hrest]. }
    simpl. destruct (k <? bk); apply IH; exact Hrest.
  - exists e. reflexivity.
Qed.

Lemma py_min_ok (l : list A) :
  l <> [] -> (forall x, In x l -> exists k, key x = Ok k) ->
  exists m, py_min key l = Ok m /\ In m l.
Proof.
  intros Hne Hkeys. destruct l as [|x l]; [contradiction|].
  destruct (Hkeys x (or_introl eq_refl)) as [k Hk].
  simpl. rewrite Hk. simpl.
  destruct (min_from_ok l x k (fun y Hy => Hkeys y (or_intror Hy)))
    as [m [Hm Hin]].
  exists m. split; [exact Hm|].
  destruct Hin as [->|Hin]; [left; reflexivity | right; exact Hin].
Qed.

Lemma py_min_raises (l : list A) :
  Exists (fun x => exists e, key x = Raise e) l ->
  exists e, py_min key l = Raise e.
Proof.
  intros Hbad. destruct l as [|x l]; [inversion Hbad|].
  simpl. destruct (key x) as [k|e] eqn:Hk.
  - simpl. apply min_from_raises.
    inversion Hbad as [? ? [e He]|? ? Hrest]; subst; [congruence | exact Hrest].
  - exists e. reflexivity.
Qed.
End MinByFacts.

Lemma py_index_minus_one {A : Type} (l : list A) (d : A) :
  l <> [] -> py_index l (-1) = Ok (last l d).
Proof.
  intros Hne. rewrite (app_removelast_last d Hne) at 1.
  apply py_index_last.
Qed.

Lemma width_distance_ok (target : Z) (im : Image) :
  width im <> WNull -> exists k, width_distance target im = Ok k.
Proof.
  unfold width_distance, image_width. destruct (width im); intros Hw;
    [eexists; reflexivity | contradiction | eexists; reflexivity].
Qed.

Lemma width_distance_null (target : Z) (im : Image) :
  width im = WNull -> exists e, width_distance target im = Raise e.
Proof.
  unfold width_distance, image_width. intros ->. eexists. reflexivity.
Qed.

Lemma album_url_returns (album_side : Z) (imgs : list Image) :
  exists u, album_url album_side imgs = Ok u /\ (imgs = [] -> u = None).
Proof.
  unfold album_url. destruct imgs as [|im0 rest]; [exists None; split; reflexivity|].
  simpl truthy. cbv iota.
  destruct (album_image album_side (im0 :: rest)) as [im|e].
  - exists (url im). split; [reflexivity | discriminate].
  - rewrite (py_index_minus_one (im0 :: rest) im0) by discriminate.
    eexists. split; [reflexivity | discriminate].
Qed.

(** X16. The choice of the album image URL never raises. No image gives
    no URL; otherwise the URL is that of one of the images: of the last
    image when some width is null, and of the image that [min] selects
    when none is. *)
Theorem album_url_total (album_side : Z) (imgs : list Image) :
  exists u,
    album_url album_side imgs = Ok u
    /\ (imgs = [] -> u = None)
    /\ (imgs <> [] -> exists im, In im imgs /\ u = url im)
    /\ (Exists (fun im => width im = WNull) imgs ->
        forall d, u = url (last imgs d))
    /\ (Forall (fun im => width im <> WNull) imgs -> imgs <> [] ->
        exists im, album_image album_side imgs = Ok im /\ u = url im).
Proof.
  destruct imgs as [|im0 rest] eqn:Himgs.
  - exists None. split; [reflexivity|]. split; [reflexivity|].
    split; [congruence|]. split; [intros Hbad; inversion Hbad | congruence].
  - rewrite <- Himgs.
    assert (imgs <> []) as Hne by (subst; discriminate).
    unfold album_url.
    replace (truthy imgs) with true by (subst; reflexivity).
    destruct (album_image album_side imgs) as [im|e] eqn:Hmin.
    + exists (url im). split; [reflexivity|]. split; [congruence|].
      assert (Forall (fun im => width im <> WNull) imgs) as Hwidths.
      { apply Forall_forall. intros x Hx Hnull.
        destruct (py_min_raises (width_distance (Z.max 32 album_side)) imgs)
          as [e He].
        - apply Exists_exists. exists x. split; [exact Hx|].
          apply width_distance_null. exact Hnull.
        - unfold album_image in Hmin. congruence. }
      destruct (py_min_ok (width_distance (Z.max 32 album_side)) imgs Hne)
        as [m [Hm Hin]].
      { intros x Hx. apply width_distance_ok.
        apply (proj1 (Forall_forall _ _) Hwidths x Hx). }
      unfold album_image in Hmin. rewrite Hm in Hmin. inversion Hmin; subst m.
      split; [intros _; exists im; split; [exact Hin | reflexivity]|].
      split.
      * intros Hbad. exfalso. apply Exists_exists in Hbad.
        destruct Hbad as [x [Hx Hnull]].
        apply (proj1 (Forall_forall _ _) Hwidths x Hx Hnull).
      * intros _ _. exists im. split; [reflexivity | reflexivity].
    + rewrite (py_index_minus_one imgs im0 Hne). simpl.
      exists (url (last imgs im0)). split; [reflexivity|].
      split; [congruence|]. split; [|split].
      * intros _. exists (last imgs im0). split; [|reflexivity].
        rewrite (app_removelast_last im0 Hne) at 2.
        apply in_or_app. right. left. reflexivity.
      * intros _ d. f_equal. subst imgs. apply last_cons_default.
      * intros Hwidths _. exfalso.
        destruct (py_min_ok (width_distance (Z.max 32 album_side)) imgs Hne)
          as [m [Hm _]].
        { intros x Hx. apply width_distance_ok.
          apply (proj1 (Forall_forall _ _) Hwidths x Hx). }
        unfold album_image in Hmin. congruence.
Qed.

Lemma album_url_total_witness :
  Exists (fun im => width im = WNull) [mkImage WNull None; image36]
  /\ album_url 28 [mkImage WNull None; image36] = Ok (url image36).
Proof.
  assert (Exists (fun im => width im = WNull) [mkImage WNull None; image36])
    as Hnull by (left; reflexivity).
  split; [exact Hnull|].
  destruct (album_url_total 28 [mkImage WNull None; image36])
    as [u [Hu [_ [_ [Hlast _]]]]].
  rewrite Hu. f_equal. apply (Hlast Hnull image36).
Defined.

(** *** Downloading the album image *)

Section AlbumArtFacts.
Context {Img : Type}.
Implicit Types (download : Z -> option Img) (tries : list Z).

Lemma fetch_attempts_first download tries :
  (downloads (snd (fetch_attempts download tries)) <= length tries)%nat
  /\ match fst (fetch_attempts download tries) with
     | Some img =>
         exists before i rest,
           tries = before ++ i :: rest
           /\ download i = Some img
           /\ (forall j, In j before -> download j = None)
           /\ downloads (snd (fetch_attempts download tries))
              = S (length before)
     | None =>
         (forall j, In j tries -> download j = None)
         /\ downloads (snd (fetch_attempts download tries)) = length tries
     end.
Proof.
  induction tries as [|i rest IH].
  - simpl. split; [unfold downloads; simpl; lia|].
    split; [intros j []|reflexivity].
  - simpl. destruct (download i) as [img|] eqn:Hi.
    + simpl. split; [unfold downloads; simpl; lia|].
      exists [], i, rest. split; [reflexivity|]. split; [exact Hi|].
      split; [intros j []|reflexivity].
    + destruct (fetch_attempts download rest) as [r effects].
      cbn [fst snd] in *. destruct IH as [Hcount Hfirst].
      assert (downloads
                (HttpGet i :: (if i =? 1 then [PrintFailure] else [])
                 ++ Sleep :: effects) = S (downloads effects)) as Hdown.
      { unfold downloads. destruct (i =? 1); reflexivity. }
      rewrite Hdown. split; [lia|].
      destruct r as [img|].
      * destruct Hfirst as [before [k [rest' [Hsplit [Hk [Hnone Hn]]]]]].
        exists (i :: before), k, rest'. subst rest.
        split; [reflexivity|]. split; [exact Hk|].
        split; [|simpl; lia].
        intros j [<-|Hj]; [exact Hi | apply (Hnone j Hj)].
      * destruct Hfirst as [Hnone Hn]. split; [|lia].
        intros j [<-|Hj]; [exact Hi | apply (Hnone j Hj)].
Qed.

(** X17. [fetch_album_image] downloads nothing for an empty URL and at
    most twice otherwise. It stops at the first success; after a first
    failure it sleeps and tries again; after the second it reports the
    failure, sleeps and returns nothing; an image it returns is that of
    the first or of the second download. *)
Theorem fetch_album_image_retry download (url : str) :
  (url = [] -> fetch_album_image download url = (None, []))
  /\ (downloads (snd (fetch_album_image download url)) <= 2)%nat
  /\ (forall img, download 0 = Some img -> url <> [] ->
        fetch_album_image download url = (Some img, [HttpGet 0]))
  /\ (forall img, download 0 = None -> download 1 = Some img -> url <> [] ->
        fetch_album_image download url
        = (Some img, [HttpGet 0; Sleep; HttpGet 1]))
  /\ (download 0 = None -> download 1 = None -> url <> [] ->
        fetch_album_image download url
        = (None, [HttpGet 0; Sleep; HttpGet 1; PrintFailure; Sleep]))
  /\ (forall img, fst (fetch_album_image download url) = Some img ->
        url <> [] /\ (download 0 = Some img \/ download 1 = Some img)).
Proof.
  unfold fetch_album_image.
  split; [intros ->; reflexivity|].
  split.
  { destruct (negb (truthy url)); [unfold downloads; simpl; lia|].
    apply (proj1 (fetch_attempts_first download (py_range 2))). }
  split; [|split; [|split]].
  - intros img H0 Hurl. destruct url; [contradiction|]. simpl. rewrite H0.
    reflexivity.
  - intros img H0 H1 Hurl. destruct url; [contradiction|]. simpl.
    rewrite H0, H1. reflexivity.
  - intros H0 H1 Hurl. destruct url; [contradiction|]. simpl.
    rewrite H0, H1. reflexivity.
  - intros img. destruct url as [|c url]; [discriminate|]. simpl.
    destruct (download 0) as [img0|]; simpl.
    + intros Heq. split; [discriminate | left; exact Heq].
    + destruct (download 1) as [img1|]; simpl; [|discriminate].
      intros Heq. split; [discriminate | right; exact Heq].
Qed.
End AlbumArtFacts.

Lemma fetch_album_image_retry_witness :
  fetch_album_image (fun i => if i =? 1 then Some 7 else None) (of_string "u36")
  = (Some 7, [HttpGet 0; Sleep; HttpGet 1]).
Proof.
  apply (proj1 (proj2 (proj2 (proj2
           (fetch_album_image_retry (fun i => if i =? 1 then Some 7 else None)
              (of_string "u36")))))).
  - reflexivity.
  - reflexivity.
  - discriminate.
Defined.

(** *** Copying the image to the canvas *)

Lemma py_range_length (n : Z) : length (py_range n) = Z.to_nat n.
Proof. unfold py_range. rewrite length_map, length_seq. reflexivity. Qed.

Lemma py_range_nth (n : Z) (i : nat) :
  (i < Z.to_nat n)%nat -> nth_error (py_range n) i = Some (Z.of_nat i).
Proof.
  intros Hi. unfold py_range. rewrite nth_error_map.
  rewrite (nth_error_nth' _ 0%nat) by (rewrite length_seq; exact Hi).
  rewrite seq_nth by exact Hi. reflexivity.
Qed.

Lemma flat_map_rows_length {A B : Type} (f : A -> list B) (w : nat)
  (l : list A) :
  (forall a, length (f a) = w) -> length (flat_map f l) = (length l * w)%nat.
Proof.
  intros Hrow. induction l as [|a l IH]; [reflexivity|].
  simpl. rewrite length_app, Hrow, IH. reflexivity.
Qed.

Lemma flat_map_rows_nth {A B : Type} (f : A -> list B) (w : nat) (l : list A) :
  (forall a, length (f a) = w) -> (0 < w)%nat ->
  forall k,
    nth_error (flat_map f l) k
    = match nth_error l (k / w) with
      | Some a => nth_error (f a) (k mod w)
      | None => None
      end.
Proof.
  intros Hrow Hw. induction l as [|a l IH]; intros k.
  - simpl. destruct (k / w)%nat; destruct k; reflexivity.
  - simpl flat_map. destruct (Nat.lt_ge_cases k w) as [Hlt|Hge].
    + rewrite nth_error_app1 by (rewrite Hrow; exact Hlt).
      rewrite Nat.div_small, Nat.mod_small by exact Hlt. reflexivity.
    + rewrite nth_error_app2 by (rewrite Hrow; exact Hge).
      assert (k / w = S ((k - w) / w))%nat as Hd.
      { replace k with ((k - w) + 1 * w)%nat at 1 by lia.
        rewrite Nat.div_add by lia. lia. }
      assert (k mod w = (k - w) mod w)%nat as Hm.
      { replace k with ((k - w) + 1 * w)%nat at 1 by lia.
        rewrite Nat.Div0.mod_add. reflexivity. }
      rewrite Hrow, IH, Hd, Hm. reflexivity.
Qed.

Lemma blit_pillow_nth (img : Pixels) (x0 y0 : Z) (k : nat) :
  0 < fst (size img) -> 0 <= snd (size img) ->
  Z.of_nat k < fst (size img) * snd (size img) ->
  nth_error (blit_pillow img x0 y0) k
  = Some (let x := Z.of_nat k mod fst (size img) in
          let y := Z.of_nat k / fst (size img) in
          let '(r, g, b) := load img x y in
          SetPixel (x0 + x) (y0 + y) r g b).
Proof.
  unfold blit_pillow. destruct (size img) as [w h]. simpl fst. simpl snd.
  intros Hw Hh Hk.
  rewrite (flat_map_rows_nth _ (Z.to_nat w))
    by (try (intros y; rewrite length_map, py_range_length; reflexivity); lia).
  assert (Z.of_nat (k / Z.to_nat w) = Z.of_nat k / w) as Hdiv
    by (rewrite Nat2Z.inj_div, Z2Nat.id by lia; reflexivity).
  assert (Z.of_nat (k mod Z.to_nat w) = Z.of_nat k mod w) as Hmod
    by (rewrite Nat2Z.inj_mod, Z2Nat.id by lia; reflexivity).
  assert (0 <= Z.of_nat k / w < h) as Hy.
  { split; [apply Z.div_pos; lia | apply Z.div_lt_upper_bound; lia]. }
  pose proof (Z.mod_pos_bound (Z.of_nat k) w Hw) as Hx.
  rewrite py_range_nth by lia.
  rewrite nth_error_map, py_range_nth by lia.
  simpl option_map. rewrite Hdiv, Hmod. reflexivity.
Qed.

Lemma blit_pillow_length (img : Pixels) (x0 y0 : Z) :
  0 <= fst (size img) -> 0 <= snd (size img) ->
  Z.of_nat (length (blit_pillow img x0 y0)) = fst (size img) * snd (size img).
Proof.
  unfold blit_pillow. destruct (size img) as [w h]. simpl fst. simpl snd.
  intros Hw Hh.
  rewrite (flat_map_rows_length _ (Z.to_nat w))
    by (intros y; rewrite length_map, py_range_length; reflexivity).
  rewrite py_range_length. lia.
Qed.

(** X18. [blit_pillow] calls [SetPixel] once for each pixel of the
    image, row by row: call number k sets the position (x0 + k mod w, y0
    + k div w) to the pixel (k mod w, k div w). No call falls outside
    the rectangle of the image, and no position is set twice. *)
Theorem blit_pillow_rectangle (img : Pixels) (x0 y0 : Z) :
  0 <= fst (size img) -> 0 <= snd (size img) ->
  let w := fst (size img) in
  let h := snd (size img) in
  Z.of_nat (length (blit_pillow img x0 y0)) = w * h
  /\ (forall k, Z.of_nat k < w * h ->
        nth_error (blit_pillow img x0 y0) k
        = Some (let x := Z.of_nat k mod w in
                let y := Z.of_nat k / w in
                let '(r, g, b) := load img x y in
                SetPixel (x0 + x) (y0 + y) r g b))
  /\ (forall c, In c (blit_pillow img x0 y0) ->
        x0 <= fst (call_xy c) < x0 + w /\ y0 <= snd (call_xy c) < y0 + h)
  /\ NoDup (map call_xy (blit_pillow img x0 y0)).
Proof.
  intros Hw Hh w h.
  pose proof (blit_pillow_length img x0 y0 Hw Hh) as Hlen.
  fold w h in Hlen.
  assert (forall k, Z.of_nat k < w * h ->
            0 < w
            /\ 0 <= Z.of_nat k mod w < w /\ 0 <= Z.of_nat k / w < h
            /\ option_map call_xy (nth_error (blit_pillow img x0 y0) k)
               = Some (x0 + Z.of_nat k mod w, y0 + Z.of_nat k / w)) as Hcall.
  { intros k Hk. assert (0 < w) as Hpos by nia.
    split; [exact Hpos|].
    split; [apply Z.mod_pos_bound; exact Hpos|].
    split; [split; [apply Z.div_pos; lia | apply Z.div_lt_upper_bound; lia]|].
    rewrite (blit_pillow_nth img x0 y0 k Hpos Hh Hk). fold w. cbv zeta.
    destruct (load img (Z.of_nat k mod w) (Z.of_nat k / w)) as [[r g] b].
    reflexivity. }
  split; [exact Hlen|]. split; [|split].
  - intros k Hk. assert (0 < w) as Hpos by nia.
    apply (blit_pillow_nth img x0 y0 k Hpos Hh Hk).
  - intros c Hc. apply In_nth_error in Hc. destruct Hc as [k Hk].
    assert (Z.of_nat k < w * h) as Hrange.
    { rewrite <- Hlen. apply Nat2Z.inj_lt. apply nth_error_Some. congruence. }
    destruct (Hcall k Hrange) as [_ [Hx [Hy Hxy]]].
    rewrite Hk in Hxy. simpl option_map in Hxy. injection Hxy as Heq.
    rewrite Heq. cbn [fst snd]. lia.
  - apply (proj2 (NoDup_nth_error _)). intros i j Hi Hij.
    rewrite length_map in Hi.
    assert (Z.of_nat i < w * h) as Hirange by lia.
    assert (Z.of_nat j < w * h) as Hjrange.
    { rewrite <- Hlen. apply Nat2Z.inj_lt.
      rewrite <- (length_map call_xy). apply nth_error_Some.
      rewrite <- Hij. apply nth_error_Some. rewrite length_map. exact Hi. }
    destruct (Hcall i Hirange) as [Hpos [_ [_ Hci]]].
    destruct (Hcall j Hjrange) as [_ [_ [_ Hcj]]].
    rewrite !nth_error_map, Hci, Hcj in Hij. inversion Hij as [[Hx Hy]].
    pose proof (Z.div_mod (Z.of_nat i) w ltac:(lia)) as Hdi.
    pose proof (Z.div_mod (Z.of_nat j) w ltac:(lia)) as Hdj.
    assert (Z.of_nat i mod w = Z.of_nat j mod w) as Hmod by lia.
    assert (Z.of_nat i / w = Z.of_nat j / w) as Hdiv by lia.
    rewrite Hmod, Hdiv in Hdi. lia.
Qed.

Lemma blit_pillow_rectangle_witness :
  blit_pillow (mkPixels (2, 2) (fun x y => (x, y, 9))) 10 20
  = [SetPixel 10 20 0 0 9; SetPixel 11 20 1 0 9;
     SetPixel 10 21 0 1 9; SetPixel 11 21 1 1 9]
  /\ NoDup (map call_xy
              (blit_pillow (mkPixels (2, 2) (fun x y => (x, y, 9))) 10 20)).
Proof.
  split; [reflexivity|].
  apply (blit_pillow_rectangle (mkPixels (2, 2) (fun x y => (x, y, 9))) 10 20);
    simpl; lia.
Defined.

(** *** The assets of a track *)

Lemma fetch_album_image_downloads {Img : Type} (download : Z -> option Img)
  (url : str) :
  (downloads (snd (fetch_album_image download url)) <= 2)%nat.
Proof.
  unfold fetch_album_image.
  destruct (negb (truthy url)); [unfold downloads; simpl; lia|].
  apply (proj1 (fetch_attempts_first download (py_range 2))).
Qed.

(** X19. One turn of the fetcher always builds its assets. Their id and
    title are those of the track; at most two downloads are made, and
    none when the track has no image; timed lines and plain lines never
    come together; plain lines, when there are any, are non-empty and
    stripped; and for a request that the track-change step issued, the
    id of the assets is the non-empty last-seen id of the render loop. *)
Theorem fetcher_assets_consistent {Img : Type} (sorter : ListSort)
  (album_side : Z)
  (download : str -> Z -> option Img) (reply : HttpOutcome) (it : Item) :
  exists assets effects,
    fetcher_assets sorter album_side download reply it = Ok (assets, effects)
    /\ TrackAssets.tid assets = or_empty (id it)
    /\ TrackAssets.title assets = name it
    /\ (downloads effects <= 2)%nat
    /\ (images it = [] ->
        TrackAssets.album_img assets = None /\ effects = [])
    /\ (TrackAssets.lrc assets <> [] -> TrackAssets.plain_lines assets = None)
    /\ (forall ls, TrackAssets.plain_lines assets = Some ls ->
          ls <> [] /\ TrackAssets.lrc assets = []
          /\ forall l, In l ls -> truthy l = true /\ stripped l)
    /\ (forall snap st, item snap = Some it ->
          fst (track_change_step snap st) = Ok true ->
          last_seen_tid (snd (track_change_step snap st))
          = Some (TrackAssets.tid assets)
          /\ truthy (TrackAssets.tid assets) = true).
Proof.
  unfold fetcher_assets.
  destruct (album_url_returns album_side (images it)) as [u [Hu Hnone]].
  rewrite Hu. cbn [bind].
  set (fetched := match u with
                  | Some u0 =>
                      if truthy u0 then fetch_album_image (download u0) u0
                      else (None, [])
                  | None => (None, [])
                  end).
  assert ((downloads (snd fetched) <= 2)%nat) as Hdown.
  { unfold fetched. destruct u as [u0|]; [|unfold downloads; simpl; lia].
    destruct (truthy u0); [|unfold downloads; simpl; lia].
    apply fetch_album_image_downloads. }
  assert (images it = [] -> fetched = (None, [])) as Hempty.
  { intros Himgs. unfold fetched. rewrite (Hnone Himgs). reflexivity. }
  destruct fetched as [album_img effects]. cbn [snd] in Hdown.
  destruct (fetch_lyrics sorter reply) as [lrc plain] eqn:Hlyrics.
  eexists. eexists. split; [reflexivity|]. cbn.
  split; [reflexivity|]. split; [reflexivity|]. split; [exact Hdown|].
  split.
  { intros Himgs. specialize (Hempty Himgs). inversion Hempty.
    split; reflexivity. }
  assert (forall ls, plain_lines_of plain = Some ls ->
            ls <> [] /\ lrc = []
            /\ forall l, In l ls -> truthy l = true /\ stripped l) as Hplain.
  { intros ls Hls.
    destruct (plain_lines_fetched sorter reply ls) as [Hne [Hlines Hlrc]].
    - rewrite Hlyrics. exact Hls.
    - rewrite Hlyrics in Hlrc. split; [exact Hne|].
      split; [exact Hlrc | exact Hlines]. }
  split.
  { intros Hlrc. destruct (plain_lines_of plain) as [ls|] eqn:Hls;
      [|reflexivity].
    destruct (Hplain ls eq_refl) as [_ [Hnil _]]. contradiction. }
  split; [exact Hplain|].
  intros snap st Hitem. rewrite track_change_step_eq, Hitem.
  destruct (track_changed snap st) eqn:Hch; [|discriminate].
  intros _. cbn [snd last_seen_tid].
  apply track_changed_iff in Hch. destruct Hch as [Htid _].
  unfold snapshot_tid in Htid. rewrite Hitem in Htid.
  destruct (id it) as [c|]; [|discriminate]. simpl in Htid.
  split; [reflexivity | exact Htid].
Qed.

Lemma fetcher_assets_consistent_witness :
  exists assets,
    fst (track_change_step (poller_snapshot (playing trackA 0) (float_lit 0))
           initial_coordinator) = Ok true
    /\ fetcher_assets stable_list_sort 28 (fun _ _ => Some 7) plain_reply trackA
       = Ok (assets, [])
    /\ TrackAssets.tid assets = of_string "trackA"
    /\ TrackAssets.plain_lines assets
       = Some [of_string "la la"; of_string "second line"].
Proof.
  destruct (fetcher_assets_consistent stable_list_sort 28 (fun _ _ => Some 7)
              plain_reply trackA)
    as [assets [effects [Hrun [_ [_ [_ [Himgs [_ [_ Htid]]]]]]]]].
  destruct (Himgs eq_refl) as [_ ->].
  destruct (Htid (poller_snapshot (playing trackA 0) (float_lit 0))
              initial_coordinator eq_refl eq_refl) as [Hseen _].
  exists assets. split; [reflexivity|]. split; [exact Hrun|].
  vm_compute in Hrun. injection Hrun as <-. split; reflexivity.
Defined.

(** *** Handing the assets over *)

Section HandOver.
Context {A : Type}.
Implicit Types (q : Queue A) (v cur : A).

Lemma take_if_any_eq cur q :
  take_if_any cur q
  = (Ok (hd cur (items q)), mkQueue (maxsize q) (tl (items q))).
Proof.
  unfold take_if_any, get_nowait. destruct q as [bound [|x rest]]; reflexivity.
Qed.

(** X20. The render loop takes the head of the assets queue, or keeps
    its current assets when the queue is empty. The publishing of the
    fetcher never raises; after it the loop takes exactly the published
    assets, of two published ones only the newer, and the queue is then
    empty, so that the next frame keeps them. *)
Theorem assets_handover cur q v1 v2 :
  take_if_any cur q
  = (Ok (hd cur (items q)), mkQueue (maxsize q) (tl (items q)))
  /\ fst (fetcher_publish v1 q) = Ok tt
  /\ take_if_any cur (snd (fetcher_publish v1 q))
     = (Ok v1, mkQueue (maxsize q) [])
  /\ take_if_any cur (snd (fetcher_publish v2 (snd (fetcher_publish v1 q))))
     = (Ok v2, mkQueue (maxsize q) [])
  /\ fst (take_if_any v1 (snd (take_if_any cur (snd (fetcher_publish v1 q)))))
     = Ok v1.
Proof.
  split; [apply take_if_any_eq|].
  rewrite !fetcher_publish_eq. cbn [fst snd].
  rewrite ?fetcher_publish_eq. cbn [fst snd].
  rewrite !take_if_any_eq. cbn. repeat split; reflexivity.
Qed.
End HandOver.

(** *** The colour argument *)

Lemma all_chars_complete (c : ascii) : In c all_chars.
Proof.
  unfold all_chars. rewrite <- (ascii_nat_embedding c).
  apply in_map. apply in_seq. pose proof (nat_ascii_bounded c). lia.
Qed.

Lemma hex_pair_value (a b : ascii) :
  is_hex_digit a = true -> is_hex_digit b = true ->
  exists v, py_int16 [a; b] = Ok v /\ 0 <= v <= 255.
Proof.
  intros Ha Hb.
  assert (forallb (fun a => forallb (hex_pair_ok a) all_chars) all_chars = true)
    as Hall by (vm_compute; reflexivity).
  rewrite forallb_forall in Hall.
  specialize (Hall a (all_chars_complete a)).
  rewrite forallb_forall in Hall.
  specialize (Hall b (all_chars_complete b)).
  unfold hex_pair_ok in Hall. rewrite Ha, Hb in Hall. simpl implb in Hall.
  destruct (py_int16 [a; b]) as [v|e]; [|discriminate].
  exists v. split; [reflexivity|].
  apply andb_true_iff in Hall. destruct Hall as [Hall Hhi].
  apply andb_true_iff in Hall. destruct Hall as [_ Hlo].
  apply Z.leb_le in Hlo, Hhi. lia.
Qed.

Lemma hex_not_hash (c : ascii) :
  is_hex_digit c = true -> Ascii.eqb c "#"%char = false.
Proof.
  destruct c as [[] [] [] [] [] [] [] []]; intros H; try discriminate H;
    reflexivity.
Qed.

Lemma rep_elim (p : ascii -> bool) (hi : nat) : forall lo s r,
  In r (rep p lo hi s) ->
  exists d, s = d ++ r /\ (lo <= length d <= hi)%nat
            /\ Forall (fun c => p c = true) d.
Proof.
  induction hi as [|hi IH]; intros lo s r Hin.
  - simpl in Hin. rewrite app_nil_r in Hin.
    destruct (Nat.eqb_spec lo 0) as [->|Hlo]; [|contradiction].
    destruct Hin as [<-|[]]. exists []. split; [reflexivity|].
    split; [simpl; lia | constructor].
  - simpl in Hin. apply in_app_or in Hin. destruct Hin as [Hin|Hin].
    + destruct (Nat.eqb_spec lo 0) as [->|Hlo]; [|contradiction].
      destruct Hin as [<-|[]]. exists []. split; [reflexivity|].
      split; [simpl; lia | constructor].
    + destruct s as [|c s']; [contradiction|].
      destruct (p c) eqn:Hc; [|contradiction].
      destruct (IH (pred lo) s' r Hin) as [d [Hs [Hlen Hall]]].
      exists (c :: d). split; [simpl; f_equal; exact Hs|].
      split; [simpl; lia | constructor; assumption].
Qed.

Lemma rep_intro (p : ascii -> bool) (d : str) : forall lo hi r,
  Forall (fun c => p c = true) d -> (lo <= length d <= hi)%nat ->
  In r (rep p lo hi (d ++ r)).
Proof.
  induction d as [|c d IH]; intros lo hi r Hall Hlen.
  - simpl in Hlen. assert (lo = 0)%nat as -> by lia.
    destruct hi; simpl; left; reflexivity.
  - inversion Hall as [|? ? Hc Hd]; subst. simpl in Hlen.
    destruct hi as [|hi]; [lia|].
    simpl. apply in_or_app. right. rewrite Hc.
    apply IH; [exact Hd | lia].
Qed.

Lemma eos_elim (s r : str) :
  In r (matches Eos s) -> r = s /\ (s = [] \/ s = ["010"%char]).
Proof.
  simpl. destruct s as [|c [|c' s']]; try contradiction.
  - intros [<-|[]]. split; [reflexivity | left; reflexivity].
  - destruct (Z.eqb_spec (code c) 10) as [Hc|Hc]; [|contradiction].
    intros [<-|[]]. split; [reflexivity|]. right. f_equal.
    rewrite <- (ascii_N_embedding c). unfold code in Hc.
    replace (N_of_ascii c) with 10%N by lia. reflexivity.
Qed.

Lemma truthy_in {A : Type} (l : list A) :
  truthy l = true <-> exists x, In x l.
Proof.
  destruct l as [|x l]; simpl; split.
  - discriminate.
  - intros [x []].
  - intros _. exists x. left. reflexivity.
  - reflexivity.
Qed.

(** A text that the first pattern accepts: six hexadecimal digits,
    a [#] before them or not, a newline after them or not. *)
Lemma hex_color_shape (s : str) :
  re_match hex_color_re s = true ->
  exists c1 c2 c3 c4 c5 c6 tail,
    (s = c1 :: c2 :: c3 :: c4 :: c5 :: c6 :: tail
     \/ s = "#"%char :: c1 :: c2 :: c3 :: c4 :: c5 :: c6 :: tail)
    /\ Forall (fun c => is_hex_digit c = true) [c1; c2; c3; c4; c5; c6]
    /\ (tail = [] \/ tail = ["010"%char]).
Proof.
  unfold re_match. rewrite truthy_in. intros [r Hr].
  unfold hex_color_re in Hr. cbn [matches] in Hr.
  apply in_flat_map in Hr. destruct Hr as [m [Hm Hr]].
  apply in_flat_map in Hr. destruct Hr as [tail [Htail Hr]].
  apply eos_elim in Hr. destruct Hr as [_ Hend].
  apply rep_elim in Htail. destruct Htail as [d [Hd [Hlen Hall]]].
  destruct d as [|c1 [|c2 [|c3 [|c4 [|c5 [|c6 [|c7 d]]]]]]];
    simpl in Hlen; try lia.
  exists c1, c2, c3, c4, c5, c6, tail.
  split; [|split; [exact Hall | exact Hend]].
  apply in_app_or in Hm. destruct Hm as [Hm|[<-|[]]].
  - right. destruct s as [|c s']; [contradiction|].
    destruct (Ascii.eqb_spec "#"%char c) as [<-|Hne]; [|contradiction].
    destruct Hm as [<-|[]]. rewrite Hd. reflexivity.
  - left. exact Hd.
Qed.

Lemma eos_intro (tail : str) :
  tail = [] \/ tail = ["010"%char] -> In tail (matches Eos tail).
Proof. intros [->| ->]; left; reflexivity. Qed.

(** What [parse_color] computes on such a text. *)
Lemma hex_color_value (hash : bool) (c1 c2 c3 c4 c5 c6 : ascii) (tail : str) :
  Forall (fun c => is_hex_digit c = true) [c1; c2; c3; c4; c5; c6] ->
  tail = [] \/ tail = ["010"%char] ->
  let s := (if hash then ["#"%char] else [])
           ++ c1 :: c2 :: c3 :: c4 :: c5 :: c6 :: tail in
  re_match hex_color_re s = true
  /\ parse_color s
     = of_result
         (r <- py_int16 [c1; c2] ;;
          g <- py_int16 [c3; c4] ;;
          b <- py_int16 [c5; c6] ;;
          graphics_Color r g b).
Proof.
  intros Hall Htail s.
  assert (re_match hex_color_re s = true) as Hmatch.
  { unfold re_match. apply truthy_in. exists tail.
    unfold hex_color_re. cbn [matches]. apply in_flat_map.
    exists (c1 :: c2 :: c3 :: c4 :: c5 :: c6 :: tail). split.
    - unfold s. destruct hash; simpl; [left; reflexivity|].
      apply in_or_app. right. left. reflexivity.
    - apply in_flat_map. exists tail. split; [|apply eos_intro; exact Htail].
      apply (rep_intro is_hex_digit [c1; c2; c3; c4; c5; c6] 6 6 tail Hall).
      simpl. lia. }
  split; [exact Hmatch|].
  unfold parse_color. rewrite Hmatch.
  inversion Hall as [|? ? H1 _]; subst.
  assert (lstrip_char "#"%char s = c1 :: c2 :: c3 :: c4 :: c5 :: c6 :: tail)
    as Hstrip.
  { unfold s. destruct hash; simpl; rewrite (hex_not_hash c1 H1); reflexivity. }
  cbv zeta. rewrite Hstrip.
  assert (py_slice (c1 :: c2 :: c3 :: c4 :: c5 :: c6 :: tail) 0 2 = [c1; c2]
          /\ py_slice (c1 :: c2 :: c3 :: c4 :: c5 :: c6 :: tail) 2 4 = [c3; c4]
          /\ py_slice (c1 :: c2 :: c3 :: c4 :: c5 :: c6 :: tail) 4 6 = [c5; c6])
    as [-> [-> ->]]
    by (destruct Htail as [->| ->]; repeat split; reflexivity).
  reflexivity.
Qed.

Lemma graphics_Color_ok (r g b : Z) :
  0 <= r <= 255 -> 0 <= g <= 255 -> 0 <= b <= 255 ->
  graphics_Color r g b = Ok (mkColor r g b).
Proof.
  intros Hr Hg Hb. unfold graphics_Color.
  replace ((0 <=? r) && (r <=? 255) && (0 <=? g) && (g <=? 255)
           && (0 <=? b) && (b <=? 255)) with true; [reflexivity|].
  symmetry. repeat (apply andb_true_iff; split); apply Z.leb_le; lia.
Qed.

Lemma graphics_Color_overflow (r g b : Z) :
  255 < r \/ 255 < g \/ 255 < b ->
  graphics_Color r g b = Raise OverflowError.
Proof.
  intros Hbig. unfold graphics_Color.
  destruct (Z.leb_spec r 255), (Z.leb_spec g 255), (Z.leb_spec b 255);
    try lia; rewrite ?andb_false_r; reflexivity.
Qed.

Lemma hex_color_parsed (s : str) :
  re_match hex_color_re s = true ->
  exists c,
    parse_color s = Accepted c
    /\ 0 <= red c <= 255 /\ 0 <= green c <= 255 /\ 0 <= blue c <= 255.
Proof.
  intros Hmatch.
  destruct (hex_color_shape s Hmatch)
    as [c1 [c2 [c3 [c4 [c5 [c6 [tail [Hs [Hall Htail]]]]]]]]].
  assert (exists hash,
            s = (if hash : bool then ["#"%char] else [])
                ++ c1 :: c2 :: c3 :: c4 :: c5 :: c6 :: tail) as [hash Hshape]
    by (destruct Hs as [->| ->]; [exists false | exists true]; reflexivity).
  destruct (hex_color_value hash c1 c2 c3 c4 c5 c6 tail Hall Htail)
    as [_ Hvalue].
  cbv zeta in Hvalue. rewrite <- Hshape in Hvalue. rewrite Hvalue.
  inversion Hall as [|? ? H1 Hall1]; subst.
  inversion Hall1 as [|? ? H2 Hall2]; subst.
  inversion Hall2 as [|? ? H3 Hall3]; subst.
  inversion Hall3 as [|? ? H4 Hall4]; subst.
  inversion Hall4 as [|? ? H5 Hall5]; subst.
  inversion Hall5 as [|? ? H6 _]; subst.
  destruct (hex_pair_value c1 c2 H1 H2) as [r [Hr Hrr]].
  destruct (hex_pair_value c3 c4 H3 H4) as [g [Hg Hgr]].
  destruct (hex_pair_value c5 c6 H5 H6) as [b [Hb Hbr]].
  rewrite Hr, Hg, Hb. cbn [bind].
  rewrite (graphics_Color_ok r g b Hrr Hgr Hbr).
  exists (mkColor r g b). split; [reflexivity|]. simpl.
  split; [exact Hrr|]. split; [exact Hgr | exact Hbr].
Qed.

Lemma chr_elim (p : ascii -> bool) (s r : str) :
  In r (matches (Chr p) s) -> exists c, s = c :: r /\ p c = true.
Proof.
  simpl. destruct s as [|c s']; [contradiction|].
  destruct (p c) eqn:Hc; [|contradiction].
  intros [<-|[]]. exists c. split; [reflexivity | exact Hc].
Qed.

(** A text that the second pattern accepts: three numerals of one to
    three digits between commas, a newline after them or not. *)
Lemma rgb_color_shape (s : str) :
  re_match rgb_color_re s = true ->
  exists d1 d2 d3 tail,
    s = d1 ++ ","%char :: d2 ++ ","%char :: d3 ++ tail
    /\ Forall (fun d => (1 <= length d <= 3)%nat
                        /\ Forall (fun c => is_digit c = true) d) [d1; d2; d3]
    /\ (tail = [] \/ tail = ["010"%char]).
Proof.
  unfold re_match. rewrite truthy_in. intros [r Hr].
  unfold rgb_color_re in Hr. cbn [matches] in Hr.
  apply in_flat_map in Hr. destruct Hr as [m1 [Hm1 Hr]].
  apply in_flat_map in Hr. destruct Hr as [m2 [Hm2 Hr]].
  apply in_flat_map in Hr. destruct Hr as [m3 [Hm3 Hr]].
  apply in_flat_map in Hr. destruct Hr as [m4 [Hm4 Hr]].
  apply in_flat_map in Hr. destruct Hr as [tail [Hm5 Hr]].
  apply eos_elim in Hr. destruct Hr as [_ Hend].
  apply rep_elim in Hm1. destruct Hm1 as [d1 [Hs1 [Hlen1 Hall1]]].
  apply (chr_elim (Ascii.eqb ","%char)) in Hm2.
  destruct Hm2 as [k1 [Hs2 Hk1]]. apply Ascii.eqb_eq in Hk1. subst k1.
  apply rep_elim in Hm3. destruct Hm3 as [d2 [Hs3 [Hlen2 Hall2]]].
  apply (chr_elim (Ascii.eqb ","%char)) in Hm4.
  destruct Hm4 as [k2 [Hs4 Hk2]]. apply Ascii.eqb_eq in Hk2. subst k2.
  apply rep_elim in Hm5. destruct Hm5 as [d3 [Hs5 [Hlen3 Hall3]]].
  exists d1, d2, d3, tail. subst. split; [reflexivity|].
  split; [|exact Hend].
  constructor; [split; assumption|].
  constructor; [split; assumption|].
  constructor; [split; assumption | constructor].
Qed.

Lemma digit_not_comma (c : ascii) :
  is_digit c = true -> c <> ","%char.
Proof. intros H ->. discriminate H. Qed.

Lemma digits_no_comma (d : str) :
  Forall (fun c => is_digit c = true) d -> ~ In ","%char d.
Proof.
  intros Hall Hin. rewrite Forall_forall in Hall.
  apply (digit_not_comma _ (Hall _ Hin)). reflexivity.
Qed.

Lemma split_three (d1 d2 d3 tail : str) :
  Forall (fun c => is_digit c = true) d1 ->
  Forall (fun c => is_digit c = true) d2 ->
  Forall (fun c => is_digit c = true) d3 ->
  tail = [] \/ tail = ["010"%char] ->
  split ","%char (d1 ++ ","%char :: d2 ++ ","%char :: d3 ++ tail)
  = [d1; d2; d3 ++ tail].
Proof.
  intros H1 H2 H3 Htail.
  rewrite split_app_sep by (apply digits_no_comma; exact H1).
  rewrite split_app_sep by (apply digits_no_comma; exact H2).
  rewrite split_no_sep; [reflexivity|].
  intros Hin. apply in_app_or in Hin. destruct Hin as [Hin|Hin].
  - apply (digits_no_comma d3 H3 Hin).
  - destruct Htail as [->| ->]; [contradiction|].
    destruct Hin as [Heq|[]]. discriminate Heq.
Qed.

Lemma c_strip_newline (ds : str) :
  ds <> [] -> Forall (fun c => is_digit c = true) ds ->
  c_strip (ds ++ ["010"%char]) = c_strip ds.
Proof.
  intros Hne Hall.
  destruct (digits_first_last ds Hne Hall)
    as [first [last [middle [Hshape [Hf Hl]]]]].
  pose proof (digit_not_c_space first Hf) as Hfs.
  pose proof (digit_not_c_space last Hl) as Hls.
  rewrite (c_strip_tight ds first last middle Hshape Hfs Hls).
  unfold c_strip.
  assert (c_lstrip (ds ++ ["010"%char]) = ds ++ ["010"%char]) as ->.
  { destruct Hshape as [->|[-> _]]; simpl; rewrite Hfs; reflexivity. }
  rewrite rev_unit. simpl c_lstrip.
  assert (c_lstrip (rev ds) = rev ds) as ->.
  { destruct Hshape as [->|[-> _]].
    - change (first :: middle ++ [last]) with ((first :: middle) ++ [last]).
      rewrite rev_unit. apply c_lstrip_head. exact Hls.
    - simpl. rewrite Hfs. reflexivity. }
  apply rev_involutive.
Qed.

Lemma py_int_newline (ds : str) :
  ds <> [] -> Forall (fun c => is_digit c = true) ds ->
  py_int (ds ++ ["010"%char]) = py_int ds.
Proof.
  intros Hne Hall. unfold py_int. rewrite map_app.
  rewrite (to_ascii_space_digits ds Hall).
  change (map to_ascii_space ["010"%char]) with ["010"%char].
  rewrite (c_strip_newline ds Hne Hall). reflexivity.
Qed.

Lemma decimal_value_bound (ds : str) :
  Forall (fun c => is_digit c = true) ds ->
  0 <= decimal_value ds < 10 ^ Z.of_nat (length ds).
Proof.
  induction ds as [|c ds IH] using rev_ind; intros Hall.
  - unfold decimal_value. simpl. lia.
  - apply Forall_app in Hall. destruct Hall as [Hds Hc].
    inversion Hc as [|? ? Hdigit _]; subst.
    specialize (IH Hds). rewrite decimal_value_app, length_app.
    simpl length. rewrite Nat2Z.inj_add. simpl (Z.of_nat 1).
    rewrite Z.pow_add_r, Z.pow_1_r by lia.
    pose proof (digit_facts c Hdigit) as Hfacts.
    assert (0 <= digit_value c <= 9) as Hv by tauto.
    lia.
Qed.

Lemma numeral_value (ds tail : str) :
  (1 <= length ds <= 3)%nat -> Forall (fun c => is_digit c = true) ds ->
  tail = [] \/ tail = ["010"%char] ->
  py_int (ds ++ tail) = Ok (decimal_value ds)
  /\ 0 <= decimal_value ds <= 999.
Proof.
  intros Hlen Hall Htail.
  assert (ds <> []) as Hne by (destruct ds; [simpl in Hlen; lia | discriminate]).
  assert (py_int ds = Ok (decimal_value ds)) as Hint.
  { apply py_int_numeral; [exact Hne | exact Hall|].
    unfold int_max_str_digits. lia. }
  split.
  - destruct Htail as [->| ->];
      [rewrite app_nil_r | rewrite (py_int_newline ds Hne Hall)]; exact Hint.
  - pose proof (decimal_value_bound ds Hall) as Hbound.
    assert (10 ^ Z.of_nat (length ds) <= 10 ^ 3)
      by (apply Z.pow_le_mono_r; lia).
    lia.
Qed.

Lemma rgb_not_hex (d1 rest : str) :
  (1 <= length d1 <= 3)%nat -> Forall (fun c => is_digit c = true) d1 ->
  re_match hex_color_re (d1 ++ ","%char :: rest) = false.
Proof.
  intros Hlen Hall.
  destruct (re_match hex_color_re (d1 ++ ","%char :: rest)) eqn:Hmatch;
    [|reflexivity].
  exfalso.
  destruct (hex_color_shape _ Hmatch)
    as [c1 [c2 [c3 [c4 [c5 [c6 [tail [Hs [Hhex _]]]]]]]]].
  assert (forall c, In c [c1; c2; c3; c4; c5; c6] -> c <> ","%char) as Hcomma.
  { intros c Hc ->. rewrite Forall_forall in Hhex.
    specialize (Hhex _ Hc). discriminate Hhex. }
  assert (forall c, In c d1 -> c <> "#"%char) as Hhash.
  { intros c Hc ->. rewrite Forall_forall in Hall.
    specialize (Hall _ Hc). discriminate Hall. }
  destruct d1 as [|a [|b [|c [|d d1]]]]; simpl in Hlen; try lia;
    destruct Hs as [Hs|Hs]; simpl in Hs; inversion Hs; subst;
    try (apply (Hhash "#"%char); [left; reflexivity | reflexivity]);
    match goal with
    | |- False => apply (Hcomma ","%char); [simpl; tauto | reflexivity]
    end.
Qed.

(** What [parse_color] computes on three numerals between commas. *)
Lemma rgb_color_value (d1 d2 d3 tail : str) :
  Forall (fun d => (1 <= length d <= 3)%nat
                   /\ Forall (fun c => is_digit c = true) d) [d1; d2; d3] ->
  tail = [] \/ tail = ["010"%char] ->
  let s := d1 ++ ","%char :: d2 ++ ","%char :: d3 ++ tail in
  re_match hex_color_re s = false /\ re_match rgb_color_re s = true
  /\ parse_color s
     = of_result (graphics_Color (decimal_value d1) (decimal_value d2)
                    (decimal_value d3))
  /\ 0 <= decimal_value d1 <= 999 /\ 0 <= decimal_value d2 <= 999
  /\ 0 <= decimal_value d3 <= 999.
Proof.
  intros Hall Htail s.
  inversion Hall as [|? ? [Hlen1 H1] Hall1]; subst.
  inversion Hall1 as [|? ? [Hlen2 H2] Hall2]; subst.
  inversion Hall2 as [|? ? [Hlen3 H3] _]; subst.
  pose proof (rgb_not_hex d1 (d2 ++ ","%char :: d3 ++ tail) Hlen1 H1) as Hhex.
  fold s in Hhex.
  assert (re_match rgb_color_re s = true) as Hmatch.
  { unfold re_match. apply truthy_in. exists tail.
    unfold rgb_color_re. cbn [matches].
    apply in_flat_map. exists (","%char :: d2 ++ ","%char :: d3 ++ tail).
    split; [apply rep_intro; assumption|].
    apply in_flat_map. exists (d2 ++ ","%char :: d3 ++ tail).
    split; [left; reflexivity|].
    apply in_flat_map. exists (","%char :: d3 ++ tail).
    split; [apply rep_intro; assumption|].
    apply in_flat_map. exists (d3 ++ tail).
    split; [left; reflexivity|].
    apply in_flat_map. exists tail.
    split; [apply rep_intro; assumption | apply eos_intro; exact Htail]. }
  destruct (numeral_value d1 [] Hlen1 H1 (or_introl eq_refl)) as [Hr Hrr].
  destruct (numeral_value d2 [] Hlen2 H2 (or_introl eq_refl)) as [Hg Hgr].
  destruct (numeral_value d3 tail Hlen3 H3 Htail) as [Hb Hbr].
  rewrite app_nil_r in Hr, Hg.
  split; [exact Hhex|]. split; [exact Hmatch|].
  split; [|split; [exact Hrr|split; [exact Hgr | exact Hbr]]].
  unfold parse_color. rewrite Hhex, Hmatch. unfold s.
  rewrite (split_three d1 d2 d3 tail H1 H2 H3 Htail).
  rewrite Hr, Hg, Hb. reflexivity.
Qed.

(** X21. [parse_color] returns only colours with components between 0
    and 255, from a text that one of its patterns accepts, and refuses
    with [ArgumentTypeError] exactly the texts that neither pattern
    accepts. After a pattern has accepted the text no [int] fails; the
    only other exception that escapes is the [OverflowError] of
    [graphics.Color], for a text of the second pattern, three numerals
    of at most 999 between commas, with a numeral above 255. *)
Theorem parse_color_guarded (s : str) :
  match parse_color s with
  | Accepted c =>
      (re_match hex_color_re s = true \/ re_match rgb_color_re s = true)
      /\ 0 <= red c <= 255 /\ 0 <= green c <= 255 /\ 0 <= blue c <= 255
  | ArgumentTypeError =>
      re_match hex_color_re s = false /\ re_match rgb_color_re s = false
  | Escaped e =>
      e = OverflowError
      /\ re_match hex_color_re s = false /\ re_match rgb_color_re s = true
      /\ exists d1 d2 d3 tail,
           s = d1 ++ ","%char :: d2 ++ ","%char :: d3 ++ tail
           /\ 0 <= decimal_value d1 <= 999 /\ 0 <= decimal_value d2 <= 999
           /\ 0 <= decimal_value d3 <= 999
           /\ (255 < decimal_value d1 \/ 255 < decimal_value d2
               \/ 255 < decimal_value d3)
  end.
Proof.
  destruct (re_match hex_color_re s) eqn:Hhex.
  - destruct (hex_color_parsed s Hhex) as [c [-> Hrange]].
    split; [left; reflexivity | exact Hrange].
  - destruct (re_match rgb_color_re s) eqn:Hrgb.
    + destruct (rgb_color_shape s Hrgb)
        as [d1 [d2 [d3 [tail [Hs [Hall Htail]]]]]].
      destruct (rgb_color_value d1 d2 d3 tail Hall Htail)
        as [_ [_ [Hvalue [Hr [Hg Hb]]]]].
      cbv zeta in Hvalue. rewrite <- Hs in Hvalue. rewrite Hvalue.
      destruct (Z_le_gt_dec (decimal_value d1) 255) as [Hr'|Hr'];
        [destruct (Z_le_gt_dec (decimal_value d2) 255) as [Hg'|Hg'];
         [destruct (Z_le_gt_dec (decimal_value d3) 255) as [Hb'|Hb']|]|].
      * rewrite graphics_Color_ok by lia. simpl.
        split; [right; reflexivity | lia].
      * rewrite graphics_Color_overflow by lia. simpl.
        split; [reflexivity|]. split; [reflexivity|]. split; [reflexivity|].
        exists d1, d2, d3, tail. repeat split; try lia; try exact Hs.
      * rewrite graphics_Color_overflow by lia. simpl.
        split; [reflexivity|]. split; [reflexivity|]. split; [reflexivity|].
        exists d1, d2, d3, tail. repeat split; try lia; try exact Hs.
      * rewrite graphics_Color_overflow by lia. simpl.
        split; [reflexivity|]. split; [reflexivity|]. split; [reflexivity|].
        exists d1, d2, d3, tail. repeat split; try lia; try exact Hs.
    + unfold parse_color. rewrite Hhex, Hrgb. split; reflexivity.
Qed.

Lemma digits_of_small (n : Z) :
  0 <= n <= 999 ->
  (1 <= length (digits_of n) <= 3)%nat
  /\ Forall (fun c => is_digit c = true) (digits_of n)
  /\ decimal_value (digits_of n) = n.
Proof.
  intros Hn.
  destruct (digits_of_spec (Z.to_nat n) n ltac:(lia) ltac:(lia))
    as [_ [Hall Hval]].
  split; [|split; [exact Hall | exact Hval]].
  rewrite digits_of_eq. destruct (Z.ltb_spec n 10); [simpl; lia|].
  rewrite length_app. simpl length.
  assert (0 <= n / 10 < 100) as H10
    by (split; [apply Z.div_pos; lia | apply Z.div_lt_upper_bound; lia]).
  rewrite digits_of_eq. destruct (Z.ltb_spec (n / 10) 10); [simpl; lia|].
  rewrite length_app. simpl length.
  assert (0 <= n / 10 / 10 < 10) as H100
    by (split; [apply Z.div_pos; lia | apply Z.div_lt_upper_bound; lia]).
  rewrite digits_of_eq. destruct (Z.ltb_spec (n / 10 / 10) 10); [simpl; lia|].
  lia.
Qed.

Lemma hex2_value (capital : bool) (n : Z) :
  0 <= n <= 255 ->
  Forall (fun c => is_hex_digit c = true) (hex2 capital n)
  /\ py_int16 (hex2 capital n) = Ok n.
Proof.
  intros Hn.
  assert (hex2_ok n = true) as Hok.
  { apply (all_from_spec hex2_ok 256 0); [vm_compute; reflexivity | lia]. }
  unfold hex2_ok in Hok. rewrite forallb_forall in Hok.
  specialize (Hok capital ltac:(destruct capital; simpl; tauto)).
  apply andb_true_iff in Hok. destruct Hok as [Hdigits Hvalue].
  split.
  - apply Forall_forall. apply (proj1 (forallb_forall _ _) Hdigits).
  - destruct (py_int16 (hex2 capital n)) as [v|e]; [|discriminate].
    apply Z.eqb_eq in Hvalue. congruence.
Qed.

(** X22. Three integers between 0 and 255 are read back by
    [parse_color] as themselves, written in decimal between commas, or
    written with two hexadecimal digits each, in small or capital
    letters, with or without the [#] before them; in both forms a
    newline may end the text. Three integers between 0 and 999 written
    in decimal, one of them above 255, are not read back: the
    [OverflowError] of [graphics.Color] escapes. *)
Theorem parse_color_round_trip (r g b : Z) :
  (0 <= r <= 255 -> 0 <= g <= 255 -> 0 <= b <= 255 ->
   forall tail, tail = [] \/ tail = ["010"%char] ->
   parse_color (digits_of r ++ ","%char :: digits_of g ++ ","%char
                  :: digits_of b ++ tail)
   = Accepted (mkColor r g b))
  /\ (0 <= r <= 255 -> 0 <= g <= 255 -> 0 <= b <= 255 ->
      forall hash capital tail, tail = [] \/ tail = ["010"%char] ->
      parse_color ((if hash : bool then ["#"%char] else [])
                     ++ hex2 capital r ++ hex2 capital g ++ hex2 capital b
                     ++ tail)
      = Accepted (mkColor r g b))
  /\ (0 <= r <= 999 -> 0 <= g <= 999 -> 0 <= b <= 999 ->
      255 < r \/ 255 < g \/ 255 < b ->
      forall tail, tail = [] \/ tail = ["010"%char] ->
      parse_color (digits_of r ++ ","%char :: digits_of g ++ ","%char
                     :: digits_of b ++ tail)
      = Escaped OverflowError).
Proof.
  assert (0 <= r <= 999 -> 0 <= g <= 999 -> 0 <= b <= 999 ->
          forall tail, tail = [] \/ tail = ["010"%char] ->
          parse_color (digits_of r ++ ","%char :: digits_of g ++ ","%char
                         :: digits_of b ++ tail)
          = of_result (graphics_Color r g b)) as Hdecimal.
  { intros Hr Hg Hb tail Htail.
    destruct (digits_of_small r Hr) as [Hlr [Hdr Hvr]].
    destruct (digits_of_small g Hg) as [Hlg [Hdg Hvg]].
    destruct (digits_of_small b Hb) as [Hlb [Hdb Hvb]].
    destruct (rgb_color_value (digits_of r) (digits_of g) (digits_of b) tail)
      as [_ [_ [Hvalue _]]]; [|exact Htail|].
    - constructor; [split; assumption|].
      constructor; [split; assumption|].
      constructor; [split; assumption | constructor].
    - cbv zeta in Hvalue. rewrite Hvalue, Hvr, Hvg, Hvb. reflexivity. }
  split; [|split].
  - intros Hr Hg Hb tail Htail.
    rewrite Hdecimal by (try exact Htail; lia).
    rewrite graphics_Color_ok by assumption. reflexivity.
  - intros Hr Hg Hb hash capital tail Htail.
    destruct (hex2_value capital r Hr) as [Hdr Hvr].
    destruct (hex2_value capital g Hg) as [Hdg Hvg].
    destruct (hex2_value capital b Hb) as [Hdb Hvb].
    unfold hex2 in *.
    set (r1 := hex_char capital (r / 16)) in *.
    set (r2 := hex_char capital (r mod 16)) in *.
    set (g1 := hex_char capital (g / 16)) in *.
    set (g2 := hex_char capital (g mod 16)) in *.
    set (b1 := hex_char capital (b / 16)) in *.
    set (b2 := hex_char capital (b mod 16)) in *.
    destruct (hex_color_value hash r1 r2 g1 g2 b1 b2 tail) as [_ Hvalue];
      [|exact Htail|].
    + inversion Hdr as [|? ? Hr1 Hdr']; subst.
      inversion Hdr' as [|? ? Hr2 _]; subst.
      inversion Hdg as [|? ? Hg1 Hdg']; subst.
      inversion Hdg' as [|? ? Hg2 _]; subst.
      inversion Hdb as [|? ? Hb1 Hdb']; subst.
      inversion Hdb' as [|? ? Hb2 _]; subst.
      repeat constructor; assumption.
    + cbv zeta in Hvalue. simpl app in *. rewrite Hvalue, Hvr, Hvg, Hvb.
      cbn [bind]. rewrite graphics_Color_ok by assumption. reflexivity.
  - intros Hr Hg Hb Hbig tail Htail.
    rewrite Hdecimal by (try exact Htail; lia).
    rewrite graphics_Color_overflow by exact Hbig. reflexivity.
Qed.

Lemma parse_color_round_trip_witness :
  parse_color (of_string "#ff8000") = Accepted (mkColor 255 128 0)
  /\ parse_color (of_string "255,128,0") = Accepted (mkColor 255 128 0)
  /\ parse_color (of_string "999,0,7") = Escaped OverflowError.
Proof.
  destruct (parse_color_round_trip 255 128 0) as [Hrgb [Hhex _]].
  destruct (parse_color_round_trip 999 0 7) as [_ [_ Hbig]].
  split; [|split].
  - apply (Hhex ltac:(lia) ltac:(lia) ltac:(lia) true false []).
    left. reflexivity.
  - apply (Hrgb ltac:(lia) ltac:(lia) ltac:(lia) []). left. reflexivity.
  - apply (Hbig ltac:(lia) ltac:(lia) ltac:(lia) ltac:(lia) []).
    left. reflexivity.
Defined.

(** X23. The brightness that the text scroller sets, [max(0, min(100,
    b))], is the [clamp] of the now-playing display at the bounds 0 and
    100, and lies between 0 and 100. *)
Theorem brightness_clamp (b : Z) :
  brightness b = clamp b 0 100 /\ 0 <= brightness b <= 100.
Proof.
  unfold brightness, clamp.
  destruct (Z.ltb_spec b 0); destruct (Z.ltb_spec 100 b); lia.
Qed.

(** *** The pace of the text scroller *)

Lemma round_aux_nonneg (m e : Z) (l : location) :
  0 <= m ->
  Float.leb (S754_zero false)
    (binary_round_aux Float.prec Float.emax false m e l) = true.
Proof.
  intros Hm. unfold binary_round_aux.
  pose proof (shr_fexp_nonneg m e l Hm) as H1.
  destruct (shr_fexp Float.prec Float.emax m e l) as [mrs' e'].
  simpl fst in H1.
  pose proof (shr_fexp_nonneg
                (round_nearest_even (shr_m mrs') (loc_of_shr_record mrs')) e'
                loc_Exact (round_nearest_even_nonneg _ _ H1)) as H2.
  destruct (shr_fexp Float.prec Float.emax _ e' loc_Exact) as [mrs'' e''].
  simpl fst in H2.
  destruct (shr_m mrs'') as [|p|p]; [reflexivity | | lia].
  destruct (e'' <=? Float.emax - Float.prec); reflexivity.
Qed.

Lemma div_core_nonneg (m1 m2 : positive) (e1 e2 : Z) :
  0 <= fst (fst (SFdiv_core_binary Float.prec Float.emax (Z.pos m1) e1
                   (Z.pos m2) e2)).
Proof.
  unfold SFdiv_core_binary.
  match goal with
  | |- context [Z.div_eucl ?a (Z.pos m2)] =>
      assert (0 <= a) as Ha;
      [| pose proof (Z.div_eucl_eq a (Z.pos m2) ltac:(lia)) as Heq;
         pose proof (Z.mod_pos_bound a (Z.pos m2) ltac:(lia)) as Hmod;
         unfold Z.modulo in Hmod;
         destruct (Z.div_eucl a (Z.pos m2)) as [q r]; simpl; nia ]
  end.
  match goal with
  | |- 0 <= match ?s with _ => _ end => destruct s
  end; try lia. apply Z.shiftl_nonneg. lia.
Qed.

Lemma div_positive_nonneg (mx my : positive) (ex ey : Z) :
  Float.leb (S754_zero false)
    (SFdiv Float.prec Float.emax (S754_finite false mx ex)
       (S754_finite false my ey)) = true.
Proof.
  unfold SFdiv.
  pose proof (div_core_nonneg mx my ex ey) as Hcore.
  destruct (SFdiv_core_binary Float.prec Float.emax (Z.pos mx) ex (Z.pos my) ey)
    as [[mz ez] lz].
  simpl in Hcore. apply round_aux_nonneg. exact Hcore.
Qed.

Lemma py_max_one (y : float) :
  Float.leb (float_lit 1) (py_max (float_lit 1) y) = true
  /\ (py_max (float_lit 1) y = float_lit 1
      \/ py_max (float_lit 1) y = S754_infinity false
      \/ exists m e, py_max (float_lit 1) y = S754_finite false m e).
Proof.
  unfold py_max. destruct (Float.ltb (float_lit 1) y) eqn:Hlt.
  - split; [apply ltb_leb; exact Hlt|].
    destruct y as [s|[]| |[] m e]; try discriminate Hlt.
    + right. left. reflexivity.
    + right. right. exists m, e. reflexivity.
  - split; [reflexivity | left; reflexivity].
Qed.

(** X24. Whatever floats the options [--fps] and [--speed] are,
    infinities and NaN included, the pace of the scroller is computed
    without a division by zero; the frame time is neither negative nor a
    NaN, so that [time.sleep] accepts it, and the step of a frame is at
    least one pixel and not a NaN. *)
Theorem frame_pacing (speed fps : float) :
  exists dt px,
    min_dt fps = Ok dt
    /\ Float.leb (float_lit 0) dt = true
    /\ px_per_frame speed fps = Ok px
    /\ Float.leb (float_lit 1) px = true
    /\ Float.is_nan px = false.
Proof.
  assert (exists dt, min_dt fps = Ok dt /\ Float.leb (float_lit 0) dt = true)
    as [dt [Hdt Hsign]].
  { unfold min_dt.
    destruct (py_max_one fps) as [_ [->|[->|[m [e ->]]]]].
    - eexists. split; reflexivity.
    - eexists. split; reflexivity.
    - eexists. split; [reflexivity|].
      change (float_lit 0) with (S754_zero false).
      assert (float_lit 1 = S754_finite false 4503599627370496 (-52)) as ->
        by reflexivity.
      apply div_positive_nonneg. }
  exists dt, (py_max (float_lit 1) (Float.mul speed dt)).
  split; [exact Hdt|]. split; [exact Hsign|].
  split; [unfold px_per_frame; rewrite Hdt; reflexivity|].
  destruct (py_max_one (Float.mul speed dt)) as [Hone Hcases].
  split; [exact Hone|].
  destruct Hcases as [->|[->|[m [e ->]]]]; reflexivity.
Qed.
